(** * nexusmods-notifier: the two polling trackers of [main.py]

    A shallow embedding of [additions] and [updates] (and of the helpers
    they call) together with the properties of the change-detection and
    state-reconciliation logic.

    Layout:
    - [Py]        the Python built-ins the code relies on (truthiness,
                  [str]/[int] on integers, slices, ordered dicts, [sorted]);
    - data model  the JSON records exchanged with the remote API and the
                  two persisted state files;
    - [Prog]      a state-and-exception monad: Python mutates its locals in
                  place and keeps the mutations when an exception is caught;
    - [additions], [updates]  the two trackers, statement by statement;
    - the theorems. *)

From Stdlib Require Import ZArith Ascii String DecimalString DecimalZ DecimalPos.
From stdpp Require Import gmap strings list sorting.

Local Open Scope string_scope.
Local Open Scope list_scope.
Local Open Scope Z_scope.

(* ===================================================================== *)
(** ** Python built-ins *)
(* ===================================================================== *)

Module Py.

(** ["\n"] *)
Definition nl : string := String (ascii_of_nat 10) EmptyString.

(** [str(n)] for an [int]. *)
Definition str_of_int (n : Z) : string := NilZero.string_of_int (Z.to_int n).

(** White space as [int] skips it around an ASCII literal: tab, line
    feed, vertical tab, form feed, carriage return and space. *)
Definition is_space (a : ascii) : bool :=
  let n := nat_of_ascii a in
  (Nat.leb 9 n && Nat.leb n 13) || Nat.eqb n 32.

Fixpoint lstrip (s : string) : string :=
  match s with
  | EmptyString => EmptyString
  | String a s' => if is_space a then lstrip s' else s
  end.

Fixpoint rstrip (s : string) : string :=
  match s with
  | EmptyString => EmptyString
  | String a s' =>
      match rstrip s' with
      | EmptyString => if is_space a then EmptyString else String a EmptyString
      | String b r => String a (String b r)
      end
  end.

(** The digits of an unsigned literal: single underscores between two
    characters are dropped; [None] when the literal is empty or an
    underscore leads, trails or follows another.  [after_digit] tells
    whether the previous character was not an underscore. *)
Fixpoint digits_of (after_digit : bool) (s : string) : option string :=
  match s with
  | EmptyString => if after_digit then Some EmptyString else None
  | String a s' =>
      if Ascii.eqb a "_"
      then (if after_digit then digits_of false s' else None)
      else String a <$> digits_of true s'
  end.

(** An unsigned decimal literal: every character that is left must be one
    of [0]..[9]. *)
Definition nat_of_str (s : string) : option Z :=
  digits_of false s ≫= λ digits, Z.of_uint <$> NilZero.uint_of_string digits.

(** [int(s)] for a [str]; [None] stands for [ValueError].  White space
    around the literal is skipped, one sign may lead, and single
    underscores may separate digits: [int(" +1_0 ") == 10].  Strings are
    sequences of ASCII characters here; the digits and spaces of other
    scripts, which [int] reads as well, are not modelled, nor is the cap
    an interpreter may put on the number of digits. *)
Definition int_of_str (s : string) : option Z :=
  match rstrip (lstrip s) with
  | String "-" s' => Z.opp <$> nat_of_str s'
  | String "+" s' => nat_of_str s'
  | s' => nat_of_str s'
  end.

(** Some character of [s] is an ASCII letter; [int(s)] then fails whatever
    else [s] holds. *)
Definition is_letter (a : ascii) : bool :=
  let n := nat_of_ascii a in
  (Nat.leb 65 n && Nat.leb n 90) || (Nat.leb 97 n && Nat.leb n 122).

Fixpoint has_letter (s : string) : bool :=
  match s with
  | EmptyString => false
  | String a s' => is_letter a || has_letter s'
  end.

(** The characters [0]..[9]. *)
Definition is_digit (a : ascii) : bool :=
  let n := nat_of_ascii a in Nat.leb 48 n && Nat.leb n 57.

Fixpoint only_digits (s : string) : bool :=
  match s with
  | EmptyString => true
  | String a s' => is_digit a && only_digits s'
  end.

(** Truthiness of a [str], and of an [int | None]. *)
Definition truthy_str (s : string) : bool :=
  match s with EmptyString => false | _ => true end.

Definition truthy_int (n : option Z) : bool :=
  match n with Some n => negb (n =? 0) | None => false end.

(** [sep.join(l)] *)
Fixpoint join (sep : string) (l : list string) : string :=
  match l with
  | [] => ""
  | [x] => x
  | x :: l' => x +:+ sep +:+ join sep l'
  end.

(** [l[i:]] with Python's treatment of a negative or too large start. *)
Definition slice_from {A} (i : Z) (l : list A) : list A :=
  let n := Z.of_nat (length l) in
  let start := if i <? 0 then Z.max 0 (n + i) else Z.min i n in
  drop (Z.to_nat start) l.

(** [l.index(x)]: position of the first occurrence ([None] stands for
    [ValueError]). *)
Fixpoint index {A} `{EqDecision A} (x : A) (l : list A) : option nat :=
  match l with
  | [] => None
  | y :: l' => if decide (y = x) then Some 0%nat else S <$> index x l'
  end.

(** A [dict] whose iteration order the code depends on is an association
    list in insertion order.  [d[k] = v] overwrites in place when [k] is
    present and appends otherwise. *)
Section dict.
Context {K V : Type} `{EqDecision K}.

Fixpoint dict_set (k : K) (v : V) (d : list (K * V)) : list (K * V) :=
  match d with
  | [] => [(k, v)]
  | (k', v') :: d' =>
      if decide (k' = k) then (k, v) :: d' else (k', v') :: dict_set k v d'
  end.

(** [dict(pairs)], also what [json.load] builds from a JSON object. *)
Definition dict_of (pairs : list (K * V)) : list (K * V) :=
  foldl (λ d kv, dict_set kv.1 kv.2 d) [] pairs.

Definition keys (d : list (K * V)) : list K := d.*1.

(** [k in d] *)
Definition contains (k : K) (d : list (K * V)) : bool :=
  bool_decide (k ∈ keys d).
End dict.

(** A dict comprehension [{key(x): val(x) for x in l}] whose order is
    never observed: a finite map, later bindings overwriting earlier ones. *)
Definition dict_comp {A V} (key : A → Z) (val : A → V) (l : list A) : gmap Z V :=
  foldl (λ d x, <[key x := val x]> d) ∅ l.

(** [sorted(l, key=key)] with integer keys: a stable sort. *)
Section sorted.
Context {A : Type} (key : A → Z).

Fixpoint insert_sorted (x : A) (l : list A) : list A :=
  match l with
  | [] => [x]
  | y :: l' => if key x <? key y then x :: y :: l' else y :: insert_sorted x l'
  end.

Definition sorted (l : list A) : list A :=
  foldl (λ acc x, insert_sorted x acc) [] l.
End sorted.

(** Iterating over a [set] of integers visits every member once, in an
    order the language leaves open; [list(s)] uses the same order. *)
Class SetOrder := {
  iter : gset Z → list Z;
  iter_perm : ∀ s, iter s ≡ₚ elements s
}.

(** One admissible order: ascending. *)
Definition ascending : SetOrder :=
  {| iter := λ s, merge_sort Z.le (elements s);
     iter_perm := λ s, merge_sort_Permutation Z.le (elements s) |}.

End Py.

(* ===================================================================== *)
(** ** Exceptions, state and loops *)
(* ===================================================================== *)

Module Prog.

(** The exceptions the modelled statements can raise; all of them are
    subclasses of Python's [Exception], the class the handler of [updates]
    names.  A user interrupt is not one and is not modelled. *)
Inductive exn :=
| RequestError (msg : string)   (* raised by [requests] or [response.json()] *)
| KeyError (key : string)       (* [d[key]] on a dict without [key] *)
| ValueError (msg : string)     (* [int(s)] on a non-numeric string *)
| TypeError (msg : string).     (* hashing an unhashable value *)

Inductive outcome (A : Type) :=
| Ok (a : A)
| Raise (e : exn).
Arguments Ok {A} a.
Arguments Raise {A} e.

(** A computation over the mutable state [S].  The state is returned on
    both outcomes: mutations made before a [raise] stay in place. *)
Definition M (S A : Type) : Type := S → outcome A * S.

Definition ret {S A} (a : A) : M S A := λ s, (Ok a, s).

Definition bind {S A B} (c : M S A) (k : A → M S B) : M S B :=
  λ s, match c s with
       | (Ok a, s') => k a s'
       | (Raise e, s') => (Raise e, s')
       end.

Definition raise {S A} (e : exn) : M S A := λ s, (Raise e, s).

Definition get {S} : M S S := λ s, (Ok s, s).

Definition modify {S} (f : S → S) : M S unit := λ s, (Ok tt, f s).

Definition lift {S A} (o : outcome A) : M S A := λ s, (o, s).

(** [try: body  except Exception as e: handler(e)] *)
Definition try_except {S A} (body : M S A) (handler : exn → M S A) : M S A :=
  λ s, match body s with
       | (Ok a, s') => (Ok a, s')
       | (Raise e, s') => handler e s'
       end.

Declare Scope prog_scope.
Delimit Scope prog_scope with prog.
Notation "x <- c1 ;; c2" := (bind c1 (λ x, c2))
  (at level 100, c1 at next level, right associativity) : prog_scope.
Notation "c1 ;; c2" := (bind c1 (λ _, c2))
  (at level 100, right associativity) : prog_scope.
Local Open Scope prog_scope.

(** [for x in l: body(x)] *)
Fixpoint for_each {S A} (l : list A) (body : A → M S unit) : M S unit :=
  match l with
  | [] => ret tt
  | x :: l' => body x ;; for_each l' body
  end.

(** [while True: body; if loop: sleep else: break].  Each pass consumes
    the remote snapshot of its moment, so a run is observed for as many
    passes as snapshots are supplied. *)
Fixpoint while_true {S R} (loop : bool) (body : R → M S unit) (envs : list R)
  : M S unit :=
  match envs with
  | [] => ret tt
  | env :: envs' =>
      body env ;; if loop then while_true loop body envs' else ret tt
  end.

End Prog.

Import Prog.
Local Open Scope prog_scope.

(* ===================================================================== *)
(** ** Data model *)
(* ===================================================================== *)

(** A mod as the remote API describes it ([latest_added.json] and
    [mods/<id>.json]).  The code reads [name] with [.get] in one place, so
    that key may be missing. *)
Record mod_info := {
  mod_id : Z;
  author : string;
  name : option string;
  domain_name : string;
  version : string;
  available : bool;
  contains_adult_content : bool
}.

(** An entry of [user/tracked_mods.json].  [tm_is_adult] is the key
    ["is_adult"] the update tracker reads from it; [None]: no such key. *)
Record tracked_mod := {
  tm_mod_id : Z;
  tm_domain_name : string;
  tm_is_adult : option bool
}.

(** An entry of [mods/updated.json]. *)
Record updated_mod := {
  um_mod_id : Z;
  um_latest_file_update : Z
}.

(** A value of [local_cache]. *)
Record cache_entry := {
  ce_version : string;
  ce_is_adult : bool;
  ce_latest_file_update : option Z
}.

Global Instance cache_entry_eq_dec : EqDecision cache_entry.
Proof. solve_decision. Defined.

(** A row of [new_mods_data]. *)
Record addition_row := {
  ar_ID : Z;
  ar_Author : string;
  ar_Name : string;
  ar_Link : string
}.

(** A row of [mods_with_new_version]. *)
Record update_row := {
  ur_ID : Z;
  ur_Author : string;
  ur_Name : string;
  ur_Link : string;
  ur_Old_Version : string;
  ur_New_Version : string
}.

(** What the outside world answers during one pass: the parsed JSON bodies
    of the mod API, or the exception the request raised, and whether posting
    a given text to the messaging API raises. *)
Record remote := {
  latest_added : outcome (list mod_info);
  tracked_mods : outcome (list tracked_mod);
  updated : outcome (list updated_mod);
  mod_details : Z → outcome mod_info;
  changelogs : Z → outcome (list (string * list string));
  telegram : string → option exn
}.

(** Observable actions, oldest first.  A notification keeps, next to its
    text, the loop variable it was sent for.  Console output other than the
    two report tables and the error line is left out. *)
Inductive event :=
| EvFetchLatest
| EvFetchTracked
| EvFetchUpdated
| EvFetchMod (id : Z)
| EvFetchChangelogs (id : Z)
| EvNotifyAddition (m : mod_info) (text : string)
| EvNotifyUpdate (id : Z) (text : string)
| EvTableAdditions (rows : list addition_row)
| EvTableUpdates (rows : list update_row)
| EvError (e : exn).

(** [https://nexusmods.com/<domain>/mods/<id>] *)
Definition mod_link (domain : string) (id : Z) : string :=
  "https://nexusmods.com/" +:+ domain +:+ "/mods/" +:+ Py.str_of_int id.

(* ===================================================================== *)
(** ** The addition tracker *)
(* ===================================================================== *)

Module Additions.

(** The locals of [additions], the content of [seen_mods.json] (a JSON
    array of integers; [None]: no such file) and the actions so far. *)
Record state := {
  seen_mods : gset Z;
  new_mods_data : list addition_row;
  state_file : option (list Z);
  trace : list event
}.

Definition log (ev : event) : M state unit :=
  modify (λ s, {| seen_mods := seen_mods s; new_mods_data := new_mods_data s;
                  state_file := state_file s; trace := trace s ++ [ev] |}).

Definition set_seen_mods (f : gset Z → gset Z) : M state unit :=
  modify (λ s, {| seen_mods := f (seen_mods s); new_mods_data := new_mods_data s;
                  state_file := state_file s; trace := trace s |}).

Definition set_new_mods_data (f : list addition_row → list addition_row)
  : M state unit :=
  modify (λ s, {| seen_mods := seen_mods s; new_mods_data := f (new_mods_data s);
                  state_file := state_file s; trace := trace s |}).

(** [fetch_latest_mods] *)
Definition fetch_latest_mods (env : remote) : M state (list mod_info) :=
  log EvFetchLatest ;; lift (latest_added env).

(** [send_telegram_message], called for the loop variable [m]. *)
Definition send_telegram_message (env : remote) (m : mod_info) (text : string)
  : M state unit :=
  log (EvNotifyAddition m text) ;;
  match telegram env text with
  | Some e => raise e
  | None => ret tt
  end.

(** [mod.get("name", "N/A")] *)
Definition name_or_na (m : mod_info) : string := default "N/A" (name m).

Definition row_of (m : mod_info) : addition_row :=
  {| ar_ID := mod_id m;
     ar_Author := author m;
     ar_Name := name_or_na m;
     ar_Link := mod_link (domain_name m) (mod_id m) |}.

Definition message_text (m : mod_info) : string :=
  "<b>" +:+ name_or_na m +:+ "</b>" +:+ Py.nl
  +:+ author m +:+ " - Version " +:+ version m +:+ Py.nl
  +:+ "Link: " +:+ mod_link (domain_name m) (mod_id m).

(** The body of [for mod in sorted(mods, ...)]. *)
Definition additions_item (hide_adult_content : bool) (env : remote)
    (m : mod_info) : M state unit :=
  s <- get ;;
  if decide (mod_id m ∈ seen_mods s) then ret tt
  else if negb (available m) then ret tt                 (* continue *)
  else
    set_seen_mods (λ seen, {[mod_id m]} ∪ seen) ;;
    if hide_adult_content && contains_adult_content m then ret tt  (* continue *)
    else
      set_new_mods_data (λ rows, rows ++ [row_of m]) ;;
      send_telegram_message env m (message_text m).

Section with_order.
Context `{Py.SetOrder}.

(** [save_state(state_file, list(seen_mods))] *)
Definition save_state : M state unit :=
  modify (λ s, {| seen_mods := seen_mods s; new_mods_data := new_mods_data s;
                  state_file := Some (Py.iter (seen_mods s));
                  trace := trace s |}).

(** One pass of the [while True] loop. *)
Definition additions_cycle (hide_adult_content : bool) (env : remote)
  : M state unit :=
  mods <- fetch_latest_mods env ;;
  for_each (Py.sorted mod_id mods) (additions_item hide_adult_content env) ;;
  s <- get ;;
  (match new_mods_data s with
   | [] => ret tt
   | rows => log (EvTableAdditions rows) ;; set_new_mods_data (λ _, [])
   end) ;;
  save_state.

(** [additions]: the locals are initialised from the state file, then
    the loop runs. *)
Definition additions (hide_adult_content loop : bool) (envs : list remote)
  : M state unit :=
  modify (λ s, {| seen_mods := list_to_set (default [] (state_file s));
                  new_mods_data := [];
                  state_file := state_file s; trace := trace s |}) ;;
  while_true loop (additions_cycle hide_adult_content) envs.

(** A launch of the process in that mode, with its command-line flags
    and the snapshots its passes meet.  Launches follow one another on
    the same state file; a launch ended by an exception leaves the file
    as last written. *)
Record launch := {
  l_hide_adult_content : bool;
  l_loop : bool;
  l_envs : list remote
}.

Definition run_launch (s : state) (l : launch) : state :=
  (additions (l_hide_adult_content l) (l_loop l) (l_envs l) s).2.

Definition run_launches (ls : list launch) (s : state) : state :=
  foldl run_launch s ls.
End with_order.

(** The actions performed between two states. *)
Definition emitted (s s' : state) (evs : list event) : Prop :=
  trace s' = trace s ++ evs.

(** Every action performed since [s0] satisfies [P]. *)
Definition since (s0 : state) (P : event → Prop) (s : state) : Prop :=
  ∃ evs, emitted s0 s evs ∧ Forall P evs.

(** An action that is not a notification for the identifier [id]. *)
Definition quiet_about (id : Z) (ev : event) : Prop :=
  ∀ m text, ev = EvNotifyAddition m text → mod_id m ≠ id.

(** An action that is not a notification for an adult-flagged mod. *)
Definition quiet_about_adult (ev : event) : Prop :=
  ∀ m text, ev = EvNotifyAddition m text → contains_adult_content m = false.

(** The identifier [id] is in the seen-set and in the state file, and
    nothing was sent for it since [s0]. *)
Definition settled (id : Z) (s0 s : state) : Prop :=
  id ∈ seen_mods s ∧
  (∃ l, state_file s = Some l ∧ id ∈ l) ∧
  since s0 (quiet_about id) s.

(** The identifier [id] is not in the seen-set, and nothing was sent for
    it since [s0]. *)
Definition pending (id : Z) (s0 s : state) : Prop :=
  (id ∉ seen_mods s) ∧ since s0 (quiet_about id) s.

(** States named in the properties below. *)

(** After an item was notified. *)
Definition notified (m : mod_info) (s : state) : state :=
  {| seen_mods := {[mod_id m]} ∪ seen_mods s;
     new_mods_data := new_mods_data s ++ [row_of m];
     state_file := state_file s;
     trace := trace s ++ [EvNotifyAddition m (message_text m)] |}.

(** After an item was marked seen but filtered out. *)
Definition marked (m : mod_info) (s : state) : state :=
  {| seen_mods := {[mod_id m]} ∪ seen_mods s;
     new_mods_data := new_mods_data s;
     state_file := state_file s;
     trace := trace s |}.

(** After the fetch that opens a pass. *)
Definition fetching (s : state) : state :=
  {| seen_mods := seen_mods s; new_mods_data := new_mods_data s;
     state_file := state_file s; trace := trace s ++ [EvFetchLatest] |}.

(** After the end of a pass: report table, then save. *)
Definition finish `{Py.SetOrder} (s : state) : state :=
  {| seen_mods := seen_mods s;
     new_mods_data := [];
     state_file := Some (Py.iter (seen_mods s));
     trace := trace s ++ match new_mods_data s with
                         | [] => []
                         | rows => [EvTableAdditions rows]
                         end |}.

(** What a launch starts from: the locals as initialised from the state
    file. *)
Definition reload (s : state) : state :=
  {| seen_mods := list_to_set (default [] (state_file s));
     new_mods_data := [];
     state_file := state_file s; trace := trace s |}.

End Additions.

(* ===================================================================== *)
(** ** The update tracker *)
(* ===================================================================== *)

Module Updates.

(** The locals of [updates], the content of [update_cache.json] (a JSON
    object with string keys; [None]: no such file) and the actions so far.
    [local_cache] is only ever looked up, written by key, tested for
    emptiness and dumped, so its key order is not kept. *)
Record state := {
  local_cache : gmap Z cache_entry;
  mods_with_new_version : list update_row;
  cache_file : option (list (string * cache_entry));
  trace : list event
}.

Definition log (ev : event) : M state unit :=
  modify (λ s, {| local_cache := local_cache s;
                  mods_with_new_version := mods_with_new_version s;
                  cache_file := cache_file s; trace := trace s ++ [ev] |}).

Definition set_local_cache (f : gmap Z cache_entry → gmap Z cache_entry)
  : M state unit :=
  modify (λ s, {| local_cache := f (local_cache s);
                  mods_with_new_version := mods_with_new_version s;
                  cache_file := cache_file s; trace := trace s |}).

Definition set_rows (f : list update_row → list update_row) : M state unit :=
  modify (λ s, {| local_cache := local_cache s;
                  mods_with_new_version := f (mods_with_new_version s);
                  cache_file := cache_file s; trace := trace s |}).

(** [json.dump] of [local_cache]: integer keys become their decimal
    strings. *)
Definition dump_cache (c : gmap Z cache_entry) : list (string * cache_entry) :=
  (λ kv, (Py.str_of_int kv.1, kv.2)) <$> map_to_list c.

(** [save_state(cache_file_path, local_cache)] *)
Definition save_state : M state unit :=
  modify (λ s, {| local_cache := local_cache s;
                  mods_with_new_version := mods_with_new_version s;
                  cache_file := Some (dump_cache (local_cache s));
                  trace := trace s |}).

(** [{int(mod_id): value for mod_id, value in items}] *)
Fixpoint cache_of_items (items : list (string * cache_entry))
    (acc : gmap Z cache_entry) : outcome (gmap Z cache_entry) :=
  match items with
  | [] => Ok acc
  | (k, v) :: items' =>
      match Py.int_of_str k with
      | None => Raise (ValueError k)
      | Some n => cache_of_items items' (<[n := v]> acc)
      end
  end.

(** [{... for ... in (load_state(cache_file_path) or {}).items()}] *)
Definition load_cache (file : option (list (string * cache_entry)))
  : outcome (gmap Z cache_entry) :=
  cache_of_items (default [] file) ∅.

Definition fetch_updated_mods (env : remote) : M state (list updated_mod) :=
  log EvFetchUpdated ;; lift (updated env).

(** [if game_domain_name: mods = [mod for mod in mods if ...]] *)
Definition for_game (game_domain_name : string) (mods : list tracked_mod)
  : list tracked_mod :=
  if Py.truthy_str game_domain_name
  then filter (λ m, tm_domain_name m = game_domain_name) mods
  else mods.

(** [fetch_tracked_mods] *)
Definition fetch_tracked_mods (game_domain_name : string) (env : remote)
  : M state (list tracked_mod) :=
  log EvFetchTracked ;;
  mods <- lift (tracked_mods env) ;;
  ret (for_game game_domain_name mods).

Definition fetch_mod (env : remote) (id : Z) : M state mod_info :=
  log (EvFetchMod id) ;; lift (mod_details env id).

(** [fetch_mod_changelogs]; the JSON object is parsed into a dict. *)
Definition fetch_mod_changelogs (env : remote) (id : Z)
  : M state (list (string * list string)) :=
  log (EvFetchChangelogs id) ;;
  raw <- lift (changelogs env id) ;;
  ret (Py.dict_of raw).

Definition send_telegram_message (env : remote) (id : Z) (text : string)
  : M state unit :=
  log (EvNotifyUpdate id text) ;;
  match telegram env text with
  | Some e => raise e
  | None => ret tt
  end.

(** [{mod["mod_id"] for mod in tracked_mods
      if not hide_adult_content or not mod["is_adult"]}] *)
Fixpoint filtered_ids (hide_adult_content : bool) (l : list tracked_mod)
  : outcome (gset Z) :=
  match l with
  | [] => Ok ∅
  | m :: l' =>
      let keep :=
        if negb hide_adult_content then Ok true
        else match tm_is_adult m with
             | None => Raise (KeyError "is_adult")
             | Some adult => Ok (negb adult)
             end in
      match keep with
      | Raise e => Raise e
      | Ok b =>
          match filtered_ids hide_adult_content l' with
          | Raise e => Raise e
          | Ok ids => Ok (if b then {[tm_mod_id m]} ∪ ids else ids)
          end
      end
  end.

(** [last_version_index]: the position of [old_version] among the keys,
    [-2] when it is not a key. *)
Definition last_version_index (changelogs : list (string * list string))
    (old_version : string) : Z :=
  if Py.contains old_version changelogs
  then match Py.index old_version (Py.keys changelogs) with
       | Some i => Z.of_nat i
       | None => -2   (* not reached: [old_version] is a key *)
       end
  else -2.

(** [dict(list(changelogs.items())[last_version_index + 1 :])] *)
Definition new_versions (changelogs : list (string * list string))
    (old_version : string) : list (string * list string) :=
  Py.dict_of (Py.slice_from (last_version_index changelogs old_version + 1)
                changelogs).

(** ["<b>{}</b>\n- {}".format(version, "\n- ".join(changelog))] *)
Definition changelog_block (entry : string * list string) : string :=
  "<b>" +:+ entry.1 +:+ "</b>" +:+ Py.nl +:+ "- "
  +:+ Py.join (Py.nl +:+ "- ") entry.2.

Definition changelog_text (versions : list (string * list string)) : string :=
  Py.join Py.nl (changelog_block <$> versions).

Definition message_text (nm author domain : string) (id : Z)
    (old_version new_version : string)
    (versions : list (string * list string)) : string :=
  "<b>" +:+ nm +:+ "</b>" +:+ Py.nl
  +:+ author +:+ " - Version " +:+ old_version +:+ " -> " +:+ new_version
  +:+ Py.nl
  +:+ "Link: " +:+ mod_link domain id +:+ Py.nl
  +:+ "Changelog:" +:+ Py.nl +:+ changelog_text versions.

(** [mod_details["name"]] *)
Definition name_of (d : mod_info) : M state string :=
  match name d with
  | Some nm => ret nm
  | None => raise (KeyError "name")
  end.

Definition row_of (id : Z) (d : mod_info) (nm old_version : string)
    (entry : string * list string) : update_row :=
  {| ur_ID := id;
     ur_Author := author d;
     ur_Name := nm;
     ur_Link := mod_link (domain_name d) id;
     ur_Old_Version := if Py.truthy_str old_version then old_version else "N/A";
     ur_New_Version := entry.1 |}.

Definition entry_of (d : mod_info) (latest : option Z) : cache_entry :=
  {| ce_version := version d;
     ce_is_adult := contains_adult_content d;
     ce_latest_file_update := latest |}.

(** The body of [for mod_id in tracked_mod_ids] in the steady-state
    loop. *)
Definition updates_item (env : remote) (updated_mod_data : gmap Z Z) (id : Z)
  : M state unit :=
  s <- get ;;
  let cached_latest_file_update :=
    local_cache s !! id ≫= ce_latest_file_update in
  let new_latest_file_update := updated_mod_data !! id in
  match local_cache s !! id with
  | None =>
      mod_details <- fetch_mod env id ;;
      set_local_cache (<[id := entry_of mod_details new_latest_file_update]>)
                                                             (* continue *)
  | Some entry =>
      if Py.truthy_int new_latest_file_update
         && bool_decide (cached_latest_file_update ≠ new_latest_file_update)
      then
        mod_details <- fetch_mod env id ;;
        let new_version := version mod_details in
        let old_version := ce_version entry in
        (if Py.truthy_str old_version && Py.truthy_str new_version
            && bool_decide (old_version ≠ new_version)
         then
           changelogs <- fetch_mod_changelogs env id ;;
           let versions := new_versions changelogs old_version in
           nm <- name_of mod_details ;;
           send_telegram_message env id
             (message_text nm (author mod_details) (domain_name mod_details)
                id old_version new_version versions) ;;
           set_rows (λ rows,
             rows ++ (row_of id mod_details nm old_version <$> versions))
         else ret tt) ;;
        set_local_cache (<[id := entry_of mod_details new_latest_file_update]>)
      else ret tt
  end.

Section with_order.
Context `{Py.SetOrder}.

(** The statements inside [try:]. *)
Definition cycle_body (hide_adult_content : bool) (game_domain_name : string)
    (env : remote) : M state unit :=
  updated_mods <- fetch_updated_mods env ;;
  let updated_mod_data :=
    Py.dict_comp um_mod_id um_latest_file_update updated_mods in
  tracked <- fetch_tracked_mods game_domain_name env ;;
  tracked_mod_ids <- lift (filtered_ids hide_adult_content tracked) ;;
  for_each (Py.iter tracked_mod_ids) (updates_item env updated_mod_data) ;;
  save_state.

(** One pass of the [while True] loop: the guarded body, then the
    report table. *)
Definition updates_cycle (hide_adult_content : bool)
    (game_domain_name : string) (env : remote) : M state unit :=
  try_except (cycle_body hide_adult_content game_domain_name env)
             (λ e, log (EvError e)) ;;
  s <- get ;;
  match mods_with_new_version s with
  | [] => ret tt
  | rows => log (EvTableUpdates rows) ;; set_rows (λ _, [])
  end.

(** The body of [for mod_id in tracked_mod_ids] of the initial
    population. *)
Definition bootstrap_item (env : remote) (updated_mod_data : gmap Z Z)
    (id : Z) : M state unit :=
  mod_info <- fetch_mod env id ;;
  set_local_cache (<[id := entry_of mod_info (updated_mod_data !! id)]>).

(** [if not local_cache: ...] *)
Definition bootstrap (game_domain_name : string) (env : remote)
  : M state unit :=
  s <- get ;;
  if decide (local_cache s = ∅) then
    updated_mods <- fetch_updated_mods env ;;
    let updated_mod_data :=
      Py.dict_comp um_mod_id um_latest_file_update updated_mods in
    tracked <- fetch_tracked_mods game_domain_name env ;;
    let tracked_mod_ids : gset Z := list_to_set (tm_mod_id <$> tracked) in
    for_each (Py.iter tracked_mod_ids) (bootstrap_item env updated_mod_data) ;;
    save_state
  else ret tt.

(** [updates]: the cache is read from the state file, populated when
    empty (against the remote [boot]), then the loop runs. *)
Definition updates (hide_adult_content loop : bool)
    (game_domain_name : string) (boot : remote) (envs : list remote)
  : M state unit :=
  s <- get ;;
  cache <- lift (load_cache (cache_file s)) ;;
  modify (λ s, {| local_cache := cache; mods_with_new_version := [];
                  cache_file := cache_file s; trace := trace s |}) ;;
  bootstrap game_domain_name boot ;;
  while_true loop (updates_cycle hide_adult_content game_domain_name) envs.
End with_order.

(** The actions performed between two states. *)
Definition emitted (s s' : state) (evs : list event) : Prop :=
  trace s' = trace s ++ evs.

(** Every action performed since [s0] satisfies [P]. *)
Definition since (s0 : state) (P : event → Prop) (s : state) : Prop :=
  ∃ evs, emitted s0 s evs ∧ Forall P evs.

(** An action that is about the identifier [id]: a request for its
    details or changelogs, or a notification for it. *)
Definition concerns (id : Z) (ev : event) : Prop :=
  ev = EvFetchMod id ∨ ev = EvFetchChangelogs id ∨
  ∃ text, ev = EvNotifyUpdate id text.

(** States named in the properties below. *)

Definition logged (ev : event) (s : state) : state :=
  {| local_cache := local_cache s;
     mods_with_new_version := mods_with_new_version s;
     cache_file := cache_file s; trace := trace s ++ [ev] |}.

(** After [save_state]. *)
Definition saved (s : state) : state :=
  {| local_cache := local_cache s;
     mods_with_new_version := mods_with_new_version s;
     cache_file := Some (dump_cache (local_cache s));
     trace := trace s |}.

(** After the report table that closes a pass. *)
Definition tabled (s : state) : state :=
  {| local_cache := local_cache s;
     mods_with_new_version := [];
     cache_file := cache_file s;
     trace := trace s ++ match mods_with_new_version s with
                         | [] => []
                         | rows => [EvTableUpdates rows]
                         end |}.

(** After the locals were initialised with the cache [c]. *)
Definition loaded (c : gmap Z cache_entry) (s : state) : state :=
  {| local_cache := c; mods_with_new_version := [];
     cache_file := cache_file s; trace := trace s |}.

(** After a confirmed version change of [id] was reported with the
    changelog entries [versions]. *)
Definition reported (id : Z) (d : mod_info) (nm : string)
    (entry : cache_entry) (latest : option Z)
    (versions : list (string * list string)) (s : state) : state :=
  {| local_cache := <[id := entry_of d latest]> (local_cache s);
     mods_with_new_version :=
       mods_with_new_version s
       ++ (row_of id d nm (ce_version entry) <$> versions);
     cache_file := cache_file s;
     trace := trace s ++
       [ EvFetchMod id; EvFetchChangelogs id;
         EvNotifyUpdate id
           (message_text nm (author d) (domain_name d) id
              (ce_version entry) (version d) versions) ] |}.

End Updates.

(* ===================================================================== *)
(** ** Sample data *)
(* ===================================================================== *)

Module Examples.

Definition offline {A} : outcome A := Raise (RequestError "connection refused").

(** Three freshly added mods: one plain, one adult-flagged, one not yet
    available. *)
Definition lanterns : mod_info :=
  {| mod_id := 11; author := "ann"; name := Some "Lanterns";
     domain_name := "starfield"; version := "1.0";
     available := true; contains_adult_content := false |}.

Definition boudoir : mod_info :=
  {| mod_id := 12; author := "bob"; name := None;
     domain_name := "starfield"; version := "0.3";
     available := true; contains_adult_content := true |}.

Definition roads : mod_info :=
  {| mod_id := 13; author := "cy"; name := Some "Roads";
     domain_name := "starfield"; version := "2.0";
     available := false; contains_adult_content := false |}.

Definition roads_released : mod_info :=
  {| mod_id := 13; author := "cy"; name := Some "Roads";
     domain_name := "starfield"; version := "2.0";
     available := true; contains_adult_content := false |}.

Definition latest_only (mods : list mod_info) : remote :=
  {| latest_added := Ok mods;
     tracked_mods := offline; updated := offline;
     mod_details := λ _, offline; changelogs := λ _, offline;
     telegram := λ _, None |}.

Definition snapshot : remote := latest_only [roads; boudoir; lanterns].
Definition snapshot_later : remote :=
  latest_only [roads_released; boudoir; lanterns].

(** Nothing answers. *)
Definition unreachable : remote :=
  {| latest_added := offline; tracked_mods := offline; updated := offline;
     mod_details := λ _, offline; changelogs := λ _, offline;
     telegram := λ _, None |}.

(** A first launch of the addition tracker: no state file yet. *)
Definition fresh : Additions.state :=
  {| Additions.seen_mods := ∅; Additions.new_mods_data := [];
     Additions.state_file := None; Additions.trace := [] |}.

(** The state after one filtered pass over [snapshot]. *)
Definition after_first_pass : Additions.state :=
  (@Additions.additions_cycle Py.ascending true snapshot fresh).2.

(** A tracked mod whose changelog has three versions. *)
Definition spec_changelog : list (string * list string) :=
  [ ("1.0", ["initial release"]); ("1.1", ["fix A"]); ("1.2", ["fix B"]) ].

Definition star_maps : mod_info :=
  {| mod_id := 7; author := "dee"; name := Some "Star Maps";
     domain_name := "starfield"; version := "1.2";
     available := true; contains_adult_content := false |}.

Definition tracked (id : Z) (adult : option bool) : tracked_mod :=
  {| tm_mod_id := id; tm_domain_name := "starfield"; tm_is_adult := adult |}.

Definition cached (v : string) (adult : bool) (latest : Z) : cache_entry :=
  {| ce_version := v; ce_is_adult := adult;
     ce_latest_file_update := Some latest |}.

(** The remote when mod 7 was last updated at [latest]; its tracked-mods
    entry carries the key ["is_adult"] or not. *)
Definition remote_7 (latest : Z) (adult : option bool) : remote :=
  {| latest_added := offline;
     tracked_mods := Ok [tracked 7 adult];
     updated := Ok [ {| um_mod_id := 7; um_latest_file_update := latest |} ];
     mod_details := λ id, if decide (id = 7) then Ok star_maps else offline;
     changelogs := λ id, if decide (id = 7) then Ok spec_changelog else offline;
     telegram := λ _, None |}.

(** The remote-updated map of [remote_7 200 _]. *)
Definition moved : gmap Z Z :=
  Py.dict_comp um_mod_id um_latest_file_update
    [ {| um_mod_id := 7; um_latest_file_update := 200 |} ].

(** The update tracker with mod 7 cached at version [v], timestamp 100. *)
Definition tracking (v : string) (adult : bool) : Updates.state :=
  {| Updates.local_cache := {[ 7 := cached v adult 100 ]};
     Updates.mods_with_new_version := [];
     Updates.cache_file := None;
     Updates.trace := [] |}.

(** A first launch of the update tracker: no state file yet. *)
Definition blank : Updates.state :=
  {| Updates.local_cache := ∅;
     Updates.mods_with_new_version := [];
     Updates.cache_file := None;
     Updates.trace := [] |}.

(** Mods 3 and 5 are tracked; the details of 5 cannot be fetched. *)
Definition half_reachable : remote :=
  {| latest_added := offline;
     tracked_mods := Ok [tracked 3 None; tracked 5 None];
     updated := Ok [];
     mod_details := λ id, if decide (id = 3) then Ok lanterns else offline;
     changelogs := λ _, offline;
     telegram := λ _, None |}.

End Examples.

(* ===================================================================== *)
(** ** What a trace shows *)
(* ===================================================================== *)

Module Observed.

(** The call of [send_telegram_message] the addition tracker makes for the
    item [m]. *)
Definition notification (m : mod_info) : event :=
  EvNotifyAddition m (Additions.message_text m).

(** The mods the addition tracker sent a message for, oldest first. *)
Definition notified_mods (evs : list event) : list mod_info :=
  omap (λ ev, match ev with
              | EvNotifyAddition m _ => Some m
              | _ => None
              end) evs.

Definition notified_ids (evs : list event) : list Z :=
  mod_id <$> notified_mods evs.

(** The report table of a pass of the addition tracker that notified
    [ns]: printed only when there is a row. *)
Definition table_of (ns : list mod_info) : list event :=
  match ns with
  | [] => []
  | _ => [EvTableAdditions (Additions.row_of <$> ns)]
  end.

(** Since [s0] the addition tracker has sent at most one message per
    identifier, each for an identifier that was unseen in [s0] and is seen
    in [s]. *)
Definition once (s0 s : Additions.state) : Prop :=
  Additions.seen_mods s0 ⊆ Additions.seen_mods s ∧
  ∃ evs, Additions.emitted s0 s evs ∧
         NoDup (notified_ids evs) ∧
         ∀ id, id ∈ notified_ids evs →
               id ∈ Additions.seen_mods s ∧ id ∉ Additions.seen_mods s0.

(** The identifiers the update tracker sent a message for, oldest first. *)
Definition updated_ids (evs : list event) : list Z :=
  omap (λ ev, match ev with
              | EvNotifyUpdate id _ => Some id
              | _ => None
              end) evs.

(** What makes the update tracker report [id]: it has a cache entry, the
    remote timestamp is truthy and differs from the cached one, and the
    fetched version and the cached one are non-empty and differ. *)
Definition confirmed (env : remote) (updated_mod_data : gmap Z Z)
    (s : Updates.state) (id : Z) : Prop :=
  ∃ entry latest d,
    Updates.local_cache s !! id = Some entry ∧
    updated_mod_data !! id = Some latest ∧
    latest ≠ 0 ∧
    ce_latest_file_update entry ≠ Some latest ∧
    mod_details env id = Ok d ∧
    ce_version entry ≠ "" ∧ version d ≠ "" ∧ ce_version entry ≠ version d.

(** The cache entry of [id] makes its item do nothing. *)
Definition idle (updated_mod_data : gmap Z Z) (id : Z) (s : Updates.state)
  : Prop :=
  ∃ entry,
    Updates.local_cache s !! id = Some entry ∧
    (Py.truthy_int (updated_mod_data !! id) = false ∨
     updated_mod_data !! id = ce_latest_file_update entry).

End Observed.

(* ===================================================================== *)
(** ** The expiring memo table *)
(* ===================================================================== *)

Module Memo.

Section cache_with_expiry.
(** The key [(args, frozenset(kwargs.items()))], the result of [func] and
    the readings of [time.time()].  [fresh now cached_time] stands for
    [now - cached_time < seconds]: the table is modelled for any clock and
    any way of comparing its readings. *)
Context {K R T : Type} `{Countable K}.
Variable fresh : T → T → bool.

(** The dict [cache] of the decorator, and the arguments [func] was called
    with so far, oldest first. *)
Record state := {
  cache : gmap K (T * R);
  calls : list K
}.

(** The call of [func] on the arguments: it is recorded, then answers or
    raises. *)
Definition call (func : K → outcome R) (k : K) : M state R :=
  modify (λ s, {| cache := cache s; calls := calls s ++ [k] |}) ;;
  lift (func k).

(** [wrapper], from the test of the table on, for arguments whose key [k]
    could be built ([wrapper_of_args] below has the step before):
    [now_check] is the clock when the entry is tested (read only when there
    is an entry), [now_store] the clock when the result is stored. *)
Definition wrapper (func : K → outcome R) (k : K) (now_check now_store : T)
  : M state R :=
  s <- get ;;
  let miss :=
    result <- call func k ;;
    modify (λ s, {| cache := <[k := (now_store, result)]> (cache s);
                    calls := calls s |}) ;;
    ret result in
  match cache s !! k with
  | Some (cached_time, cached_result) =>
      if fresh now_check cached_time then ret cached_result else miss
  | None => miss
  end.
(** The result the table holds for [k], if that entry is fresh at [now]. *)
Definition served (s : state) (k : K) (now : T) : option R :=
  match cache s !! k with
  | Some (cached_time, cached_result) =>
      if fresh now cached_time then Some cached_result else None
  | None => None
  end.

(** [wrapper] as it is called, on arguments [args] of any kind.  Building
    [cache_key] hashes the keyword values and [cache_key in cache] hashes
    the positional ones: an unhashable argument raises [TypeError] there,
    before the table is read and before [func] is called.  [key_of] gives
    the key of hashable arguments and [None] for the others. *)
Definition wrapper_of_args {A : Type} (key_of : A → option K)
    (func : K → outcome R) (args : A) (now_check now_store : T) : M state R :=
  match key_of args with
  | None => raise (TypeError "unhashable type")
  | Some k => wrapper func k now_check now_store
  end.
End cache_with_expiry.

End Memo.

(* ===================================================================== *)
(** ** More sample data *)
(* ===================================================================== *)

Module MoreExamples.
Import Examples.

(** The snapshot of [Examples], with a messaging API that is down. *)
Definition snapshot_unsent : remote :=
  {| latest_added := Ok [roads; boudoir; lanterns];
     tracked_mods := offline; updated := offline;
     mod_details := λ _, offline; changelogs := λ _, offline;
     telegram := λ _, Some (RequestError "connection refused") |}.

(** Mod 3 is tracked and its details can be fetched. *)
Definition reachable_3 : remote :=
  {| latest_added := offline;
     tracked_mods := Ok [tracked 3 None];
     updated := Ok [ {| um_mod_id := 3; um_latest_file_update := 50 |} ];
     mod_details := λ id, if decide (id = 3) then Ok lanterns else offline;
     changelogs := λ _, offline;
     telegram := λ _, None |}.

(** Mod 7 has a new version and no changelog. *)
Definition remote_7_bare : remote :=
  {| latest_added := offline;
     tracked_mods := Ok [tracked 7 None];
     updated := Ok [ {| um_mod_id := 7; um_latest_file_update := 200 |} ];
     mod_details := λ id, if decide (id = 7) then Ok star_maps else offline;
     changelogs := λ _, Ok [];
     telegram := λ _, None |}.

(** The update tracker after the body of a pass on [remote_7 200 None]. *)
Definition after_update_pass : Updates.state :=
  (@Updates.cycle_body Py.ascending false "starfield" (remote_7 200 None)
     (tracking "1.0" false)).2.

(** A state file whose second key is not a number; the first one is,
    written with a sign and white space. *)
Definition misfiled : Updates.state :=
  {| Updates.local_cache := ∅;
     Updates.mods_with_new_version := [];
     Updates.cache_file := Some [ (" +3", cached "0.9" false 50);
                                  ("seven", cached "1.0" false 100) ];
     Updates.trace := [] |}.

(** A memo table over integer keys and a clock in seconds, entries
    expiring after 300 seconds. *)
Definition fresh_300 (now cached_time : Z) : bool := now - cached_time <? 300.

Definition empty_table : @Memo.state Z string Z _ _ :=
  {| Memo.cache := ∅; Memo.calls := [] |}.

Definition answers (k : Z) : outcome string :=
  if decide (k = 1) then Ok "one" else offline.

(** Arguments that are an integer, or a value that cannot be hashed. *)
Definition hashable (args : option Z) : option Z := args.

End MoreExamples.

(* ===================================================================== *)
(** ** Facts about the built-ins *)
(* ===================================================================== *)

(** Settles a decidable statement about closed terms by evaluation. *)
Ltac by_compute :=
  match goal with
  | |- ?P => apply (@bool_decide_unpack P _); vm_compute; exact I
  end.

(** Case analysis on the 256 characters. *)
Ltac each_ascii a :=
  let b0 := fresh in let b1 := fresh in let b2 := fresh in let b3 := fresh in
  let b4 := fresh in let b5 := fresh in let b6 := fresh in let b7 := fresh in
  destruct a as [b0 b1 b2 b3 b4 b5 b6 b7];
  destruct b0, b1, b2, b3, b4, b5, b6, b7.

Module PyFacts.
Import Py.

Lemma string_of_uint_digits (d : Decimal.uint) :
  only_digits (NilEmpty.string_of_uint d) = true.
Proof. induction d; simpl; auto. Qed.

Lemma digit_cases (a : ascii) :
  is_digit a = true →
  is_space a = false ∧ Ascii.eqb a "_" = false ∧ is_letter a = false ∧
  a ≠ "-"%char ∧ a ≠ "+"%char.
Proof. each_ascii a; intros Ha; try discriminate Ha; by vm_compute. Qed.

Lemma lstrip_digits s : only_digits s = true → lstrip s = s.
Proof.
  destruct s as [|a s]; [done|]. simpl. intros [Ha _]%andb_prop.
  by destruct (digit_cases a Ha) as (-> & _).
Qed.

Lemma rstrip_digits s : only_digits s = true → rstrip s = s.
Proof.
  induction s as [|a s IH]; [done|]. simpl. intros [Ha Hs]%andb_prop.
  rewrite (IH Hs). destruct (digit_cases a Ha) as (-> & _). by destruct s.
Qed.

Lemma digits_of_digits s :
  only_digits s = true → digits_of true s = Some s.
Proof.
  induction s as [|a s IH]; [done|]. simpl. intros [Ha Hs]%andb_prop.
  destruct (digit_cases a Ha) as (_ & -> & _). by rewrite (IH Hs).
Qed.

Lemma nat_of_str_of_uint (d : Decimal.uint) :
  d ≠ Decimal.Nil →
  nat_of_str (NilZero.string_of_uint d) = Some (Z.of_uint d).
Proof.
  intros Hd. unfold nat_of_str.
  assert (only_digits (NilZero.string_of_uint d) = true) as Hdigits.
  { destruct d; try done; apply string_of_uint_digits. }
  destruct (NilZero.string_of_uint d) as [|a s] eqn:Hs.
  { by destruct d. }
  simpl in Hdigits. apply andb_prop in Hdigits as [Ha Hs'].
  simpl. destruct (digit_cases a Ha) as (_ & -> & _).
  rewrite (digits_of_digits s Hs'). simpl.
  change (Z.of_uint <$> NilZero.uint_of_string (String a s) = Some (Z.of_uint d)).
  rewrite <- Hs. by rewrite NilZero.usu.
Qed.

(** [int(str(n)) == n] *)
Lemma int_of_str_of_int (n : Z) : int_of_str (str_of_int n) = Some n.
Proof.
  assert (∀ d, d ≠ Decimal.Nil →
               int_of_str (NilZero.string_of_uint d) = Some (Z.of_uint d)
               ∧ int_of_str (String "-" (NilZero.string_of_uint d))
                 = Some (- Z.of_uint d)) as Hboth.
  { intros d Hd.
    assert (only_digits (NilZero.string_of_uint d) = true) as Hdigits.
    { destruct d; try done; apply string_of_uint_digits. }
    pose proof (nat_of_str_of_uint d Hd) as Hnat.
    unfold int_of_str. simpl lstrip.
    rewrite (lstrip_digits _ Hdigits). simpl rstrip.
    rewrite (rstrip_digits _ Hdigits).
    destruct (NilZero.string_of_uint d) as [|a s] eqn:Hs.
    { by destruct d. }
    split; [|by rewrite Hnat].
    rewrite <- Hnat. simpl in Hdigits. apply andb_prop in Hdigits as [Ha _].
    clear -Ha. each_ascii a; try discriminate Ha; reflexivity. }
  unfold str_of_int. destruct n as [|p|p]; simpl Z.to_int.
  - reflexivity.
  - simpl NilZero.string_of_int.
    destruct (Hboth (Pos.to_uint p)) as [-> _].
    { apply Unsigned.to_uint_nonnil. }
    unfold Z.of_uint. by rewrite Unsigned.of_to.
  - simpl NilZero.string_of_int.
    destruct (Hboth (Pos.to_uint p)) as [_ ->].
    { apply Unsigned.to_uint_nonnil. }
    unfold Z.of_uint. by rewrite Unsigned.of_to.
Qed.

(** A letter makes the literal invalid. *)
Lemma uint_of_char_letter a d : is_letter a = true → uint_of_char a d = None.
Proof.
  intros Ha. destruct d; [|done].
  each_ascii a; try discriminate Ha; reflexivity.
Qed.

Lemma uint_of_string_letter s :
  has_letter s = true → NilEmpty.uint_of_string s = None.
Proof.
  induction s as [|a s IH]; [done|]. simpl.
  intros [Ha|Hs]%orb_prop.
  - by apply uint_of_char_letter.
  - by rewrite (IH Hs).
Qed.

Lemma letter_cases (a : ascii) :
  is_letter a = true →
  is_space a = false ∧ Ascii.eqb a "_" = false ∧
  a ≠ "-"%char ∧ a ≠ "+"%char.
Proof. each_ascii a; intros Ha; try discriminate Ha; by vm_compute. Qed.

Lemma digits_of_letter s b t :
  has_letter s = true → digits_of b s = Some t → has_letter t = true.
Proof.
  revert b t. induction s as [|a s IH]; [done|]. intros b t. simpl.
  destruct (Ascii.eqb a "_") eqn:Hus.
  - intros [Ha|Hs]%orb_prop.
    + destruct (letter_cases a Ha) as (_ & Hne & _). congruence.
    + destruct b; [|done]. by apply IH.
  - intros Hl. destruct (digits_of true s) as [t'|] eqn:Ht'; [|done].
    intros [= <-]. simpl. apply orb_prop in Hl as [->|Hs]; [done|].
    rewrite (IH true t' Hs Ht'). by destruct (is_letter a).
Qed.

Lemma nat_of_str_letter s : has_letter s = true → nat_of_str s = None.
Proof.
  intros Hs. unfold nat_of_str.
  destruct (digits_of false s) as [t|] eqn:Ht; [|done]. simpl.
  pose proof (digits_of_letter s false t Hs Ht) as Hl.
  destruct t as [|a t]; [done|].
  change (NilZero.uint_of_string (String a t))
    with (NilEmpty.uint_of_string (String a t)).
  by rewrite (uint_of_string_letter _ Hl).
Qed.

Lemma lstrip_letter s : has_letter s = true → has_letter (lstrip s) = true.
Proof.
  induction s as [|a s IH]; [done|]. simpl.
  destruct (is_space a) eqn:Hsp; [|done].
  intros [Ha|Hs]%orb_prop; [|by apply IH].
  destruct (letter_cases a Ha) as (Hne & _). congruence.
Qed.

Lemma rstrip_letter s : has_letter s = true → has_letter (rstrip s) = true.
Proof.
  induction s as [|a s IH]; [done|]. simpl.
  intros [Ha|Hs]%orb_prop.
  - destruct (letter_cases a Ha) as (Hsp & _). rewrite Hsp.
    destruct (rstrip s); simpl; by rewrite Ha.
  - specialize (IH Hs). destruct (rstrip s) as [|b r]; [done|].
    simpl in *. rewrite IH. by destruct (is_letter a).
Qed.

(** [int(s)] raises when [s] holds a letter. *)
Lemma int_of_str_letter s : has_letter s = true → int_of_str s = None.
Proof.
  intros Hs. apply lstrip_letter, rstrip_letter in Hs. unfold int_of_str.
  destruct (rstrip (lstrip s)) as [|a t]; [done|]. simpl in Hs.
  destruct (is_letter a) eqn:Ha.
  - assert (nat_of_str (String a t) = None) as Hnone.
    { apply nat_of_str_letter. simpl. by rewrite Ha. }
    rewrite <- Hnone. clear -Ha.
    each_ascii a; try discriminate Ha; reflexivity.
  - simpl in Hs. pose proof (nat_of_str_letter t Hs) as Ht.
    assert (nat_of_str (String a t) = None) as Hnone.
    { apply nat_of_str_letter. simpl. by rewrite Ha. }
    each_ascii a; try (by rewrite Ht); exact Hnone.
Qed.

Lemma append_assoc (a b c : string) : (a +:+ b) +:+ c = a +:+ b +:+ c.
Proof.
  induction a as [|x a IH]; [done|].
  change (String x ((a +:+ b) +:+ c) = String x (a +:+ b +:+ c)).
  by rewrite IH.
Qed.

Lemma str_of_int_inj (n m : Z) : str_of_int n = str_of_int m → n = m.
Proof.
  intros Heq. apply (f_equal int_of_str) in Heq.
  rewrite !int_of_str_of_int in Heq. congruence.
Qed.

Section dict.
Context {K V : Type} `{EqDecision K}.
Implicit Types (d : list (K * V)) (k : K) (v : V).

Lemma dict_set_fresh k v d : k ∉ keys d → dict_set k v d = d ++ [(k, v)].
Proof.
  unfold keys. induction d as [|[k' v'] d IH]; csimpl; [done|].
  rewrite not_elem_of_cons. intros [Hne Hnin].
  destruct (decide (k' = k)); [congruence|]. by rewrite IH.
Qed.

Lemma dict_set_keys k v d :
  keys (dict_set k v d) = if decide (k ∈ keys d) then keys d else keys d ++ [k].
Proof.
  unfold keys. induction d as [|[k' v'] d IH]; csimpl.
  - destruct (decide (k ∈ [])) as [Hin|]; [by apply elem_of_nil in Hin|done].
  - destruct (decide (k' = k)) as [->|Hne]; csimpl.
    + rewrite decide_True; [done|]. apply elem_of_cons; by left.
    + rewrite IH. destruct (decide (k ∈ d.*1)) as [Hin|Hnin].
      * rewrite decide_True; [done|]. apply elem_of_cons; by right.
      * rewrite decide_False; [done|].
        rewrite elem_of_cons. intros [->|?]; congruence.
Qed.

Lemma dict_set_NoDup k v d : NoDup (keys d) → NoDup (keys (dict_set k v d)).
Proof.
  intros Hnd. rewrite dict_set_keys. case_decide; [done|].
  apply NoDup_app. split_and!; [done| |apply NoDup_singleton].
  intros x Hx Hx'. apply list_elem_of_singleton in Hx'. congruence.
Qed.

Lemma foldl_dict_set_NoDup (pairs acc : list (K * V)) :
  NoDup (keys acc) →
  NoDup (keys (foldl (λ d kv, dict_set kv.1 kv.2 d) acc pairs)).
Proof.
  revert acc. induction pairs as [|[k v] pairs IH]; intros acc Hnd; csimpl.
  - done.
  - apply IH. by apply dict_set_NoDup.
Qed.

(** The keys of a dict are pairwise distinct. *)
Lemma dict_of_NoDup (pairs : list (K * V)) : NoDup (keys (dict_of pairs)).
Proof. apply foldl_dict_set_NoDup. apply NoDup_nil_2. Qed.

Lemma foldl_dict_set_id (pairs acc : list (K * V)) :
  NoDup (keys (acc ++ pairs)) →
  foldl (λ d kv, dict_set kv.1 kv.2 d) acc pairs = acc ++ pairs.
Proof.
  revert acc. induction pairs as [|[k v] pairs IH]; intros acc Hnd; csimpl.
  - by rewrite app_nil_r.
  - assert (k ∉ keys acc) as Hk.
    { unfold keys in *. rewrite fmap_app in Hnd.
      apply NoDup_app in Hnd as (_ & Hdisj & _).
      intros Hin. apply (Hdisj _ Hin). csimpl. apply elem_of_cons; by left. }
    rewrite dict_set_fresh by done.
    rewrite IH; [by rewrite <- app_assoc|].
    by rewrite <- app_assoc.
Qed.

(** Rebuilding a dict from pairs with distinct keys changes nothing. *)
Lemma dict_of_id (pairs : list (K * V)) :
  NoDup (keys pairs) → dict_of pairs = pairs.
Proof. intros Hnd. unfold dict_of. by rewrite foldl_dict_set_id. Qed.

Lemma contains_true k d : k ∈ keys d → contains k d = true.
Proof. intros Hin. unfold contains. by apply bool_decide_eq_true. Qed.

Lemma contains_false k d : k ∉ keys d → contains k d = false.
Proof. intros Hin. unfold contains. by apply bool_decide_eq_false. Qed.
End dict.

Lemma index_app_fresh {A} `{EqDecision A} (x : A) (pre post : list A) :
  x ∉ pre → index x (pre ++ x :: post) = Some (length pre).
Proof.
  induction pre as [|y pre IH]; simpl.
  - intros _. by rewrite decide_True.
  - rewrite not_elem_of_cons. intros [Hne Hnin].
    rewrite decide_False by congruence. by rewrite IH.
Qed.

Lemma slice_from_after {A} (pre : list A) (x : A) (post : list A) :
  slice_from (Z.of_nat (length pre) + 1) (pre ++ x :: post) = post.
Proof.
  unfold slice_from.
  rewrite length_app. simpl.
  replace (Z.of_nat (length pre) + 1 <? 0) with false
    by (symmetry; apply Z.ltb_ge; lia).
  rewrite Z.min_l by lia.
  replace (Z.to_nat (Z.of_nat (length pre) + 1)) with (length (pre ++ [x]))
    by (rewrite length_app; simpl; lia).
  rewrite (cons_middle x pre post), app_assoc.
  apply drop_app_length.
Qed.

(** [l[-1:]] is the last element alone. *)
Lemma slice_from_last {A} (init : list A) (x : A) :
  slice_from (-1) (init ++ [x]) = [x].
Proof.
  unfold slice_from. rewrite length_app. simpl.
  rewrite Z.max_r by lia.
  replace (Z.to_nat (Z.of_nat (length init + 1) + -1)) with (length init) by lia.
  apply drop_app_length.
Qed.

Section sorted.
Context {A : Type} (key : A → Z).

Lemma insert_sorted_perm (x : A) (l : list A) :
  insert_sorted key x l ≡ₚ x :: l.
Proof.
  induction l as [|y l IH]; simpl; [done|].
  destruct (key x <? key y); [done|].
  rewrite IH. apply Permutation_swap.
Qed.

Lemma foldl_insert_sorted_perm (l acc : list A) :
  foldl (λ acc x, insert_sorted key x acc) acc l ≡ₚ acc ++ l.
Proof.
  revert acc. induction l as [|x l IH]; intros acc; simpl.
  - by rewrite app_nil_r.
  - rewrite IH, insert_sorted_perm. simpl. apply Permutation_middle.
Qed.

(** [sorted] rearranges its argument. *)
Lemma sorted_perm (l : list A) : sorted key l ≡ₚ l.
Proof. apply (foldl_insert_sorted_perm l []). Qed.

Lemma elem_of_sorted (x : A) (l : list A) : x ∈ sorted key l ↔ x ∈ l.
Proof. by rewrite sorted_perm. Qed.
End sorted.

Lemma elem_of_iter `{SetOrder} (x : Z) (s : gset Z) : x ∈ iter s ↔ x ∈ s.
Proof. rewrite iter_perm. apply elem_of_elements. Qed.

Lemma list_to_set_iter `{SetOrder} (s : gset Z) :
  list_to_set (iter s) = s.
Proof.
  apply set_eq. intros x. by rewrite elem_of_list_to_set, elem_of_iter.
Qed.

End PyFacts.

(* ===================================================================== *)
(** ** Facts about loops *)
(* ===================================================================== *)

Module ProgFacts.

Section for_each.
Context {S A : Type} (body : A → M S unit).

Lemma for_each_cons (x : A) (l : list A) (s : S) :
  for_each (x :: l) body s =
  match body x s with
  | (Ok _, s') => for_each l body s'
  | (Raise e, s') => (Raise e, s')
  end.
Proof. reflexivity. Qed.

Lemma for_each_app (l1 l2 : list A) (s : S) :
  for_each (l1 ++ l2) body s =
  match for_each l1 body s with
  | (Ok _, s') => for_each l2 body s'
  | (Raise e, s') => (Raise e, s')
  end.
Proof.
  revert s. induction l1 as [|x l1 IH]; intros s; [done|].
  rewrite <- app_comm_cons, !for_each_cons.
  destruct (body x s) as [[[]|e] s']; [apply IH|done].
Qed.

(** A property every pass keeps holds when the loop is left, normally
    or by an exception. *)
Lemma for_each_inv (I : S → Prop) (l : list A) :
  (∀ x s, x ∈ l → I s → I (body x s).2) →
  ∀ s, I s → I (for_each l body s).2.
Proof.
  induction l as [|x l IH]; intros Hbody s Hs; [done|].
  rewrite for_each_cons.
  assert (I (body x s).2) as Hx by (apply Hbody; [left|done]).
  destruct (body x s) as [[[]|e] s']; simpl in *; [|done].
  apply IH; [|done]. intros y t Hy. apply Hbody. by right.
Qed.

(** Passes that change nothing leave the state as it was. *)
Lemma for_each_noop (l : list A) (s : S) :
  (∀ x, x ∈ l → body x s = (Ok tt, s)) → for_each l body s = (Ok tt, s).
Proof.
  induction l as [|x l IH]; intros Hbody; [done|].
  rewrite for_each_cons, Hbody by left.
  apply IH. intros y Hy. apply Hbody. by right.
Qed.

(** What a pass establishes, and later passes keep, holds at the end of
    a loop that was not left by an exception. *)
Lemma for_each_post (Q : A → S → Prop) (l : list A) :
  (∀ x s, x ∈ l → Q x (body x s).2) →
  (∀ x y s, x ∈ l → y ∈ l → Q x s → Q x (body y s).2) →
  ∀ s s', for_each l body s = (Ok tt, s') → ∀ x, x ∈ l → Q x s'.
Proof.
  induction l as [|y l IH]; intros Hest Hkeep s s' Hrun x Hx.
  { by apply elem_of_nil in Hx. }
  rewrite for_each_cons in Hrun.
  pose proof (Hest y s ltac:(left)) as Hy.
  destruct (body y s) as [[[]|e] s1] eqn:Hb; simpl in *; [|done].
  apply elem_of_cons in Hx as [->|Hx].
  - pose proof (for_each_inv (Q y) l) as Hinv.
    specialize (Hinv ltac:(intros z t Hz Ht; apply Hkeep;
                             [left|by right|done]) s1 Hy).
    by rewrite Hrun in Hinv.
  - eapply IH; [| |exact Hrun|exact Hx].
    + intros z t Hz. apply Hest. by right.
    + intros z1 z2 t Hz1 Hz2. apply Hkeep; by right.
Qed.
End for_each.

(** A property every pass keeps holds when [while_true] is left. *)
Lemma while_true_inv {S R} (I : S → Prop) (loop : bool)
    (body : R → M S unit) (envs : list R) :
  (∀ env s, env ∈ envs → I s → I (body env s).2) →
  ∀ s, I s → I (while_true loop body envs s).2.
Proof.
  induction envs as [|env envs IH]; intros Hbody s Hs; [done|].
  simpl. unfold bind.
  assert (I (body env s).2) as Hx by (apply Hbody; [left|done]).
  destruct (body env s) as [[[]|e] s']; simpl in *; [|done].
  destruct loop; [|done].
  apply IH; [|done]. intros y t Hy. apply Hbody. by right.
Qed.

End ProgFacts.

(* ===================================================================== *)
(** ** The addition tracker: properties *)
(* ===================================================================== *)

Module AdditionsFacts.
Import Py PyFacts ProgFacts Additions.

(** The four ways through the loop body. *)
Lemma additions_item_eq (hide : bool) (env : remote) (m : mod_info) (s : state) :
  additions_item hide env m s =
  if decide (mod_id m ∈ seen_mods s) then (Ok tt, s)
  else if negb (available m) then (Ok tt, s)
  else if hide && contains_adult_content m then (Ok tt, marked m s)
  else (match telegram env (message_text m) with
        | Some e => Raise e
        | None => Ok tt
        end, notified m s).
Proof.
  unfold additions_item, bind, get. simpl.
  destruct (decide (mod_id m ∈ seen_mods s)); [done|].
  destruct (available m); simpl; [|done].
  destruct (hide && contains_adult_content m); [done|].
  unfold send_telegram_message, bind. simpl.
  by destruct (telegram env (message_text m)).
Qed.

Lemma additions_item_skip hide env m s :
  mod_id m ∈ seen_mods s ∨ available m = false →
  additions_item hide env m s = (Ok tt, s).
Proof.
  intros Hskip. rewrite additions_item_eq.
  destruct (decide (mod_id m ∈ seen_mods s)); [done|].
  destruct Hskip as [? | ->]; done.
Qed.

(** The seen-set only grows. *)
Lemma additions_item_mono hide env m s :
  seen_mods s ⊆ seen_mods (additions_item hide env m s).2.
Proof.
  rewrite additions_item_eq.
  repeat (case_match; simpl); set_solver.
Qed.

(** An available item is in the seen-set once its pass is over. *)
Lemma additions_item_marks hide env m s :
  available m = true → mod_id m ∈ seen_mods (additions_item hide env m s).2.
Proof.
  intros Hav. rewrite additions_item_eq, Hav.
  repeat (case_match; simpl); set_solver.
Qed.

(** A pass adds no identifier but its own. *)
Lemma additions_item_seen hide env m s (id : Z) :
  id ∈ seen_mods (additions_item hide env m s).2 →
  id ∈ seen_mods s ∨ (id = mod_id m ∧ available m = true).
Proof.
  rewrite additions_item_eq.
  destruct (decide (mod_id m ∈ seen_mods s)); simpl; [by left|].
  destruct (available m); simpl; [|by left].
  destruct (hide && contains_adult_content m); simpl;
    rewrite elem_of_union, elem_of_singleton; intros [->|?]; auto.
Qed.

(** A pass leaves the state file alone, and performs at most one action: a
    notification for its own item, which was unseen, available and not
    filtered out. *)
Lemma additions_item_emits hide env m s :
  state_file (additions_item hide env m s).2 = state_file s ∧
  (emitted s (additions_item hide env m s).2 [] ∨
   (emitted s (additions_item hide env m s).2
      [EvNotifyAddition m (message_text m)] ∧
    (mod_id m ∉ seen_mods s) ∧ available m = true ∧
    (hide && contains_adult_content m) = false)).
Proof.
  rewrite additions_item_eq. unfold emitted.
  destruct (decide (mod_id m ∈ seen_mods s)); simpl.
  { split; [done|left; by rewrite app_nil_r]. }
  destruct (available m); simpl.
  2:{ split; [done|left; by rewrite app_nil_r]. }
  destruct (hide && contains_adult_content m); simpl.
  { split; [done|left; by rewrite app_nil_r]. }
  split; [done|by right].
Qed.

Section with_order.
Context `{SetOrder}.

Lemma additions_cycle_eq hide env s :
  additions_cycle hide env s =
  match latest_added env with
  | Raise e => (Raise e, fetching s)
  | Ok mods =>
      match for_each (sorted mod_id mods) (additions_item hide env)
              (fetching s) with
      | (Ok _, s') => (Ok tt, finish s')
      | (Raise e, s') => (Raise e, s')
      end
  end.
Proof.
  unfold additions_cycle, fetch_latest_mods, bind, lift, log. simpl.
  fold (fetching s).
  destruct (latest_added env) as [mods|e]; [|done].
  destruct (for_each _ _ _) as [[[]|e] s']; [|done].
  unfold get, finish, save_state, set_new_mods_data, modify, ret.
  destruct (new_mods_data s') as [|r rows] eqn:Hrows; simpl.
  - by rewrite app_nil_r, Hrows.
  - done.
Qed.

(** Once a pass is over, every available mod of its snapshot is in the
    seen-set. *)
Lemma for_each_marks hide env (mods : list mod_info) s s' :
  for_each mods (additions_item hide env) s = (Ok tt, s') →
  ∀ m, m ∈ mods → available m = true → mod_id m ∈ seen_mods s'.
Proof.
  intros Hrun m Hm.
  apply (for_each_post (additions_item hide env)
           (λ m s, available m = true → mod_id m ∈ seen_mods s)
           mods) with (s := s); try done.
  - intros x t _. apply additions_item_marks.
  - intros x y t _ _ Hx Hav.
    apply (additions_item_mono hide env y t). auto.
Qed.

(** A pass over a snapshot whose available mods are all seen does
    nothing but fetch and save. *)
Lemma additions_cycle_quiet hide env mods s :
  latest_added env = Ok mods →
  (∀ m, m ∈ mods → available m = true → mod_id m ∈ seen_mods s) →
  additions_cycle hide env s = (Ok tt, finish (fetching s)).
Proof.
  intros Henv Hseen. rewrite additions_cycle_eq, Henv.
  rewrite for_each_noop; [done|].
  intros m Hm%elem_of_sorted. apply additions_item_skip.
  destruct (available m) eqn:Hav; [left|by right].
  by apply Hseen.
Qed.

Lemma additions_eq hide loop envs s :
  additions hide loop envs s =
  while_true loop (additions_cycle hide) envs (reload s).
Proof. reflexivity. Qed.

Lemma while_true_once {S} (body : remote → M S unit) env (s : S) :
  while_true false body [env] s = body env s.
Proof. simpl. unfold bind. by destruct (body env s) as [[[]|e] s']. Qed.

(** Right after a completed pass the state file holds the seen-set. *)
Lemma reload_finish s : reload (finish s) = finish s.
Proof. unfold reload, finish. simpl. by rewrite list_to_set_iter. Qed.

(** C4 (idempotence).  After a completed pass, a second pass on the same
    remote snapshot, with either setting of the adult-content flag,
    sends no notification: its only action is the fetch, and the
    seen-set and the state file stay as the first pass left them.  The
    same holds when the second pass is a new launch that reloads the
    seen-set from the state file. *)
Theorem additions_second_pass_silent hide hide' env s s1 :
  additions_cycle hide env s = (Ok tt, s1) →
  (∃ s2, additions_cycle hide' env s1 = (Ok tt, s2) ∧
         emitted s1 s2 [EvFetchLatest] ∧
         seen_mods s2 = seen_mods s1 ∧ state_file s2 = state_file s1) ∧
  (∃ s2, additions hide' false [env] s1 = (Ok tt, s2) ∧
         emitted s1 s2 [EvFetchLatest] ∧
         seen_mods s2 = seen_mods s1 ∧ state_file s2 = state_file s1).
Proof.
  intros Hfirst. rewrite additions_cycle_eq in Hfirst.
  destruct (latest_added env) as [mods|e] eqn:Henv; [|done].
  destruct (for_each _ _ _) as [[[]|e] s'] eqn:Hrun; [|done].
  injection Hfirst as <-.
  assert (∀ m, m ∈ mods → available m = true →
               mod_id m ∈ seen_mods (finish s')) as Hseen.
  { intros m Hm Hav. simpl.
    eapply for_each_marks; [exact Hrun| |done]. by apply elem_of_sorted. }
  pose proof (additions_cycle_quiet hide' env mods _ Henv Hseen) as Hsecond.
  split.
  - eexists. split; [exact Hsecond|].
    unfold emitted. simpl. by rewrite app_nil_r.
  - rewrite additions_eq, while_true_once, reload_finish.
    eexists. split; [exact Hsecond|].
    unfold emitted. simpl. by rewrite app_nil_r.
Qed.

Lemma since_refl s P : since s P s.
Proof. exists []. split; [unfold emitted; by rewrite app_nil_r|done]. Qed.

Lemma since_emitted s0 P s s' evs :
  since s0 P s → emitted s s' evs → Forall P evs → since s0 P s'.
Proof.
  intros (evs0 & Hevs0 & HP0) Hevs HP. exists (evs0 ++ evs).
  unfold emitted in *. split; [by rewrite Hevs, Hevs0, app_assoc|].
  by apply Forall_app.
Qed.

Lemma emitted_finish s :
  emitted s (finish s) match new_mods_data s with
                       | [] => []
                       | rows => [EvTableAdditions rows]
                       end.
Proof. reflexivity. Qed.

Lemma since_fetching s0 (P : event → Prop) s :
  P EvFetchLatest → since s0 P s → since s0 P (fetching s).
Proof.
  intros HP Hs. eapply since_emitted; [exact Hs|reflexivity|].
  by apply Forall_singleton.
Qed.

Lemma since_finish s0 (P : event → Prop) s :
  (∀ rows, P (EvTableAdditions rows)) → since s0 P s → since s0 P (finish s).
Proof.
  intros HP Hs. eapply since_emitted; [exact Hs|apply emitted_finish|].
  destruct (new_mods_data s); [done|]. by apply Forall_singleton.
Qed.

(** A property kept by the opening fetch, by every item of the snapshot
    and by the closing save is kept by a pass, however the pass ends. *)
Lemma additions_cycle_inv hide env (I : state → Prop) :
  (∀ s, I s → I (fetching s)) →
  (∀ mods m s, latest_added env = Ok mods → m ∈ mods → I s →
               I (additions_item hide env m s).2) →
  (∀ s, I s → I (finish s)) →
  ∀ s, I s → I (additions_cycle hide env s).2.
Proof.
  intros Hfetch Hitem Hfinish s Hs. rewrite additions_cycle_eq.
  destruct (latest_added env) as [mods|e] eqn:Henv; [|by apply Hfetch].
  pose proof (for_each_inv (additions_item hide env) I (sorted mod_id mods))
    as Hloop.
  specialize (Hloop ltac:(intros m t Hm%elem_of_sorted;
                            by apply (Hitem mods))
                    (fetching s) (Hfetch s Hs)).
  destruct (for_each _ _ _) as [[[]|e] s']; simpl in *; [|done].
  by apply Hfinish.
Qed.

Lemma settled_item id s0 hide env m s :
  settled id s0 s → settled id s0 (additions_item hide env m s).2.
Proof.
  intros (Hseen & Hfile & Hquiet).
  destruct (additions_item_emits hide env m s) as [Hf Hevs].
  split_and!.
  - by apply additions_item_mono.
  - by rewrite Hf.
  - destruct Hevs as [Hevs|(Hevs & Hnew & _)].
    + eapply since_emitted; [exact Hquiet|exact Hevs|done].
    + eapply since_emitted; [exact Hquiet|exact Hevs|].
      apply Forall_singleton. intros m' text [= <- _]. congruence.
Qed.

Lemma settled_cycle id s0 hide env s :
  settled id s0 s → settled id s0 (additions_cycle hide env s).2.
Proof.
  apply additions_cycle_inv.
  - intros t (Hseen & Hfile & Hquiet). split_and!; [done..|].
    by apply since_fetching.
  - intros mods m t _ _. apply settled_item.
  - intros t (Hseen & Hfile & Hquiet). split_and!; [done| |].
    + exists (iter (seen_mods t)). split; [done|]. by apply elem_of_iter.
    + by apply since_finish.
Qed.

Lemma settled_reload id s0 s : settled id s0 s → settled id s0 (reload s).
Proof.
  intros (Hseen & (l & Hl & Hid) & Hquiet). split_and!.
  - simpl. rewrite Hl. simpl. by apply elem_of_list_to_set.
  - by exists l.
  - done.
Qed.

Lemma settled_launches id s0 (ls : list launch) s :
  settled id s0 s → settled id s0 (run_launches ls s).
Proof.
  revert s. induction ls as [|l ls IH]; intros s Hs; [done|].
  simpl. apply IH. unfold run_launch. rewrite additions_eq.
  apply while_true_inv; [|by apply settled_reload].
  intros env t _. apply settled_cycle.
Qed.

Lemma since_elim s0 (P : event → Prop) s :
  since s0 P s → ∃ evs, emitted s0 s evs ∧ ∀ ev, ev ∈ evs → P ev.
Proof.
  intros (evs & Hevs & HP). exists evs. split; [done|].
  by apply Forall_forall.
Qed.

(** C5 (adult-content interaction).  In a completed pass with the
    filter active, an available, adult-flagged mod of the snapshot that
    was not yet seen is in the seen-set afterwards and no notification
    was sent for it; and whatever follows -- further passes [rest] of
    the same launch, then any launches [later], with the filter on or
    off -- no notification is ever sent for its identifier. *)
Theorem adult_mod_marked_never_notified env mods m s s1
    (rest : list remote) (later : list launch) :
  latest_added env = Ok mods →
  m ∈ mods →
  available m = true →
  contains_adult_content m = true →
  mod_id m ∉ seen_mods s →
  additions_cycle true env s = (Ok tt, s1) →
  mod_id m ∈ seen_mods s1 ∧
  (∃ evs, emitted s s1 evs ∧ ∀ text, EvNotifyAddition m text ∉ evs) ∧
  (∃ evs,
     emitted s1
       (run_launches later
          (while_true true (additions_cycle true) rest s1).2) evs ∧
     ∀ m' text, EvNotifyAddition m' text ∈ evs → mod_id m' ≠ mod_id m).
Proof.
  intros Henv Hm Hav Hadult _ Hrun.
  (* the pass itself *)
  pose proof (additions_cycle_inv true env (since s quiet_about_adult))
    as Hquiet.
  specialize (Hquiet ltac:(intros t; by apply since_fetching)).
  specialize (Hquiet ltac:(
    intros l x t _ _ Ht;
    destruct (additions_item_emits true env x t) as [_ [He|(He & _ & _ & Hf)]];
    [ eapply since_emitted; [exact Ht|exact He|done]
    | eapply since_emitted; [exact Ht|exact He|];
      apply Forall_singleton; intros x' text [= <- _]; exact Hf ])).
  specialize (Hquiet ltac:(intros t; by apply since_finish)
                     s (since_refl s _)).
  rewrite Hrun in Hquiet. simpl in Hquiet.
  rewrite additions_cycle_eq, Henv in Hrun.
  destruct (for_each _ _ _) as [[[]|e] s'] eqn:Hloop; [|done].
  injection Hrun as <-.
  assert (mod_id m ∈ seen_mods s') as Hseen.
  { eapply for_each_marks; [exact Hloop| |done]. by apply elem_of_sorted. }
  split_and!.
  - done.
  - apply since_elim in Hquiet as (evs & Hevs & HP).
    exists evs. split; [done|]. intros text Hin.
    specialize (HP _ Hin m text eq_refl). congruence.
  - assert (settled (mod_id m) (finish s') (finish s')) as Hsettled.
    { split_and!; [done| |apply since_refl].
      exists (iter (seen_mods s')). split; [done|]. by apply elem_of_iter. }
    assert (settled (mod_id m) (finish s')
              (while_true true (additions_cycle true) rest (finish s')).2)
      as Hrest.
    { apply while_true_inv; [|done]. intros env' t _. apply settled_cycle. }
    apply (settled_launches _ _ later) in Hrest as (_ & _ & Hlater).
    apply since_elim in Hlater as (evs & Hevs & HP).
    exists evs. split; [done|]. intros m' text Hin.
    exact (HP _ Hin m' text eq_refl).
Qed.

Lemma NoDup_ids_eq (mods : list mod_info) (m m' : mod_info) :
  NoDup (mod_id <$> mods) → m ∈ mods → m' ∈ mods →
  mod_id m' = mod_id m → m' = m.
Proof.
  induction mods as [|x mods IH]; csimpl; intros Hnd Hm Hm' Hid.
  { by apply elem_of_nil in Hm. }
  apply NoDup_cons in Hnd as [Hx Hnd].
  apply elem_of_cons in Hm as [->|Hm]; apply elem_of_cons in Hm' as [->|Hm'].
  - done.
  - destruct Hx. rewrite <- Hid. by apply list_elem_of_fmap_2.
  - destruct Hx. rewrite Hid. by apply list_elem_of_fmap_2.
  - by apply IH.
Qed.

(** An item keeps [pending id] unless it is an available mod with that
    identifier. *)
Lemma pending_item id s0 hide env m s :
  (mod_id m = id → available m = false) →
  pending id s0 s → pending id s0 (additions_item hide env m s).2.
Proof.
  intros Hm [Hunseen Hquiet]. split.
  - intros [?|[-> Hav]]%additions_item_seen; [done|].
    rewrite Hm in Hav; done.
  - destruct (additions_item_emits hide env m s)
      as [_ [He|(He & _ & Hav & _)]].
    + eapply since_emitted; [exact Hquiet|exact He|done].
    + eapply since_emitted; [exact Hquiet|exact He|].
      apply Forall_singleton. intros m' text [= <- _] Hid.
      rewrite Hm in Hav; done.
Qed.

Lemma emitted_item s0 hide env m s :
  (∃ evs, emitted s0 s evs) →
  ∃ evs, emitted s0 (additions_item hide env m s).2 evs.
Proof.
  intros (evs & Hevs).
  destruct (additions_item_emits hide env m s) as [_ [He|[He _]]];
    unfold emitted in *; rewrite He, Hevs, <- app_assoc; by eexists.
Qed.

(** Passes never undo an action. *)
Lemma emitted_item_in ev s0 hide env m s :
  (∃ evs, emitted s0 s evs ∧ ev ∈ evs) →
  ∃ evs, emitted s0 (additions_item hide env m s).2 evs ∧ ev ∈ evs.
Proof.
  intros (evs & Hevs & Hin).
  destruct (additions_item_emits hide env m s) as [_ [He|[He _]]];
    unfold emitted in *; rewrite He, Hevs, <- app_assoc;
    eexists; (split; [done|]); apply elem_of_app; by left.
Qed.

(** C6 (unavailable-mod retry).  In a pass over a snapshot listing each
    identifier once, a mod that is unavailable and unseen stays out of
    the seen-set and no notification is sent for it, however the pass
    ends.  It is looked at again by the next pass: if a later snapshot
    lists it as available and it passes the filter, a completed pass
    over that snapshot sends its notification and marks it seen. *)
Theorem unavailable_mod_retried hide env mods m s r s1 :
  latest_added env = Ok mods →
  NoDup (mod_id <$> mods) →
  m ∈ mods →
  available m = false →
  mod_id m ∉ seen_mods s →
  additions_cycle hide env s = (r, s1) →
  (mod_id m ∉ seen_mods s1) ∧
  (∃ evs, emitted s s1 evs ∧
          ∀ m' text, EvNotifyAddition m' text ∈ evs → mod_id m' ≠ mod_id m) ∧
  (∀ hide' env' mods' m' s2,
     latest_added env' = Ok mods' →
     NoDup (mod_id <$> mods') →
     m' ∈ mods' →
     mod_id m' = mod_id m →
     available m' = true →
     (hide' && contains_adult_content m') = false →
     additions_cycle hide' env' s1 = (Ok tt, s2) →
     mod_id m ∈ seen_mods s2 ∧
     ∃ evs, emitted s1 s2 evs ∧
            EvNotifyAddition m' (message_text m') ∈ evs).
Proof.
  intros Henv Hnd Hm Hunav Hunseen Hrun.
  assert (pending (mod_id m) s s1) as [Hunseen1 Hquiet].
  { replace s1 with (additions_cycle hide env s).2 by (by rewrite Hrun).
    apply additions_cycle_inv.
    - intros t [? ?]. split; [done|]. by apply since_fetching.
    - intros l x t Hl Hx. apply pending_item. intros Hid.
      rewrite Henv in Hl. injection Hl as <-.
      by rewrite (NoDup_ids_eq mods m x Hnd Hm Hx Hid).
    - intros t [? ?]. split; [done|]. by apply since_finish.
    - split; [done|apply since_refl]. }
  split_and!; [done| |].
  { apply since_elim in Hquiet as (evs & Hevs & HP).
    exists evs. split; [done|]. intros m' text Hin.
    exact (HP _ Hin m' text eq_refl). }
  clear dependent s. clear dependent mods. clear r env hide.
  intros hide env mods m' s2 Henv Hnd Hm' Hid Hav Hpass Hrun.
  rewrite additions_cycle_eq, Henv in Hrun.
  destruct (for_each _ _ _) as [[[]|e] s'] eqn:Hloop; [|done].
  injection Hrun as <-.
  assert (NoDup (mod_id <$> sorted mod_id mods)) as Hnd'
    by (by rewrite sorted_perm).
  apply (elem_of_sorted mod_id) in Hm'.
  destruct (list_elem_of_split _ _ Hm') as (l1 & l2 & Hsplit).
  rewrite Hsplit, for_each_app in Hloop.
  (* the items before [m'] leave the identifier unseen *)
  pose proof (for_each_inv (additions_item hide env)
                (λ t, (mod_id m ∉ seen_mods t) ∧ ∃ evs, emitted s1 t evs) l1)
    as Hbefore.
  specialize (Hbefore ltac:(
    intros x t Hx [Ht He]; split; [|by apply emitted_item];
    intros [?|[Hidx _]]%additions_item_seen; [done|];
    rewrite Hsplit, fmap_app in Hnd';
    apply NoDup_app in Hnd' as (_ & Hdisj & _);
    apply (Hdisj (mod_id x)); [by apply list_elem_of_fmap_2|];
    csimpl; rewrite Hid, Hidx; left) (fetching s1)).
  destruct Hbefore as [Hunseen' [evs1 Hevs1]].
  { split; [done|]. by exists [EvFetchLatest]. }
  destruct (for_each l1 _ _) as [[[]|e] t1];
    cbv beta iota in Hloop; simpl in Hunseen', Hevs1; [|done].
  rewrite for_each_cons, additions_item_eq in Hloop.
  rewrite Hid in Hloop.
  destruct (decide (mod_id m ∈ seen_mods t1)); [done|].
  rewrite Hav, Hpass in Hloop. simpl in Hloop.
  destruct (telegram env (message_text m')); [done|].
  (* the items after [m'] add to what was done *)
  pose proof (for_each_inv (additions_item hide env)
                (λ t, mod_id m ∈ seen_mods t ∧
                      ∃ evs, emitted s1 t evs ∧
                             EvNotifyAddition m' (message_text m') ∈ evs)
                l2) as Hafter.
  specialize (Hafter ltac:(
    intros x t _ [Hs He]; split;
    [by apply additions_item_mono|by apply emitted_item_in])
    (notified m' t1)).
  rewrite Hloop in Hafter. simpl in Hafter.
  destruct Hafter as (Hseen & evs & Hevs & Hin).
  { split; [rewrite Hid; set_solver|].
    exists (evs1 ++ [EvNotifyAddition m' (message_text m')]). split.
    - unfold emitted in *. simpl. by rewrite Hevs1, app_assoc.
    - apply elem_of_app. right. by apply list_elem_of_singleton. }
  split; [done|].
  eexists. split.
  - unfold emitted in *. simpl. rewrite Hevs, <- app_assoc. reflexivity.
  - apply elem_of_app. by left.
Qed.
End with_order.

End AdditionsFacts.

Module AdditionsWitnesses.
Import Py Additions AdditionsFacts Examples.
#[local] Existing Instance ascending.

Lemma additions_second_pass_silent_witness :
  (∃ s2, additions_cycle false snapshot after_first_pass = (Ok tt, s2) ∧
         emitted after_first_pass s2 [EvFetchLatest] ∧
         seen_mods s2 = seen_mods after_first_pass ∧
         state_file s2 = state_file after_first_pass) ∧
  (∃ s2, additions false false [snapshot] after_first_pass = (Ok tt, s2) ∧
         emitted after_first_pass s2 [EvFetchLatest] ∧
         seen_mods s2 = seen_mods after_first_pass ∧
         state_file s2 = state_file after_first_pass).
Proof.
  apply (additions_second_pass_silent true false snapshot fresh).
  vm_compute. reflexivity.
Defined.

Lemma adult_mod_marked_never_notified_witness :
  12 ∈ seen_mods after_first_pass ∧
  (∃ evs, emitted fresh after_first_pass evs ∧
          ∀ text, EvNotifyAddition boudoir text ∉ evs) ∧
  (∃ evs,
     emitted after_first_pass
       (run_launches
          [ {| l_hide_adult_content := false; l_loop := false;
               l_envs := [snapshot_later] |} ]
          (while_true true (additions_cycle true) [snapshot]
             after_first_pass).2) evs ∧
     ∀ m' text, EvNotifyAddition m' text ∈ evs → mod_id m' ≠ 12).
Proof.
  apply (adult_mod_marked_never_notified snapshot
           [roads; boudoir; lanterns] boudoir fresh).
  - reflexivity.
  - right. left.
  - reflexivity.
  - reflexivity.
  - apply not_elem_of_empty.
  - vm_compute. reflexivity.
Defined.

Lemma unavailable_mod_retried_witness :
  (13 ∉ seen_mods after_first_pass) ∧
  13 ∈ seen_mods (additions_cycle false snapshot_later after_first_pass).2 ∧
  ∃ evs,
    emitted after_first_pass
      (additions_cycle false snapshot_later after_first_pass).2 evs ∧
    EvNotifyAddition roads_released (message_text roads_released) ∈ evs.
Proof.
  destruct (unavailable_mod_retried true snapshot
              [roads; boudoir; lanterns] roads fresh (Ok tt)
              after_first_pass) as (Hout & _ & Hnext).
  - reflexivity.
  - by_compute.
  - left.
  - reflexivity.
  - apply not_elem_of_empty.
  - vm_compute. reflexivity.
  - split; [exact Hout|].
    apply (Hnext false snapshot_later
             [roads_released; boudoir; lanterns] roads_released).
    + reflexivity.
    + by_compute.
    + left.
    + reflexivity.
    + reflexivity.
    + reflexivity.
    + vm_compute. reflexivity.
Defined.

End AdditionsWitnesses.

(* ===================================================================== *)
(** ** The update tracker: properties *)
(* ===================================================================== *)

Module UpdatesFacts.
Import Py PyFacts ProgFacts Updates.

(** *** The state file *)

Lemma foldl_insert_fresh {V} (l : list (Z * V)) (acc : gmap Z V) :
  NoDup l.*1 →
  (∀ k, k ∈ l.*1 → acc !! k = None) →
  foldl (λ m kv, <[kv.1 := kv.2]> m) acc l = list_to_map l ∪ acc.
Proof.
  revert acc. induction l as [|[k v] l IH]; csimpl; intros acc Hnd Hfresh.
  { by rewrite (left_id_L ∅ (∪)). }
  apply NoDup_cons in Hnd as [Hk Hnd].
  rewrite IH; [|done|].
  - rewrite <- insert_union_l. symmetry. apply insert_union_r.
    by apply not_elem_of_list_to_map_1.
  - intros k' Hk'. rewrite lookup_insert_ne by (intros ->; done).
    apply Hfresh. by right.
Qed.

Lemma cache_of_items_dump (l : list (Z * cache_entry)) (acc : gmap Z cache_entry) :
  cache_of_items ((λ kv, (str_of_int kv.1, kv.2)) <$> l) acc =
  Ok (foldl (λ m kv, <[kv.1 := kv.2]> m) acc l).
Proof.
  revert acc. induction l as [|[k v] l IH]; intros acc; csimpl; [done|].
  by rewrite int_of_str_of_int, IH.
Qed.

Lemma load_dumped (c : gmap Z cache_entry) :
  load_cache (Some ((λ kv, (str_of_int kv.1, kv.2)) <$> map_to_list c)) = Ok c.
Proof.
  unfold load_cache. simpl. rewrite cache_of_items_dump. f_equal.
  rewrite foldl_insert_fresh.
  - by rewrite (right_id_L ∅ (∪)), list_to_map_to_list.
  - apply NoDup_fst_map_to_list.
  - intros k _. apply lookup_empty.
Qed.

(** C9 (round trip).  [save_state] writes a file that holds, under the
    decimal string of its identifier and under no other key, every entry of
    the cache with its three fields, and changes nothing else.  A launch of
    [updates] on that file, with any flags and from any locals, reads its
    string keys back as the integers they were written from: it goes on to
    the initial-population test with exactly the cache that was saved: same
    identifiers, same entries. *)
Theorem cache_round_trip `{SetOrder} s hide loop game boot envs :
  ∃ items,
    save_state s
    = (Ok tt, {| local_cache := local_cache s;
                 mods_with_new_version := mods_with_new_version s;
                 cache_file := Some items;
                 trace := trace s |}) ∧
    NoDup items.*1 ∧
    (∀ k entry,
       (k, entry) ∈ items ↔
       ∃ id, k = str_of_int id ∧ local_cache s !! id = Some entry) ∧
    ∀ t, cache_file t = Some items →
         load_cache (cache_file t) = Ok (local_cache s) ∧
         updates hide loop game boot envs t
         = (bootstrap game boot ;;
            while_true loop (updates_cycle hide game) envs)%prog
             {| local_cache := local_cache s;
                mods_with_new_version := [];
                cache_file := Some items;
                trace := trace t |}.
Proof.
  exists ((λ kv, (str_of_int kv.1, kv.2)) <$> map_to_list (local_cache s)).
  split_and!.
  - reflexivity.
  - assert (∀ l : list (Z * cache_entry),
              ((λ kv, (str_of_int kv.1, kv.2)) <$> l).*1
              = str_of_int <$> l.*1) as ->.
    { induction l as [|[k e] l IH]; csimpl; [done|]. by rewrite IH. }
    apply NoDup_fmap_2; [|apply NoDup_fst_map_to_list].
    intros n m. apply str_of_int_inj.
  - intros k entry. rewrite list_elem_of_fmap. split.
    + intros ([id e] & [= -> ->] & Hin%elem_of_map_to_list). by exists id.
    + intros (id & -> & Hin). exists (id, entry).
      split; [done|]. by apply elem_of_map_to_list.
  - intros t Ht. rewrite Ht. split; [apply load_dumped|].
    unfold updates, bind, get, lift, modify. simpl.
    by rewrite Ht, load_dumped.
Qed.

(** *** One tracked identifier *)

Lemma emitted_refl s : emitted s s [].
Proof. unfold emitted. by rewrite app_nil_r. Qed.

(** Nothing to do: the cached timestamp is the remote one, or the remote
    has none. *)
Lemma updates_item_unchanged env (updated_mod_data : gmap Z Z) id s entry :
  local_cache s !! id = Some entry →
  (updated_mod_data !! id = None ∨
   updated_mod_data !! id = ce_latest_file_update entry) →
  updates_item env updated_mod_data id s = (Ok tt, s).
Proof.
  intros Hentry Hsame. unfold updates_item, bind, get. simpl.
  rewrite Hentry. simpl.
  destruct Hsame as [-> | ->]; [done|].
  rewrite bool_decide_eq_false_2 by (intros Hne; by apply Hne).
  by rewrite andb_false_r.
Qed.

(** Whatever the item does, it does to its own identifier: the other
    cache entries and the state file stay, the actions concern [id], and
    so do the rows. *)
Lemma updates_item_frame env (updated_mod_data : gmap Z Z) id s :
  cache_file (updates_item env updated_mod_data id s).2 = cache_file s ∧
  (∀ k, k ≠ id →
        local_cache (updates_item env updated_mod_data id s).2 !! k
        = local_cache s !! k) ∧
  (∃ evs, emitted s (updates_item env updated_mod_data id s).2 evs ∧
          Forall (concerns id) evs) ∧
  (∃ rows,
     mods_with_new_version (updates_item env updated_mod_data id s).2
     = mods_with_new_version s ++ rows ∧
     Forall (λ r, ur_ID r = id) rows).
Proof.
  assert (∀ versions f, Forall (λ r, ur_ID r = id)
                          (row_of id f.1 f.2.1 f.2.2 <$> versions)) as Hrows.
  { intros versions f. apply Forall_fmap, Forall_true. done. }
  unfold updates_item, bind, get, fetch_mod, fetch_mod_changelogs, name_of,
    send_telegram_message, set_local_cache, set_rows, log, modify, lift,
    ret, raise, bind, emitted, concerns.
  simpl.
  repeat (case_match; simplify_eq/=);
    (split_and!;
     [ done
     | intros k Hk; by rewrite ?lookup_insert_ne
     | eexists; split;
       [ rewrite <- ?app_assoc; simpl; try reflexivity;
         symmetry; apply app_nil_r
       | repeat first [ apply Forall_nil_2
                      | apply Forall_cons_2; [naive_solver|] ] ]
     | eexists; split;
       [ try reflexivity; symmetry; apply app_nil_r
       | first [ done | apply (Hrows _ (_, (_, _))) ] ] ]).
Qed.

Lemma truthy_str_true (v : string) : v ≠ "" → truthy_str v = true.
Proof. by destruct v. Qed.

(** A confirmed version change: the timestamp moved and the fetched
    version differs from the cached one, both non-empty.  The details
    carry a name and the message goes through. *)
Lemma updates_item_confirmed env (updated_mod_data : gmap Z Z) id s
    entry latest d nm raw :
  local_cache s !! id = Some entry →
  updated_mod_data !! id = Some latest →
  latest ≠ 0 →
  ce_latest_file_update entry ≠ Some latest →
  mod_details env id = Ok d →
  ce_version entry ≠ "" → version d ≠ "" → ce_version entry ≠ version d →
  changelogs env id = Ok raw →
  name d = Some nm →
  telegram env
    (message_text nm (author d) (domain_name d) id (ce_version entry)
       (version d) (new_versions (dict_of raw) (ce_version entry))) = None →
  updates_item env updated_mod_data id s =
  (Ok tt, reported id d nm entry (Some latest)
            (new_versions (dict_of raw) (ce_version entry)) s).
Proof.
  intros Hentry Hnew Hnz Hmoved Hd Hold Hver Hdiff Hraw Hnm Hsend.
  unfold updates_item, bind, get. simpl.
  rewrite Hentry, Hnew. simpl.
  rewrite (proj2 (Z.eqb_neq latest 0)) by done.
  rewrite bool_decide_eq_true_2 by done. simpl.
  unfold fetch_mod, bind, log, modify, lift. simpl. rewrite Hd.
  rewrite !truthy_str_true by done.
  rewrite bool_decide_eq_true_2 by done. simpl.
  unfold fetch_mod_changelogs, bind, log, modify, lift, ret. simpl.
  rewrite Hraw. unfold name_of. rewrite Hnm. simpl.
  unfold send_telegram_message, bind, log, modify. simpl. rewrite Hsend.
  unfold reported. simpl. by rewrite <- !app_assoc.
Qed.

(** *** Which changelog entries are new *)

Lemma new_versions_found (changelogs pre post : list (string * list string))
    old_version notes :
  NoDup (keys changelogs) →
  changelogs = pre ++ (old_version, notes) :: post →
  new_versions changelogs old_version = post.
Proof.
  intros Hnd ->. unfold new_versions, last_version_index.
  unfold keys in *. rewrite fmap_app in Hnd. csimpl in Hnd.
  apply NoDup_app in Hnd as (_ & Hdisj & [Hpost Hnd]%NoDup_cons).
  rewrite contains_true.
  2:{ unfold keys. rewrite fmap_app. csimpl.
      apply elem_of_app. right. left. }
  unfold keys. rewrite fmap_app. csimpl.
  rewrite index_app_fresh.
  2:{ intros Hin. apply (Hdisj _ Hin). left. }
  rewrite length_fmap, slice_from_after. by apply dict_of_id.
Qed.

Lemma new_versions_missing (changelogs init : list (string * list string))
    old_version last :
  old_version ∉ keys changelogs →
  changelogs = init ++ [last] →
  new_versions changelogs old_version = [last].
Proof.
  intros Hmissing ->. unfold new_versions, last_version_index.
  rewrite contains_false by done. simpl.
  rewrite slice_from_last. by destruct last.
Qed.

(** The message of a confirmed change, written out. *)
Lemma message_text_spelled nm author domain id old_version new_version
    (versions : list (string * list string)) :
  message_text nm author domain id old_version new_version versions
  = "<b>" +:+ nm +:+ "</b>" +:+ nl
    +:+ author +:+ " - Version " +:+ old_version
    +:+ " -> " +:+ new_version +:+ nl
    +:+ "Link: https://nexusmods.com/" +:+ domain
    +:+ "/mods/" +:+ str_of_int id +:+ nl
    +:+ "Changelog:" +:+ nl
    +:+ join nl
          ((λ e, "<b>" +:+ e.1 +:+ "</b>" +:+ nl
                 +:+ "- " +:+ join (nl +:+ "- ") e.2) <$> versions).
Proof.
  unfold message_text, mod_link, changelog_text.
  by rewrite !append_assoc.
Qed.

(** C3 (version-change detection).  On a confirmed version change whose
    cached version is a key of the fetched changelog, the entries strictly
    after that key, in the changelog's order, are what is reported.  One
    message is sent: its header names the mod, the author, the two versions
    and the link, and its changelog part lists those entries in order, each
    as its version in bold followed by its notes, one per line.  One row
    per entry is added to the report, and the cache entry takes the fetched
    version, adult flag and timestamp.  [text] is the message, written out
    in full. *)
Theorem confirmed_change_reports_entries_after_old env
    (updated_mod_data : gmap Z Z) id s entry latest d nm raw pre notes post
    text :
  local_cache s !! id = Some entry →
  updated_mod_data !! id = Some latest →
  latest ≠ 0 →
  ce_latest_file_update entry ≠ Some latest →
  mod_details env id = Ok d →
  ce_version entry ≠ "" → version d ≠ "" → ce_version entry ≠ version d →
  changelogs env id = Ok raw →
  dict_of raw = pre ++ (ce_version entry, notes) :: post →
  name d = Some nm →
  text = "<b>" +:+ nm +:+ "</b>" +:+ nl
         +:+ author d +:+ " - Version " +:+ ce_version entry
         +:+ " -> " +:+ version d +:+ nl
         +:+ "Link: https://nexusmods.com/" +:+ domain_name d
         +:+ "/mods/" +:+ str_of_int id +:+ nl
         +:+ "Changelog:" +:+ nl
         +:+ join nl
               ((λ e, "<b>" +:+ e.1 +:+ "</b>" +:+ nl
                      +:+ "- " +:+ join (nl +:+ "- ") e.2) <$> post) →
  telegram env text = None →
  new_versions (dict_of raw) (ce_version entry) = post ∧
  updates_item env updated_mod_data id s =
  (Ok tt,
   {| local_cache :=
        <[id := {| ce_version := version d;
                   ce_is_adult := contains_adult_content d;
                   ce_latest_file_update := Some latest |}]> (local_cache s);
      mods_with_new_version :=
        mods_with_new_version s
        ++ ((λ e, {| ur_ID := id;
                     ur_Author := author d;
                     ur_Name := nm;
                     ur_Link := "https://nexusmods.com/" +:+ domain_name d
                                +:+ "/mods/" +:+ str_of_int id;
                     ur_Old_Version := ce_version entry;
                     ur_New_Version := e.1 |}) <$> post);
      cache_file := cache_file s;
      trace := trace s ++ [ EvFetchMod id; EvFetchChangelogs id;
                            EvNotifyUpdate id text ] |}).
Proof.
  intros Hentry Hnew Hnz Hmoved Hd Hold Hver Hdiff Hraw Hsplit Hnm -> Hsend.
  assert (new_versions (dict_of raw) (ce_version entry) = post) as Hpost.
  { eapply new_versions_found; [apply dict_of_NoDup|exact Hsplit]. }
  split; [done|].
  rewrite <- message_text_spelled in Hsend |- *.
  rewrite <- Hpost in Hsend |- *.
  rewrite (updates_item_confirmed env updated_mod_data id s entry latest d nm
             raw Hentry Hnew Hnz Hmoved Hd Hold Hver Hdiff Hraw Hnm Hsend).
  unfold reported, row_of, entry_of, mod_link.
  by rewrite (truthy_str_true _ Hold).
Qed.

(** C1, as the code has it (changelog fallback).  On a confirmed version
    change whose cached version is not a key of the fetched changelog,
    only the last entry of the changelog is reported: the entries after
    the second-to-last one. *)
Theorem fallback_reports_last_entry env
    (updated_mod_data : gmap Z Z) id s entry latest d nm raw init last :
  local_cache s !! id = Some entry →
  updated_mod_data !! id = Some latest →
  latest ≠ 0 →
  ce_latest_file_update entry ≠ Some latest →
  mod_details env id = Ok d →
  ce_version entry ≠ "" → version d ≠ "" → ce_version entry ≠ version d →
  changelogs env id = Ok raw →
  ce_version entry ∉ keys (dict_of raw) →
  dict_of raw = init ++ [last] →
  name d = Some nm →
  telegram env
    (message_text nm (author d) (domain_name d) id (ce_version entry)
       (version d) [last]) = None →
  new_versions (dict_of raw) (ce_version entry) = [last] ∧
  updates_item env updated_mod_data id s =
  (Ok tt, reported id d nm entry (Some latest) [last] s).
Proof.
  intros Hentry Hnew Hnz Hmoved Hd Hold Hver Hdiff Hraw Hmiss Hsplit Hnm Hsend.
  assert (new_versions (dict_of raw) (ce_version entry) = [last]) as Hlast.
  { by eapply new_versions_missing. }
  split; [done|].
  rewrite <- Hlast in Hsend |- *.
  by apply updates_item_confirmed.
Qed.

(** *** One pass *)

Section with_order.
Context `{SetOrder}.

Lemma cycle_body_eq hide game env s :
  cycle_body hide game env s =
  match updated env with
  | Raise e => (Raise e, logged EvFetchUpdated s)
  | Ok updated_mods =>
      let s2 := logged EvFetchTracked (logged EvFetchUpdated s) in
      match tracked_mods env with
      | Raise e => (Raise e, s2)
      | Ok tracked =>
          match filtered_ids hide (for_game game tracked) with
          | Raise e => (Raise e, s2)
          | Ok ids =>
              match for_each (iter ids)
                      (updates_item env
                         (dict_comp um_mod_id um_latest_file_update
                            updated_mods)) s2 with
              | (Ok _, s') => (Ok tt, saved s')
              | (Raise e, s') => (Raise e, s')
              end
          end
      end
  end.
Proof.
  unfold cycle_body, fetch_updated_mods, fetch_tracked_mods, bind, lift,
    log, modify, ret. simpl.
  fold (logged EvFetchUpdated s).
  destruct (updated env) as [updated_mods|e]; [|done].
  simpl. fold (logged EvFetchTracked (logged EvFetchUpdated s)).
  destruct (tracked_mods env) as [tracked|e]; [|done].
  destruct (filtered_ids hide (for_game game tracked)) as [ids|e]; [|done].
  by destruct (for_each _ _ _) as [[[]|e] s'].
Qed.

(** The guarded body never lets an exception out: the pass ends with
    the error line and the report table. *)
Lemma updates_cycle_eq hide game env s :
  updates_cycle hide game env s =
  (Ok tt, tabled match cycle_body hide game env s with
                 | (Ok _, s') => s'
                 | (Raise e, s') => logged (EvError e) s'
                 end).
Proof.
  unfold updates_cycle, try_except, bind, get.
  destruct (cycle_body hide game env s) as [[[]|e] [c rows f tr]]; simpl;
    unfold tabled; simpl;
    destruct rows; simpl; by rewrite ?app_nil_r.
Qed.

(** A property kept by logging, by every item and by the save is kept
    by the guarded body, however it ends. *)
Lemma cycle_body_inv hide game env (I : state → Prop) :
  (∀ ev s, ev = EvFetchUpdated ∨ ev = EvFetchTracked →
           I s → I (logged ev s)) →
  (∀ updated_mods id s,
     updated env = Ok updated_mods → I s →
     I (updates_item env
          (dict_comp um_mod_id um_latest_file_update updated_mods)
          id s).2) →
  (∀ s, I s → I (saved s)) →
  ∀ s, I s → I (cycle_body hide game env s).2.
Proof.
  intros Hlog Hitem Hsave s Hs. rewrite cycle_body_eq.
  destruct (updated env) as [updated_mods|e] eqn:Hupd; simpl;
    [|apply Hlog; auto].
  assert (I (logged EvFetchTracked (logged EvFetchUpdated s))) as Hs2
    by (apply Hlog; auto).
  destruct (tracked_mods env) as [tracked|e]; [|done].
  destruct (filtered_ids hide (for_game game tracked)) as [ids|e]; [|done].
  pose proof (for_each_inv
                (updates_item env
                   (dict_comp um_mod_id um_latest_file_update updated_mods))
                I (iter ids)) as Hloop.
  specialize (Hloop ltac:(intros id t _; by apply Hitem) _ Hs2).
  destruct (for_each _ _ _) as [[[]|e] s']; simpl in *; [|done].
  by apply Hsave.
Qed.

Lemma updates_cycle_inv hide game env (I : state → Prop) :
  (∀ ev s, ev = EvFetchUpdated ∨ ev = EvFetchTracked ∨
           (∃ e, ev = EvError e) →
           I s → I (logged ev s)) →
  (∀ updated_mods id s,
     updated env = Ok updated_mods → I s →
     I (updates_item env
          (dict_comp um_mod_id um_latest_file_update updated_mods)
          id s).2) →
  (∀ s, I s → I (saved s)) →
  (∀ s, I s → I (tabled s)) →
  ∀ s, I s → I (updates_cycle hide game env s).2.
Proof.
  intros Hlog Hitem Hsave Htable s Hs. rewrite updates_cycle_eq. simpl.
  apply Htable.
  pose proof (cycle_body_inv hide game env I) as Hbody.
  specialize (Hbody ltac:(intros ev t [->| ->]; apply Hlog; auto)
                    Hitem Hsave s Hs).
  destruct (cycle_body hide game env s) as [[[]|e] s']; simpl in *; [done|].
  apply Hlog; [|done]. right. right. by exists e.
Qed.
End with_order.

Lemma since_nothing s P : since s P s.
Proof. exists []. split; [apply emitted_refl|done]. Qed.

Lemma since_more s0 P s s' evs :
  since s0 P s → emitted s s' evs → Forall P evs → since s0 P s'.
Proof.
  intros (evs0 & Hevs0 & HP0) Hevs HP. exists (evs0 ++ evs).
  unfold emitted in *. split; [by rewrite Hevs, Hevs0, app_assoc|].
  by apply Forall_app.
Qed.

Lemma since_logged s0 (P : event → Prop) ev s :
  P ev → since s0 P s → since s0 P (logged ev s).
Proof.
  intros HP Hs. eapply since_more; [exact Hs|reflexivity|].
  by apply Forall_singleton.
Qed.

Lemma since_saved s0 (P : event → Prop) s :
  since s0 P s → since s0 P (saved s).
Proof. done. Qed.

Lemma since_tabled s0 (P : event → Prop) s :
  (∀ rows, P (EvTableUpdates rows)) → since s0 P s → since s0 P (tabled s).
Proof.
  intros HP Hs. eapply since_more; [exact Hs|reflexivity|].
  destruct (mods_with_new_version s); [done|]. by apply Forall_singleton.
Qed.

Lemma since_all s0 (P : event → Prop) s :
  since s0 P s → ∃ evs, emitted s0 s evs ∧ ∀ ev, ev ∈ evs → P ev.
Proof.
  intros (evs & Hevs & HP). exists evs. split; [done|].
  by apply Forall_forall.
Qed.

Lemma concerns_other id id' ev :
  id' ≠ id → concerns id' ev → ¬ concerns id ev.
Proof. intros Hne [->|[->|[t ->]]] [?|[?|[t' ?]]]; congruence. Qed.

Lemma concerns_bulk id ev :
  ev = EvFetchUpdated ∨ ev = EvFetchTracked ∨ (∃ e, ev = EvError e) →
  ¬ concerns id ev.
Proof. intros [->|[->|[e ->]]] [?|[?|[t ?]]]; discriminate. Qed.

Section passes.
Context `{SetOrder}.

(** C7 (no-op on unchanged timestamp).  In a steady-state pass, for an
    identifier that has a cache entry and whose remote timestamp is the
    cached one or is missing from the remote-updated map, no details or
    changelogs are requested, no notification is sent, and the cache
    entry is the same afterwards -- however the pass ends. *)
Theorem unchanged_timestamp_is_noop hide game env s id entry r s1 :
  local_cache s !! id = Some entry →
  (∀ updated_mods,
     updated env = Ok updated_mods →
     dict_comp um_mod_id um_latest_file_update updated_mods !! id = None ∨
     dict_comp um_mod_id um_latest_file_update updated_mods !! id
     = ce_latest_file_update entry) →
  updates_cycle hide game env s = (r, s1) →
  local_cache s1 !! id = Some entry ∧
  ∃ evs, emitted s s1 evs ∧
         (EvFetchMod id ∉ evs) ∧
         (EvFetchChangelogs id ∉ evs) ∧
         ∀ text, EvNotifyUpdate id text ∉ evs.
Proof.
  intros Hentry Hsame Hrun.
  pose proof (updates_cycle_inv hide game env
                (λ t, local_cache t !! id = Some entry ∧
                      since s (λ ev, ¬ concerns id ev) t)) as Hinv.
  destruct Hinv with (s := s) as [Hentry1 Hquiet].
  - intros ev t Hev [Ht Hq]. split; [done|].
    apply since_logged; [|done]. by apply concerns_bulk.
  - intros updated_mods id' t Hupd [Ht Hq].
    destruct (decide (id' = id)) as [->|Hne].
    + by rewrite (updates_item_unchanged _ _ _ _ entry Ht (Hsame _ Hupd)).
    + destruct (updates_item_frame env
                  (dict_comp um_mod_id um_latest_file_update updated_mods)
                  id' t) as (_ & Hcache & (evs & Hevs & Hcon) & _).
      split; [by rewrite Hcache|].
      eapply since_more; [exact Hq|exact Hevs|].
      eapply Forall_impl; [exact Hcon|].
      intros ev. by apply concerns_other.
  - intros t [Ht Hq]. done.
  - intros t [Ht Hq]. split; [done|].
    apply since_tabled; [|done].
    intros rows [?|[?|[text ?]]]; discriminate.
  - split; [done|apply since_nothing].
  - rewrite Hrun in Hentry1, Hquiet. simpl in *.
    split; [done|].
    apply since_all in Hquiet as (evs & Hevs & HP).
    exists evs. split; [done|].
    unfold concerns in HP. split_and!.
    + intros Hin. apply (HP _ Hin). by left.
    + intros Hin. apply (HP _ Hin). right. by left.
    + intros text Hin. apply (HP _ Hin). right. right. by exists text.
Qed.
End passes.

Section failures.
Context `{SetOrder}.

(** The steady-state loop is never left by an exception. *)
Lemma while_true_updates_ok hide game loop envs s :
  (while_true loop (updates_cycle hide game) envs s).1 = Ok tt.
Proof.
  revert s. induction envs as [|env envs IH]; intros s; [done|].
  simpl. unfold bind. rewrite updates_cycle_eq.
  destruct loop; [apply IH|done].
Qed.

(** C8 (failure semantics).  An exception raised anywhere in the
    guarded body of a steady-state pass of the update tracker is caught:
    the pass ends normally after the error line and the report table,
    and the loop goes on to its next pass from there; that loop is
    never left by an exception.  The addition tracker has no handler: a
    failed fetch ends its pass and the whole run with that exception,
    before anything is saved. *)
Theorem updates_survives_additions_aborts
    hide game env envs s e sb
    hide' loop' env' envs' (s' : Additions.state) e' :
  cycle_body hide game env s = (Raise e, sb) →
  latest_added env' = Raise e' →
  (updates_cycle hide game env s = (Ok tt, tabled (logged (EvError e) sb)) ∧
   while_true true (updates_cycle hide game) (env :: envs) s
   = while_true true (updates_cycle hide game) envs
       (tabled (logged (EvError e) sb)) ∧
   ∀ loop envs0 s0,
     (while_true loop (updates_cycle hide game) envs0 s0).1 = Ok tt) ∧
  (Additions.additions_cycle hide' env' s'
   = (Raise e', Additions.fetching s') ∧
   Additions.additions hide' loop' (env' :: envs') s'
   = (Raise e', Additions.fetching (Additions.reload s')) ∧
   Additions.state_file (Additions.fetching (Additions.reload s'))
   = Additions.state_file s').
Proof.
  intros Hbody Hfetch. split.
  - assert (updates_cycle hide game env s
            = (Ok tt, tabled (logged (EvError e) sb))) as Hcycle
      by (by rewrite updates_cycle_eq, Hbody).
    split_and!; [done| |intros; apply while_true_updates_ok].
    simpl. unfold bind. by rewrite Hcycle.
  - assert (∀ t, Additions.additions_cycle hide' env' t
                 = (Raise e', Additions.fetching t)) as Hcycle
      by (intros t; by rewrite AdditionsFacts.additions_cycle_eq, Hfetch).
    split_and!; [apply Hcycle| |done].
    rewrite AdditionsFacts.additions_eq. simpl. unfold bind.
    by rewrite Hcycle.
Qed.

(** *** The initial population *)

Lemma bootstrap_item_frame env (updated_mod_data : gmap Z Z) id s :
  cache_file (bootstrap_item env updated_mod_data id s).2 = cache_file s ∧
  emitted s (bootstrap_item env updated_mod_data id s).2 [EvFetchMod id].
Proof.
  unfold bootstrap_item, fetch_mod, bind, log, lift, modify, emitted. simpl.
  by destruct (mod_details env id).
Qed.

Lemma bootstrap_eq game env s :
  bootstrap game env s =
  if decide (local_cache s = ∅) then
    match updated env with
    | Raise e => (Raise e, logged EvFetchUpdated s)
    | Ok updated_mods =>
        let s2 := logged EvFetchTracked (logged EvFetchUpdated s) in
        match tracked_mods env with
        | Raise e => (Raise e, s2)
        | Ok tracked =>
            match for_each
                    (iter (list_to_set (tm_mod_id <$> for_game game tracked)))
                    (bootstrap_item env
                       (dict_comp um_mod_id um_latest_file_update
                          updated_mods)) s2 with
            | (Ok _, s') => (Ok tt, saved s')
            | (Raise e, s') => (Raise e, s')
            end
        end
    end
  else (Ok tt, s).
Proof.
  unfold bootstrap, bind, get. simpl.
  destruct (decide (local_cache s = ∅)) as [Hempty|Hne]; [|done].
  unfold fetch_updated_mods, fetch_tracked_mods, bind, lift, log, modify,
    ret. simpl.
  fold (logged EvFetchUpdated s).
  destruct (updated env) as [updated_mods|e]; [|done].
  simpl. fold (logged EvFetchTracked (logged EvFetchUpdated s)).
  destruct (tracked_mods env) as [tracked|e]; [|done].
  by destruct (for_each _ _ _) as [[[]|e] s'].
Qed.

(** A population ended by an exception has written nothing and logged
    no error line. *)
Lemma bootstrap_raise game env s e sb :
  bootstrap game env s = (Raise e, sb) →
  cache_file sb = cache_file s ∧
  since s (λ ev, ∀ e', ev ≠ EvError e') sb.
Proof.
  rewrite bootstrap_eq.
  destruct (decide (local_cache s = ∅)) as [Hempty|Hne]; [|done].
  destruct (updated env) as [updated_mods|e1].
  2:{ intros [= _ <-]. split; [done|].
      apply since_logged; [done|apply since_nothing]. }
  simpl.
  assert (since s (λ ev, ∀ e', ev ≠ EvError e')
            (logged EvFetchTracked (logged EvFetchUpdated s))) as Hs2
    by (repeat (apply since_logged; [done|]); apply since_nothing).
  destruct (tracked_mods env) as [tracked|e1].
  2:{ by intros [= _ <-]. }
  assert (cache_file
            (for_each
               (iter (list_to_set (tm_mod_id <$> for_game game tracked)))
               (bootstrap_item env
                  (dict_comp um_mod_id um_latest_file_update updated_mods))
               (logged EvFetchTracked (logged EvFetchUpdated s))).2
          = cache_file s ∧
          since s (λ ev, ∀ e', ev ≠ EvError e')
            (for_each
               (iter (list_to_set (tm_mod_id <$> for_game game tracked)))
               (bootstrap_item env
                  (dict_comp um_mod_id um_latest_file_update updated_mods))
               (logged EvFetchTracked (logged EvFetchUpdated s))).2)
    as Hloop.
  { apply (for_each_inv _ (λ t, cache_file t = cache_file s ∧
                                since s (λ ev, ∀ e', ev ≠ EvError e') t));
      [|done].
    intros id t _ [Hf Hq].
    destruct (bootstrap_item_frame env
                (dict_comp um_mod_id um_latest_file_update updated_mods)
                id t) as [Hf' He].
    split; [by rewrite Hf'|].
    eapply since_more; [exact Hq|exact He|].
    by apply Forall_singleton. }
  destruct (for_each _ _ _) as [[[]|e1] s']; [done|].
  by intros [= _ <-].
Qed.

(** C10 (bootstrap failure).  When the persisted cache is empty, an
    exception raised during the initial population is not caught: it
    ends [updates] before any steady-state pass, no error line is
    logged, and the state file is as it was -- whatever part of the
    cache was already built in memory is not saved. *)
Theorem bootstrap_failure_propagates hide loop game boot envs s e sb :
  load_cache (cache_file s) = Ok ∅ →
  bootstrap game boot (loaded ∅ s) = (Raise e, sb) →
  updates hide loop game boot envs s = (Raise e, sb) ∧
  cache_file sb = cache_file s ∧
  ∃ evs, emitted s sb evs ∧ ∀ e', EvError e' ∉ evs.
Proof.
  intros Hload Hboot.
  split_and!.
  - unfold updates, bind, get, lift, modify. simpl. rewrite Hload.
    fold (loaded ∅ s). by rewrite Hboot.
  - by apply bootstrap_raise in Hboot as [-> _].
  - pose proof Hboot as [_ Hq]%bootstrap_raise.
    apply since_all in Hq as (evs & Hevs & HP).
    exists evs. split; [done|].
    intros e' Hin. by apply (HP _ Hin e').
Qed.
End failures.

End UpdatesFacts.

Module UpdatesWitnesses.
Import Py Updates UpdatesFacts Examples.
#[local] Existing Instance ascending.

(** The scenario of the specification: cached "1.0", fetched "1.2". *)
Lemma confirmed_change_reports_entries_after_old_witness :
  new_versions (dict_of spec_changelog) "1.0"
  = [ ("1.1", ["fix A"]); ("1.2", ["fix B"]) ] ∧
  updates_item (remote_7 200 None) moved 7 (tracking "1.0" false) =
  (Ok tt,
   {| local_cache :=
        <[7 := {| ce_version := "1.2"; ce_is_adult := false;
                  ce_latest_file_update := Some 200 |}]>
          {[ 7 := {| ce_version := "1.0"; ce_is_adult := false;
                     ce_latest_file_update := Some 100 |} ]};
      mods_with_new_version :=
        [ {| ur_ID := 7; ur_Author := "dee"; ur_Name := "Star Maps";
             ur_Link := "https://nexusmods.com/starfield/mods/7";
             ur_Old_Version := "1.0"; ur_New_Version := "1.1" |};
          {| ur_ID := 7; ur_Author := "dee"; ur_Name := "Star Maps";
             ur_Link := "https://nexusmods.com/starfield/mods/7";
             ur_Old_Version := "1.0"; ur_New_Version := "1.2" |} ];
      cache_file := None;
      trace :=
        [ EvFetchMod 7; EvFetchChangelogs 7;
          EvNotifyUpdate 7 "<b>Star Maps</b>
dee - Version 1.0 -> 1.2
Link: https://nexusmods.com/starfield/mods/7
Changelog:
<b>1.1</b>
- fix A
<b>1.2</b>
- fix B" ] |}).
Proof.
  apply (confirmed_change_reports_entries_after_old (remote_7 200 None)
           moved 7 (tracking "1.0" false) (cached "1.0" false 100) 200
           star_maps "Star Maps" spec_changelog
           [] ["initial release"] [ ("1.1", ["fix A"]); ("1.2", ["fix B"]) ]).
  - reflexivity.
  - reflexivity.
  - lia.
  - discriminate.
  - reflexivity.
  - discriminate.
  - discriminate.
  - discriminate.
  - reflexivity.
  - reflexivity.
  - reflexivity.
  - reflexivity.
  - reflexivity.
Defined.

(** The same pass as a whole: one message, versions "1.1" then "1.2". *)
Example version_change_pass :
  trace (updates_cycle false "starfield" (remote_7 200 None)
           (tracking "1.0" false)).2 =
  [ EvFetchUpdated; EvFetchTracked; EvFetchMod 7; EvFetchChangelogs 7;
    EvNotifyUpdate 7
      ("<b>Star Maps</b>" +:+ nl
       +:+ "dee - Version 1.0 -> 1.2" +:+ nl
       +:+ "Link: https://nexusmods.com/starfield/mods/7" +:+ nl
       +:+ "Changelog:" +:+ nl
       +:+ "<b>1.1</b>" +:+ nl +:+ "- fix A" +:+ nl
       +:+ "<b>1.2</b>" +:+ nl +:+ "- fix B");
    EvTableUpdates
      (row_of 7 star_maps "Star Maps" "1.0"
         <$> [ ("1.1", ["fix A"]); ("1.2", ["fix B"]) ]) ].
Proof. vm_compute. reflexivity. Qed.

(** C1, as stated, fails: with cached version "0.9" absent from the three
    entries, the entries from the second-to-last one onward would be "1.1"
    and "1.2"; only "1.2" is reported. *)
Lemma fallback_last_two_counterexample :
  ("0.9" ∉ keys (dict_of spec_changelog)) ∧
  length (dict_of spec_changelog) = 3%nat ∧
  slice_from (-2) (dict_of spec_changelog)
  = [ ("1.1", ["fix A"]); ("1.2", ["fix B"]) ] ∧
  new_versions (dict_of spec_changelog) "0.9" = [ ("1.2", ["fix B"]) ] ∧
  new_versions (dict_of spec_changelog) "0.9"
  ≠ slice_from (-2) (dict_of spec_changelog) ∧
  trace (updates_cycle false "starfield" (remote_7 200 None)
           (tracking "0.9" false)).2 =
  [ EvFetchUpdated; EvFetchTracked; EvFetchMod 7; EvFetchChangelogs 7;
    EvNotifyUpdate 7
      ("<b>Star Maps</b>" +:+ nl
       +:+ "dee - Version 0.9 -> 1.2" +:+ nl
       +:+ "Link: https://nexusmods.com/starfield/mods/7" +:+ nl
       +:+ "Changelog:" +:+ nl
       +:+ "<b>1.2</b>" +:+ nl +:+ "- fix B");
    EvTableUpdates
      (row_of 7 star_maps "Star Maps" "0.9" <$> [ ("1.2", ["fix B"]) ]) ].
Proof.
  split_and!.
  - by_compute.
  - reflexivity.
  - reflexivity.
  - reflexivity.
  - vm_compute. discriminate.
  - vm_compute. reflexivity.
Qed.

Lemma fallback_reports_last_entry_witness :
  new_versions (dict_of spec_changelog) "0.9" = [ ("1.2", ["fix B"]) ] ∧
  updates_item (remote_7 200 None) moved 7 (tracking "0.9" false) =
  (Ok tt, reported 7 star_maps "Star Maps" (cached "0.9" false 100) (Some 200)
            [ ("1.2", ["fix B"]) ] (tracking "0.9" false)).
Proof.
  apply (fallback_reports_last_entry (remote_7 200 None)
           moved 7 (tracking "0.9" false) (cached "0.9" false 100) 200
           star_maps "Star Maps" spec_changelog
           [ ("1.0", ["initial release"]); ("1.1", ["fix A"]) ]).
  - reflexivity.
  - reflexivity.
  - lia.
  - discriminate.
  - reflexivity.
  - discriminate.
  - discriminate.
  - discriminate.
  - reflexivity.
  - by_compute.
  - reflexivity.
  - reflexivity.
  - reflexivity.
Defined.

(** C2: the code's filter.  With the policy active, mod 7 cached as adult
    but listed by the remote with ["is_adult"] false is processed and
    notified; and when the remote entry has no such key, as for entries
    made of an identifier and a game only, the comprehension raises
    [KeyError] and the pass processes nothing, whatever the cache says. *)
Theorem adult_filter_reads_fetched_entry :
  ce_is_adult <$> local_cache (tracking "1.0" true) !! 7 = Some true ∧
  filtered_ids true [tracked 7 (Some false)] = Ok {[ 7 ]} ∧
  trace (updates_cycle true "starfield" (remote_7 200 (Some false))
           (tracking "1.0" true)).2 =
  [ EvFetchUpdated; EvFetchTracked; EvFetchMod 7; EvFetchChangelogs 7;
    EvNotifyUpdate 7
      (message_text "Star Maps" "dee" "starfield" 7 "1.0" "1.2"
         [ ("1.1", ["fix A"]); ("1.2", ["fix B"]) ]);
    EvTableUpdates
      (row_of 7 star_maps "Star Maps" "1.0"
         <$> [ ("1.1", ["fix A"]); ("1.2", ["fix B"]) ]) ] ∧
  ce_is_adult <$> local_cache (tracking "1.0" false) !! 7 = Some false ∧
  filtered_ids true [tracked 7 None] = Raise (KeyError "is_adult") ∧
  trace (updates_cycle true "starfield" (remote_7 200 None)
           (tracking "1.0" false)).2 =
  [ EvFetchUpdated; EvFetchTracked; EvError (KeyError "is_adult") ].
Proof. split_and!; vm_compute; reflexivity. Qed.

Lemma unchanged_timestamp_is_noop_witness :
  local_cache (updates_cycle false "starfield" (remote_7 100 None)
                 (tracking "1.0" false)).2 !! 7
  = Some (cached "1.0" false 100) ∧
  ∃ evs,
    emitted (tracking "1.0" false)
      (updates_cycle false "starfield" (remote_7 100 None)
         (tracking "1.0" false)).2 evs ∧
    (EvFetchMod 7 ∉ evs) ∧
    (EvFetchChangelogs 7 ∉ evs) ∧
    ∀ text, EvNotifyUpdate 7 text ∉ evs.
Proof.
  apply (unchanged_timestamp_is_noop false "starfield" (remote_7 100 None)
           (tracking "1.0" false) 7 (cached "1.0" false 100) (Ok tt)).
  - reflexivity.
  - intros updated_mods [= <-]. right. reflexivity.
  - vm_compute. reflexivity.
Defined.

Lemma updates_survives_additions_aborts_witness :
  (updates_cycle false "starfield" unreachable (tracking "1.0" false)
   = (Ok tt, tabled (logged (EvError (RequestError "connection refused"))
                       (logged EvFetchUpdated (tracking "1.0" false)))) ∧
   while_true true (updates_cycle false "starfield")
     [unreachable; remote_7 200 None] (tracking "1.0" false)
   = while_true true (updates_cycle false "starfield") [remote_7 200 None]
       (tabled (logged (EvError (RequestError "connection refused"))
                  (logged EvFetchUpdated (tracking "1.0" false)))) ∧
   ∀ loop envs0 s0,
     (while_true loop (updates_cycle false "starfield") envs0 s0).1 = Ok tt) ∧
  (Additions.additions_cycle false unreachable after_first_pass
   = (Raise (RequestError "connection refused"),
      Additions.fetching after_first_pass) ∧
   Additions.additions false true [unreachable; snapshot_later]
     after_first_pass
   = (Raise (RequestError "connection refused"),
      Additions.fetching (Additions.reload after_first_pass)) ∧
   Additions.state_file
     (Additions.fetching (Additions.reload after_first_pass))
   = Additions.state_file after_first_pass).
Proof.
  apply (updates_survives_additions_aborts
           false "starfield" unreachable [remote_7 200 None]
           (tracking "1.0" false) (RequestError "connection refused")
           (logged EvFetchUpdated (tracking "1.0" false))
           false true unreachable [snapshot_later] after_first_pass
           (RequestError "connection refused")).
  - reflexivity.
  - reflexivity.
Defined.

(** The state in which the failed population of [blank] leaves off. *)
Lemma bootstrap_failure_propagates_witness :
  updates false true "starfield" half_reachable [remote_7 200 None] blank
  = (Raise (RequestError "connection refused"),
     (bootstrap "starfield" half_reachable (loaded ∅ blank)).2) ∧
  cache_file (bootstrap "starfield" half_reachable (loaded ∅ blank)).2
  = cache_file blank ∧
  ∃ evs,
    emitted blank (bootstrap "starfield" half_reachable (loaded ∅ blank)).2
      evs ∧
    ∀ e', EvError e' ∉ evs.
Proof.
  apply (bootstrap_failure_propagates false true "starfield" half_reachable
           [remote_7 200 None] blank).
  - reflexivity.
  - vm_compute. reflexivity.
Defined.

(** What that failed population leaves behind: mod 3 is in the cache in
    memory, after two detail requests, and no state file was written. *)
Example bootstrap_partial_cache_not_saved :
  local_cache (bootstrap "starfield" half_reachable (loaded ∅ blank)).2 !! 3
  = Some (entry_of lanterns None) ∧
  cache_file (bootstrap "starfield" half_reachable (loaded ∅ blank)).2
  = None ∧
  trace (bootstrap "starfield" half_reachable (loaded ∅ blank)).2
  = [ EvFetchUpdated; EvFetchTracked; EvFetchMod 3; EvFetchMod 5 ].
Proof. split_and!; vm_compute; reflexivity. Qed.

(** C9 on sample data: the file [save_state] writes for a cache of three
    entries (one with a negative identifier, one without a timestamp), and
    the cache read from a file that holds the same entries in another
    order, one key written with a sign. *)
Example saved_cache_sample :
  let c : gmap Z cache_entry :=
    {[ 7 := {| ce_version := "1.0"; ce_is_adult := false;
               ce_latest_file_update := Some 100 |};
       12 := {| ce_version := "0.3"; ce_is_adult := true;
                ce_latest_file_update := None |};
       -3 := {| ce_version := "2"; ce_is_adult := false;
                ce_latest_file_update := Some 5 |} ]} in
  cache_file (save_state {| local_cache := c; mods_with_new_version := [];
                            cache_file := None; trace := [] |}).2
  = Some [ ("-3", {| ce_version := "2"; ce_is_adult := false;
                     ce_latest_file_update := Some 5 |});
           ("7", {| ce_version := "1.0"; ce_is_adult := false;
                    ce_latest_file_update := Some 100 |});
           ("12", {| ce_version := "0.3"; ce_is_adult := true;
                     ce_latest_file_update := None |}) ] ∧
  load_cache
    (Some [ ("12", {| ce_version := "0.3"; ce_is_adult := true;
                      ce_latest_file_update := None |});
            ("+7", {| ce_version := "1.0"; ce_is_adult := false;
                      ce_latest_file_update := Some 100 |});
            ("-3", {| ce_version := "2"; ce_is_adult := false;
                      ce_latest_file_update := Some 5 |}) ])
  = Ok c.
Proof. split; vm_compute; reflexivity. Qed.

End UpdatesWitnesses.

(* ===================================================================== *)
(** ** The addition tracker: further properties *)
(* ===================================================================== *)

Module AdditionsMore.
Import Py PyFacts ProgFacts Additions AdditionsFacts Observed.

Lemma notified_mods_app evs1 evs2 :
  notified_mods (evs1 ++ evs2) = notified_mods evs1 ++ notified_mods evs2.
Proof. apply omap_app. Qed.

Lemma notified_mods_notifications ns :
  notified_mods (notification <$> ns) = ns.
Proof. induction ns as [|m ns IH]; csimpl; [done|]. by rewrite IH. Qed.

Lemma notified_mods_table_of ns : notified_mods (table_of ns) = [].
Proof. by destruct ns. Qed.

(** What the items of a snapshot do, in one piece: the mods [ns] that get a
    message are picked from the list in its order; each was available,
    passed the filter and was unseen; their identifiers are distinct and
    seen afterwards; the rows follow the messages; nothing is saved; and an
    identifier that became seen was added for an available item of the
    list, which got its message if it passed the filter. *)
Lemma for_each_items hide env (l : list mod_info) s :
  ∃ ns,
    ns `sublist_of` l ∧
    trace (for_each l (additions_item hide env) s).2
    = trace s ++ (notification <$> ns) ∧
    new_mods_data (for_each l (additions_item hide env) s).2
    = new_mods_data s ++ (row_of <$> ns) ∧
    state_file (for_each l (additions_item hide env) s).2 = state_file s ∧
    seen_mods s ⊆ seen_mods (for_each l (additions_item hide env) s).2 ∧
    NoDup (mod_id <$> ns) ∧
    Forall (λ m, available m = true ∧
                 (hide && contains_adult_content m) = false ∧
                 (mod_id m ∉ seen_mods s) ∧
                 mod_id m ∈ seen_mods (for_each l (additions_item hide env) s).2)
           ns ∧
    ∀ id, id ∈ seen_mods (for_each l (additions_item hide env) s).2 →
          id ∈ seen_mods s ∨
          ∃ m, m ∈ l ∧ mod_id m = id ∧ available m = true ∧
               ((hide && contains_adult_content m) = false → m ∈ ns).
Proof.
  revert s. induction l as [|m l IH]; intros s.
  { exists []. simpl. rewrite !app_nil_r.
    split_and!; try done; [apply NoDup_nil_2|by left]. }
  rewrite for_each_cons, additions_item_eq.
  destruct (decide (mod_id m ∈ seen_mods s)) as [Hseen|Hunseen].
  { destruct (IH s) as (ns & Hsub & Htr & Hrows & Hfile & Hmono & Hnd
                        & Hall & Hadd).
    exists ns. split_and!; try done; [by apply sublist_cons|].
    intros id [?|(x & Hx & ?)]%Hadd; [by left|right].
    exists x. split; [by right|done]. }
  destruct (available m) eqn:Hav; simpl.
  2:{ destruct (IH s) as (ns & Hsub & Htr & Hrows & Hfile & Hmono & Hnd
                          & Hall & Hadd).
      exists ns. split_and!; try done; [by apply sublist_cons|].
      intros id [?|(x & Hx & ?)]%Hadd; [by left|right].
      exists x. split; [by right|done]. }
  destruct (hide && contains_adult_content m) eqn:Hpass.
  { destruct (IH (marked m s)) as (ns & Hsub & Htr & Hrows & Hfile & Hmono
                                   & Hnd & Hall & Hadd).
    exists ns. split_and!; try done.
    - by apply sublist_cons.
    - etrans; [|exact Hmono]. simpl. apply union_subseteq_r.
    - eapply Forall_impl; [exact Hall|]. simpl.
      intros x (? & ? & Hx & ?). split_and!; try done.
      intros Hin. apply Hx. apply elem_of_union. by right.
    - intros id [Hid|(x & Hx & ?)]%Hadd.
      + simpl in Hid. apply elem_of_union in Hid as [->%elem_of_singleton|?];
          [right|by left].
        exists m. split_and!; [left|done|done|]. by rewrite Hpass.
      + right. exists x. split; [by right|done]. }
  destruct (telegram env (message_text m)) as [e|].
  { exists [m]. simpl. split_and!; try done.
    - apply sublist_skip, sublist_nil_l.
    - apply union_subseteq_r.
    - apply NoDup_singleton.
    - apply Forall_singleton. split_and!; try done.
      apply elem_of_union. left. by apply elem_of_singleton.
    - intros id [->%elem_of_singleton|?]%elem_of_union; [right|by left].
      exists m. split_and!; [left|done|done|]. intros _. left. }
  destruct (IH (notified m s)) as (ns & Hsub & Htr & Hrows & Hfile & Hmono
                                   & Hnd & Hall & Hadd).
  assert (mod_id m ∈ seen_mods (notified m s)) as Hm
    by (simpl; apply elem_of_union; left; by apply elem_of_singleton).
  exists (m :: ns). split_and!.
  - by apply sublist_skip.
  - rewrite Htr. simpl. by rewrite <- app_assoc.
  - rewrite Hrows. simpl. by rewrite <- app_assoc.
  - done.
  - etrans; [|exact Hmono]. simpl. apply union_subseteq_r.
  - csimpl. apply NoDup_cons. split; [|done].
    intros (x & Hid & Hx)%list_elem_of_fmap.
    rewrite Forall_forall in Hall. destruct (Hall x Hx) as (_ & _ & Hnew & _).
    apply Hnew. by rewrite <- Hid.
  - apply Forall_cons. split.
    + split_and!; try done. by apply Hmono.
    + eapply Forall_impl; [exact Hall|]. simpl.
      intros x (? & ? & Hx & ?). split_and!; try done.
      intros Hin. apply Hx. apply elem_of_union. by right.
  - intros id [Hid|(x & Hx & ? & ? & Hn)]%Hadd.
    + simpl in Hid. apply elem_of_union in Hid as [->%elem_of_singleton|?];
        [right|by left].
      exists m. split_and!; [left|done|done|]. intros _. left.
    + right. exists x. split_and!; [by right|done|done|].
      intros Hp. right. by apply Hn.
Qed.

Lemma Forall_sublist {A} (P : A → Prop) (l1 l2 : list A) :
  l1 `sublist_of` l2 → Forall P l2 → Forall P l1.
Proof.
  induction 1 as [|x l1 l2 _ IH|x l1 l2 _ IH]; [done| |].
  - intros [? ?]%Forall_cons. apply Forall_cons. auto.
  - intros [? ?]%Forall_cons. auto.
Qed.

Lemma StronglySorted_sublist {A} (R : relation A) (l1 l2 : list A) :
  l1 `sublist_of` l2 → StronglySorted R l2 → StronglySorted R l1.
Proof.
  induction 1 as [|x l1 l2 Hsub IH|x l1 l2 _ IH]; [done| |].
  - intros [Hx Hl]%StronglySorted_cons. apply StronglySorted_cons.
    split; [by eapply Forall_sublist|auto].
  - intros [_ Hl]%StronglySorted_cons. auto.
Qed.

Lemma insert_sorted_StronglySorted {A} (key : A → Z) x l :
  StronglySorted (λ a b, key a ≤ key b) l →
  StronglySorted (λ a b, key a ≤ key b) (insert_sorted key x l).
Proof.
  induction l as [|y l IH]; simpl; intros Hl.
  { apply StronglySorted_cons. split; [done|constructor]. }
  apply StronglySorted_cons in Hl as [Hy Hl].
  destruct (key x <? key y) eqn:Hlt.
  - apply Z.ltb_lt in Hlt. apply StronglySorted_cons. split.
    + apply Forall_cons. split; [lia|].
      eapply Forall_impl; [exact Hy|]. simpl. intros; lia.
    + by apply StronglySorted_cons.
  - apply Z.ltb_ge in Hlt. apply StronglySorted_cons. split; [|auto].
    rewrite insert_sorted_perm. by apply Forall_cons.
Qed.

(** [sorted] puts its argument in ascending order of the keys. *)
Lemma sorted_StronglySorted {A} (key : A → Z) (l : list A) :
  StronglySorted (λ a b, key a ≤ key b) (sorted key l).
Proof.
  unfold sorted.
  assert (∀ acc, StronglySorted (λ a b, key a ≤ key b) acc →
                 StronglySorted (λ a b, key a ≤ key b)
                   (foldl (λ acc x, insert_sorted key x acc) acc l)) as Hgen.
  { induction l as [|x l IH]; intros acc Hacc; [done|].
    simpl. apply IH. by apply insert_sorted_StronglySorted. }
  apply Hgen. constructor.
Qed.

Lemma StronglySorted_strict (l : list Z) :
  StronglySorted Z.le l → NoDup l → StronglySorted Z.lt l.
Proof.
  induction l as [|x l IH]; [constructor|].
  intros [Hx Hl]%StronglySorted_cons [Hnin Hnd]%NoDup_cons.
  apply StronglySorted_cons. split; [|auto].
  rewrite Forall_forall in Hx |- *. intros y Hy.
  specialize (Hx y Hy). assert (x ≠ y) by (intros ->; done). lia.
Qed.

Section with_order.
Context `{SetOrder}.

(** A pass in one piece, however it ends.  The rows are empty when a pass
    starts: they are initialised empty and cleared at the end of a pass. *)
Lemma additions_cycle_shape hide env mods s r s1 :
  latest_added env = Ok mods →
  new_mods_data s = [] →
  additions_cycle hide env s = (r, s1) →
  ∃ ns,
    ns `sublist_of` sorted mod_id mods ∧
    NoDup (mod_id <$> ns) ∧
    Forall (λ m, available m = true ∧
                 (hide && contains_adult_content m) = false ∧
                 (mod_id m ∉ seen_mods s) ∧
                 mod_id m ∈ seen_mods s1) ns ∧
    emitted s s1
      (EvFetchLatest :: (notification <$> ns)
         ++ match r with Ok _ => table_of ns | Raise _ => [] end) ∧
    match r with
    | Ok _ => state_file s1 = Some (iter (seen_mods s1)) ∧ new_mods_data s1 = []
    | Raise _ => state_file s1 = state_file s
    end.
Proof.
  intros Henv Hempty Hrun. rewrite additions_cycle_eq, Henv in Hrun.
  destruct (for_each_items hide env (sorted mod_id mods) (fetching s))
    as (ns & Hsub & Htr & Hrows & Hfile & Hmono & Hnd & Hall & _).
  exists ns.
  destruct (for_each _ _ _) as [[[]|e] s'] eqn:Hloop;
    injection Hrun as <- <-; simpl in *.
  - split_and!; try done.
    unfold emitted. simpl. rewrite Htr, Hrows, Hempty. simpl.
    rewrite <- !app_assoc. simpl. do 3 f_equal.
    by destruct ns.
  - split_and!; try done.
    unfold emitted. rewrite Htr. simpl. by rewrite <- app_assoc, app_nil_r.
Qed.

(** The messages of a pass, however it ends and whatever rows it started
    with. *)
Lemma additions_cycle_notified hide env mods s r s1 :
  latest_added env = Ok mods →
  additions_cycle hide env s = (r, s1) →
  ∃ ns evs,
    emitted s s1 evs ∧
    notified_mods evs = ns ∧
    (∀ m text, EvNotifyAddition m text ∈ evs ↔ m ∈ ns ∧ text = message_text m) ∧
    ns `sublist_of` sorted mod_id mods ∧
    NoDup (mod_id <$> ns) ∧
    Forall (λ m, available m = true ∧
                 (hide && contains_adult_content m) = false ∧
                 (mod_id m ∉ seen_mods s) ∧
                 mod_id m ∈ seen_mods s1) ns ∧
    ∀ id, id ∈ seen_mods s1 →
          id ∈ seen_mods s ∨
          ∃ m, m ∈ mods ∧ mod_id m = id ∧ available m = true ∧
               ((hide && contains_adult_content m) = false → m ∈ ns).
Proof.
  intros Henv Hrun. rewrite additions_cycle_eq, Henv in Hrun.
  destruct (for_each_items hide env (sorted mod_id mods) (fetching s))
    as (ns & Hsub & Htr & Hrows & Hfile & Hmono & Hnd & Hall & Hadd).
  assert (∀ tbl, (tbl = [] ∨ ∃ rows, tbl = [EvTableAdditions rows]) →
            notified_mods (EvFetchLatest :: (notification <$> ns) ++ tbl) = ns ∧
            ∀ m text,
              EvNotifyAddition m text
                ∈ EvFetchLatest :: (notification <$> ns) ++ tbl ↔
              m ∈ ns ∧ text = message_text m) as Hevs.
  { intros tbl Htbl. split.
    - change (notified_mods ((notification <$> ns) ++ tbl) = ns).
      rewrite notified_mods_app, notified_mods_notifications.
      destruct Htbl as [->|[rows ->]]; by rewrite app_nil_r.
    - intros m text. split.
      + intros [Hin|Hin]%elem_of_cons; [done|].
        apply elem_of_app in Hin as [Hin|Hin].
        * apply list_elem_of_fmap in Hin as (x & [= -> ->] & Hx). done.
        * destruct Htbl as [->|[rows ->]]; [by apply elem_of_nil in Hin|].
          by apply list_elem_of_singleton in Hin.
      + intros [Hm ->]. right. apply elem_of_app. left.
        by apply (list_elem_of_fmap_2 notification). }
  assert (∀ id, id ∈ seen_mods (for_each (sorted mod_id mods)
                                  (additions_item hide env) (fetching s)).2 →
            id ∈ seen_mods s ∨
            ∃ m, m ∈ mods ∧ mod_id m = id ∧ available m = true ∧
                 ((hide && contains_adult_content m) = false → m ∈ ns))
    as Hadd'.
  { intros id [?|(m & Hm%elem_of_sorted & ?)]%Hadd; [by left|right].
    by exists m. }
  exists ns.
  destruct (for_each _ _ _) as [[[]|e] s'] eqn:Hloop;
    injection Hrun as <- <-; simpl in *.
  - exists (EvFetchLatest :: (notification <$> ns)
              ++ match new_mods_data s' with
                 | [] => []
                 | rows => [EvTableAdditions rows]
                 end).
    destruct (Hevs match new_mods_data s' with
                   | [] => []
                   | rows => [EvTableAdditions rows]
                   end) as [Hns Hin].
    { destruct (new_mods_data s'); [by left|right; by eexists]. }
    split_and!; try done.
    unfold emitted. simpl. rewrite Htr. simpl. by rewrite <- !app_assoc.
  - exists (EvFetchLatest :: (notification <$> ns) ++ []).
    destruct (Hevs []) as [Hns Hin]; [by left|].
    split_and!; try done.
    unfold emitted. rewrite Htr. simpl. by rewrite <- !app_assoc, app_nil_r.
Qed.

(** X1 (what a completed pass does).  A completed pass that starts without
    pending rows performs the fetch, then one message per notified mod, the
    mods being picked from the snapshot sorted by identifier, then a report
    table with one row per notified mod in the same order -- no table when no
    mod was notified -- and saves the seen-set. *)
Theorem pass_reports_what_it_notified hide env mods s s1 :
  latest_added env = Ok mods →
  new_mods_data s = [] →
  additions_cycle hide env s = (Ok tt, s1) →
  ∃ ns,
    ns `sublist_of` sorted mod_id mods ∧
    emitted s s1 (EvFetchLatest :: (notification <$> ns) ++ table_of ns) ∧
    state_file s1 = Some (iter (seen_mods s1)) ∧
    new_mods_data s1 = [].
Proof.
  intros Henv Hempty Hrun.
  destruct (additions_cycle_shape hide env mods s _ _ Henv Hempty Hrun)
    as (ns & Hsub & _ & _ & Hevs & Hfile & Hrows).
  by exists ns.
Qed.

(** X2 (processing order).  The messages of a pass, however it ends, go
    out in strictly ascending order of the mod identifiers. *)
Theorem notifications_ascending hide env mods s r s1 :
  latest_added env = Ok mods →
  additions_cycle hide env s = (r, s1) →
  ∃ evs, emitted s s1 evs ∧ StronglySorted Z.lt (notified_ids evs).
Proof.
  intros Henv Hrun.
  destruct (additions_cycle_notified hide env mods s r s1 Henv Hrun)
    as (ns & evs & Hevs & Hns & _ & Hsub & Hnd & _).
  exists evs. split; [done|]. unfold notified_ids. rewrite Hns.
  apply StronglySorted_strict; [|done].
  apply (StronglySorted_fmap mod_id (λ a b, mod_id a ≤ mod_id b) Z.le);
    [done|].
  eapply StronglySorted_sublist; [exact Hsub|].
  apply sorted_StronglySorted.
Qed.

(** X3 (no undue message).  Every message of a pass, however it ends, is
    for a mod of the fetched snapshot that is available, passes the
    adult-content filter and was not in the seen-set when the pass began;
    its text is the one built from that mod. *)
Theorem notification_is_due hide env mods s r s1 :
  latest_added env = Ok mods →
  additions_cycle hide env s = (r, s1) →
  ∃ evs, emitted s s1 evs ∧
         ∀ m text, EvNotifyAddition m text ∈ evs →
                   m ∈ mods ∧
                   available m = true ∧
                   (hide && contains_adult_content m) = false ∧
                   (mod_id m ∉ seen_mods s) ∧
                   text = message_text m.
Proof.
  intros Henv Hrun.
  destruct (additions_cycle_notified hide env mods s r s1 Henv Hrun)
    as (ns & evs & Hevs & _ & Hin & Hsub & _ & Hall & _).
  exists evs. split; [done|]. intros m text [Hm ->]%Hin.
  rewrite Forall_forall in Hall. destruct (Hall m Hm) as (? & ? & ? & _).
  split_and!; try done.
  apply (elem_of_sorted mod_id). by eapply elem_of_sublist.
Qed.

(** X4 (no available mod forgotten).  In a completed pass over a snapshot
    listing each identifier once, every mod that is available, passes the
    filter and was unseen gets its message, and is seen afterwards. *)
Theorem available_mod_is_notified hide env mods m s s1 :
  latest_added env = Ok mods →
  NoDup (mod_id <$> mods) →
  m ∈ mods →
  available m = true →
  (hide && contains_adult_content m) = false →
  mod_id m ∉ seen_mods s →
  additions_cycle hide env s = (Ok tt, s1) →
  mod_id m ∈ seen_mods s1 ∧
  ∃ evs, emitted s s1 evs ∧ notification m ∈ evs.
Proof.
  intros Henv Hnd Hm Hav Hpass Hunseen Hrun.
  destruct (additions_cycle_notified hide env mods s _ s1 Henv Hrun)
    as (ns & evs & Hevs & _ & Hin & _ & _ & _ & Hadd).
  assert (mod_id m ∈ seen_mods s1) as Hseen.
  { rewrite additions_cycle_eq, Henv in Hrun.
    destruct (for_each _ _ _) as [[[]|e] s'] eqn:Hloop; [|done].
    injection Hrun as <-. simpl.
    eapply for_each_marks; [exact Hloop| |done]. by apply elem_of_sorted. }
  split; [done|]. exists evs. split; [done|].
  destruct (Hadd _ Hseen) as [?|(m' & Hm' & Hid & _ & Hn)]; [done|].
  assert (m' = m) as -> by (by eapply NoDup_ids_eq).
  unfold notification. apply Hin. split; [by apply Hn|done].
Qed.

(** X5 (a failed pass saves nothing).  A pass ended by an exception -- a
    failed fetch or a failed send -- leaves the state file as it was and
    prints no report table, while the seen-set in memory may have grown. *)
Theorem failed_pass_saves_nothing hide env s e s1 :
  additions_cycle hide env s = (Raise e, s1) →
  state_file s1 = state_file s ∧
  seen_mods s ⊆ seen_mods s1 ∧
  ∃ evs, emitted s s1 evs ∧ ∀ rows, EvTableAdditions rows ∉ evs.
Proof.
  intros Hrun. rewrite additions_cycle_eq in Hrun.
  destruct (latest_added env) as [mods|e'].
  2:{ injection Hrun as _ <-. split_and!; [done..|].
      exists [EvFetchLatest]. split; [done|].
      intros rows Hin%list_elem_of_singleton. done. }
  destruct (for_each_items hide env (sorted mod_id mods) (fetching s))
    as (ns & _ & Htr & _ & Hfile & Hmono & _).
  destruct (for_each _ _ _) as [[[]|e'] s'] eqn:Hloop; [done|].
  injection Hrun as _ <-. simpl in *. split_and!; [done..|].
  exists (EvFetchLatest :: (notification <$> ns)). split.
  - unfold emitted. rewrite Htr. simpl. by rewrite <- app_assoc.
  - intros rows [Hin|Hin]%elem_of_cons; [done|].
    by apply list_elem_of_fmap in Hin as (x & [=] & _).
Qed.

Lemma once_other s0 t t' ev :
  once s0 t →
  seen_mods t' = seen_mods t →
  emitted t t' [ev] →
  notified_mods [ev] = [] →
  once s0 t'.
Proof.
  intros (Hmono & evs & Hevs & Hnd & Hids) Hseen Hev Hnone.
  split; [by rewrite Hseen|].
  exists (evs ++ [ev]). unfold emitted in *. split_and!.
  - by rewrite Hev, Hevs, app_assoc.
  - unfold notified_ids. by rewrite notified_mods_app, Hnone, app_nil_r.
  - unfold notified_ids. rewrite notified_mods_app, Hnone, app_nil_r, Hseen.
    apply Hids.
Qed.

Lemma once_item s0 hide env m t :
  once s0 t → once s0 (additions_item hide env m t).2.
Proof.
  intros (Hmono & evs & Hevs & Hnd & Hids).
  pose proof (additions_item_mono hide env m t) as Hgrow.
  destruct (additions_item_emits hide env m t)
    as [_ [He|(He & Hnew & Hav & _)]].
  - split; [by etrans|]. exists evs. unfold emitted in *.
    split_and!; [by rewrite He, Hevs, app_nil_r|done|].
    intros id [? ?]%Hids. split; [by apply Hgrow|done].
  - split; [by etrans|].
    exists (evs ++ [EvNotifyAddition m (message_text m)]).
    unfold emitted, notified_ids in *.
    rewrite notified_mods_app, fmap_app. csimpl.
    split_and!.
    + by rewrite He, Hevs, app_assoc.
    + apply NoDup_app. split_and!; [done| |apply NoDup_singleton].
      intros id [Hid _]%Hids ->%list_elem_of_singleton. done.
    + intros id [[? ?]%Hids| ->%list_elem_of_singleton]%elem_of_app.
      * split; [by apply Hgrow|done].
      * split; [by apply additions_item_marks|].
        intros Hin. apply Hnew. by apply Hmono.
Qed.

Lemma once_cycle s0 hide env t :
  once s0 t → once s0 (additions_cycle hide env t).2.
Proof.
  apply additions_cycle_inv.
  - intros u Hu. by apply (once_other s0 u _ EvFetchLatest).
  - intros mods m u _ _. apply once_item.
  - intros u Hu. destruct (new_mods_data u) as [|row rows] eqn:Hrows.
    + destruct Hu as (Hmono & evs & Hevs & Hnd & Hids). split; [done|].
      exists evs. split_and!; [|done..].
      unfold emitted in *. simpl. by rewrite Hrows, app_nil_r.
    + apply (once_other s0 u _ (EvTableAdditions (row :: rows))); try done.
      unfold emitted. simpl. by rewrite Hrows.
Qed.

(** X6 (one message per identifier).  During a launch, over any number of
    passes and whatever the snapshots, no identifier gets two messages, and
    none that the state file listed when the launch began gets one. *)
Theorem launch_notifies_once hide loop envs s :
  ∃ evs,
    emitted s (additions hide loop envs s).2 evs ∧
    NoDup (notified_ids evs) ∧
    ∀ id, id ∈ notified_ids evs → id ∉ default [] (state_file s).
Proof.
  rewrite additions_eq.
  assert (once (reload s)
            (while_true loop (additions_cycle hide) envs (reload s)).2)
    as (_ & evs & Hevs & Hnd & Hids).
  { apply while_true_inv.
    - intros env t _. apply once_cycle.
    - split; [done|]. exists []. unfold emitted. rewrite app_nil_r.
      split_and!; [done|apply NoDup_nil_2|].
      intros id Hin. by apply elem_of_nil in Hin. }
  exists evs. split_and!; [done..|].
  intros id [_ Hnew]%Hids Hin. apply Hnew. simpl.
  by apply elem_of_list_to_set.
Qed.

(** X7 (the state file only grows).  An identifier listed in the state
    file is still listed after any sequence of launches, each with its own
    flags, snapshots and way of ending, and none of them sends a message
    for it. *)
Theorem filed_id_stays_filed (ls : list launch) s id :
  id ∈ default [] (state_file s) →
  id ∈ default [] (state_file (run_launches ls s)) ∧
  ∃ evs, emitted s (run_launches ls s) evs ∧ id ∉ notified_ids evs.
Proof.
  intros Hfiled.
  assert ((∃ l, state_file (run_launches ls s) = Some l ∧ id ∈ l) ∧
          since s (quiet_about id) (run_launches ls s)) as [(l & Hl & Hid) Hq].
  { assert (∀ t, (∃ l, state_file t = Some l ∧ id ∈ l) ∧
                 since s (quiet_about id) t →
                 (∃ l, state_file (run_launches ls t) = Some l ∧ id ∈ l) ∧
                 since s (quiet_about id) (run_launches ls t)) as Hgen.
    { induction ls as [|l ls IH]; intros t Ht; [done|].
      simpl. apply IH. unfold run_launch. rewrite additions_eq.
      destruct Ht as [(l0 & Hl0 & Hid0) Hq0].
      assert (settled id s (reload t)) as Hsettled.
      { split_and!; [|by exists l0|done].
        simpl. rewrite Hl0. simpl. by apply elem_of_list_to_set. }
      destruct (while_true_inv (settled id s) (l_loop l)
                  (additions_cycle (l_hide_adult_content l)) (l_envs l))
        with (s := reload t) as (_ & ? & ?); try done.
      intros env u _. apply settled_cycle. }
    apply Hgen. split; [|apply since_refl].
    destruct (state_file s) as [l|]; [by exists l|].
    by apply elem_of_nil in Hfiled. }
  split; [by rewrite Hl|].
  apply since_elim in Hq as (evs & Hevs & HP).
  exists evs. split; [done|].
  unfold notified_ids, notified_mods.
  intros (m & Hm & (ev & Hev & Hx)%list_elem_of_omap)%list_elem_of_fmap.
  destruct ev; try done. injection Hx as ->.
  by apply (HP _ Hev m text).
Qed.

(** X8 (seen-set round trip).  A completed pass leaves a state file
    that lists every identifier of its seen-set once, in whatever order
    [list] put them; a new launch on that file, with any flags, enters its
    loop with that same seen-set; and a launch without a state file enters
    it with the empty set. *)
Theorem seen_set_round_trip hide env s s1 hide' loop' envs :
  additions_cycle hide env s = (Ok tt, s1) →
  (∃ ids, state_file s1 = Some ids ∧ ids ≡ₚ elements (seen_mods s1)) ∧
  (∀ t, state_file t = state_file s1 →
        additions hide' loop' envs t
        = while_true loop' (additions_cycle hide') envs
            {| seen_mods := seen_mods s1; new_mods_data := [];
               state_file := state_file s1; trace := trace t |}) ∧
  (∀ t, state_file t = None →
        additions hide' loop' envs t
        = while_true loop' (additions_cycle hide') envs
            {| seen_mods := ∅; new_mods_data := [];
               state_file := None; trace := trace t |}).
Proof.
  intros Hrun. rewrite additions_cycle_eq in Hrun.
  destruct (latest_added env) as [mods|e]; [|done].
  destruct (for_each _ _ _) as [[[]|e] s'] eqn:Hloop; [|done].
  injection Hrun as <-. split_and!.
  - exists (iter (seen_mods s')). split; [done|apply iter_perm].
  - intros t Ht. rewrite additions_eq. unfold reload. rewrite Ht. simpl.
    by rewrite list_to_set_iter.
  - intros t Ht. rewrite additions_eq. unfold reload. by rewrite Ht.
Qed.
End with_order.

End AdditionsMore.

(* ===================================================================== *)
(** ** The update tracker: further properties *)
(* ===================================================================== *)

Module UpdatesMore.
Import Py PyFacts ProgFacts Updates UpdatesFacts Observed.

(** The item of an identifier whose entry is up to date does nothing. *)
Lemma updates_item_idle env (updated_mod_data : gmap Z Z) id s :
  idle updated_mod_data id s →
  updates_item env updated_mod_data id s = (Ok tt, s).
Proof.
  intros (entry & Hentry & Hidle). unfold updates_item, bind, get. simpl.
  rewrite Hentry. simpl. destruct Hidle as [-> | ->]; [done|].
  rewrite bool_decide_eq_false_2 by (intros Hne; by apply Hne).
  by rewrite andb_false_r.
Qed.

Lemma truthy_str_nonempty (v : string) : truthy_str v = true → v ≠ "".
Proof. by destruct v. Qed.

Lemma truthy_int_Some (n : option Z) :
  truthy_int n = true → ∃ z, n = Some z ∧ z ≠ 0.
Proof.
  destruct n as [z|]; [|done]. simpl. intros Hz%negb_true_iff%Z.eqb_neq.
  by exists z.
Qed.

(** One item, in one piece: what it emits is about [id]; beyond the
    request for the details it emits something only on a confirmed change;
    it removes no cache entry; and when it ends normally the entry of [id]
    is up to date. *)
Lemma updates_item_acts env (updated_mod_data : gmap Z Z) id s :
  ∃ evs,
    emitted s (updates_item env updated_mod_data id s).2 evs ∧
    (Forall (λ ev, ev = EvFetchMod id) evs ∨
     confirmed env updated_mod_data s id) ∧
    (∀ k, is_Some (local_cache s !! k) →
          is_Some (local_cache (updates_item env updated_mod_data id s).2 !! k)) ∧
    ((updates_item env updated_mod_data id s).1 = Ok tt →
     idle updated_mod_data id (updates_item env updated_mod_data id s).2).
Proof.
  assert (∀ (c : gmap Z cache_entry) v k,
            is_Some (c !! k) → is_Some (<[id := v]> c !! k)) as Hkeep.
  { intros c v k Hk. destruct (decide (id = k)) as [->|Hne].
    - rewrite lookup_insert_eq. by eexists.
    - by rewrite lookup_insert_ne. }
  assert (∀ (c : gmap Z cache_entry) d rows f tr,
            idle updated_mod_data id
              {| local_cache := <[id := entry_of d (updated_mod_data !! id)]> c;
                 mods_with_new_version := rows; cache_file := f;
                 trace := tr |}) as Hidle.
  { intros c d rows f tr. eexists. simpl. rewrite lookup_insert_eq.
    split; [done|]. by right. }
  unfold updates_item, bind, get. simpl.
  destruct (local_cache s !! id) as [entry|] eqn:Hentry; simpl.
  2:{ unfold fetch_mod, bind, log, lift, modify, set_local_cache. simpl.
      destruct (mod_details env id) as [d|e]; simpl;
        (exists [EvFetchMod id]; split_and!;
         [done|left; by apply Forall_singleton|auto|auto]).
      intros [=]. }
  destruct (truthy_int (updated_mod_data !! id)
            && bool_decide (ce_latest_file_update entry
                            ≠ updated_mod_data !! id)) eqn:Hcond.
  2:{ exists []. split_and!; [apply emitted_refl|by left|done|].
      intros _. exists entry. split; [done|].
      apply andb_false_iff in Hcond as [?|Hsame]; [by left|right].
      apply bool_decide_eq_false in Hsame.
      destruct (decide (updated_mod_data !! id = ce_latest_file_update entry));
        [done|]. destruct Hsame. congruence. }
  apply andb_true_iff in Hcond as [(latest & Hnew & Hnz)%truthy_int_Some Hmoved].
  apply bool_decide_eq_true in Hmoved.
  unfold fetch_mod, bind, log, lift, modify. simpl.
  destruct (mod_details env id) as [d|e] eqn:Hd; simpl.
  2:{ exists [EvFetchMod id]. split_and!;
        [done|left; by apply Forall_singleton|done|intros [=]]. }
  destruct (truthy_str (ce_version entry) && truthy_str (version d)
            && bool_decide (ce_version entry ≠ version d)) eqn:Hver; simpl.
  2:{ unfold set_local_cache, modify. simpl.
      exists [EvFetchMod id]. split_and!;
        [done|left; by apply Forall_singleton|auto|auto]. }
  apply andb_true_iff in Hver as [[Hold%truthy_str_nonempty
                                    Hcur%truthy_str_nonempty]%andb_true_iff
                                    Hdiff%bool_decide_eq_true].
  assert (confirmed env updated_mod_data s id) as Hconf.
  { exists entry, latest, d. split_and!; try done. congruence. }
  unfold fetch_mod_changelogs, bind, log, lift, modify, ret. simpl.
  destruct (changelogs env id) as [raw|e]; simpl.
  2:{ eexists. split; [|split_and!; [by right|done|intros [=]]].
      unfold emitted. simpl. by rewrite <- app_assoc. }
  unfold name_of. destruct (name d) as [nm|]; simpl.
  2:{ eexists. split; [|split_and!; [by right|done|intros [=]]].
      unfold emitted. simpl. by rewrite <- app_assoc. }
  unfold send_telegram_message, bind, log, modify. simpl.
  destruct (telegram env _) as [e|]; simpl.
  { eexists. split; [|split_and!; [by right|done|intros [=]]].
    unfold emitted. simpl. by rewrite <- !app_assoc. }
  eexists. split; [|split_and!; [by right|auto|auto]].
  unfold emitted. simpl. by rewrite <- !app_assoc.
Qed.

Lemma emitted_unique s s' evs1 evs2 :
  emitted s s' evs1 → emitted s s' evs2 → evs1 = evs2.
Proof. unfold emitted. intros -> Heq. by apply app_inv_head in Heq. Qed.

Lemma emitted_trans s t u evs1 evs2 :
  emitted s t evs1 → emitted t u evs2 → emitted s u (evs1 ++ evs2).
Proof. unfold emitted. intros Ht ->. by rewrite Ht, app_assoc. Qed.

Lemma confirmed_same_cache env (updated_mod_data : gmap Z Z) s t id :
  local_cache t !! id = local_cache s !! id →
  confirmed env updated_mod_data t id → confirmed env updated_mod_data s id.
Proof.
  intros Heq (entry & latest & d & Hentry & ?). exists entry, latest, d.
  split; [congruence|done].
Qed.

(** Changelogs are requested and messages sent only for the identifiers of
    the loop that show a confirmed change in the state the loop starts
    from; each identifier is visited once. *)
Lemma for_each_due env (updated_mod_data : gmap Z Z) (l : list Z) :
  NoDup l →
  ∀ t, ∃ evs,
    emitted t (for_each l (updates_item env updated_mod_data) t).2 evs ∧
    ∀ id, EvFetchChangelogs id ∈ evs ∨ (∃ text, EvNotifyUpdate id text ∈ evs) →
          id ∈ l ∧ confirmed env updated_mod_data t id.
Proof.
  induction l as [|x l IH]; intros Hnd t.
  { exists []. split; [apply emitted_refl|].
    intros id [Hin|[text Hin]]; by apply elem_of_nil in Hin. }
  apply NoDup_cons in Hnd as [Hx Hnd].
  rewrite for_each_cons.
  destruct (updates_item_acts env updated_mod_data x t)
    as (evs & Hevs & Hdue & _).
  destruct (updates_item_frame env updated_mod_data x t)
    as (_ & Hcache & (evs' & Hevs' & Hcon) & _).
  rewrite <- (emitted_unique _ _ _ _ Hevs Hevs') in Hcon. clear evs' Hevs'.
  assert (∀ id, EvFetchChangelogs id ∈ evs ∨
                (∃ text, EvNotifyUpdate id text ∈ evs) →
                id = x ∧ confirmed env updated_mod_data t x) as Hmine.
  { intros id Hin. rewrite Forall_forall in Hcon.
    assert (id = x) as ->.
    { destruct Hin as [Hin|[text Hin]];
        destruct (Hcon _ Hin) as [?|[?|[? ?]]]; congruence. }
    split; [done|]. destruct Hdue as [Hfetch|?]; [|done].
    rewrite Forall_forall in Hfetch.
    destruct Hin as [Hin|[text Hin]]; by specialize (Hfetch _ Hin). }
  destruct (updates_item env updated_mod_data x t) as [[[]|e] t1]; simpl in *.
  2:{ exists evs. split; [done|]. intros id [-> ?]%Hmine.
      split; [left|done]. }
  destruct (IH Hnd t1) as (evs_r & Hevs_r & Hrest).
  exists (evs ++ evs_r). split; [by eapply emitted_trans|].
  intros id Hin.
  assert ((EvFetchChangelogs id ∈ evs ∨ (∃ text, EvNotifyUpdate id text ∈ evs))
          ∨ (EvFetchChangelogs id ∈ evs_r ∨
             (∃ text, EvNotifyUpdate id text ∈ evs_r))) as [Hl|Hr].
  { destruct Hin as [[?|?]%elem_of_app|[text [?|?]%elem_of_app]]; eauto. }
  - destruct (Hmine _ Hl) as [-> ?]. split; [left|done].
  - destruct (Hrest _ Hr) as [Hid Hconf]. split; [by right|].
    eapply confirmed_same_cache; [|exact Hconf].
    apply Hcache. intros ->. done.
Qed.

Section passes.
Context `{SetOrder}.

Lemma NoDup_iter (ids : gset Z) : NoDup (iter ids).
Proof. rewrite iter_perm. apply NoDup_elements. Qed.

(** The same for a whole pass, however it ends. *)
Lemma updates_cycle_due hide game env s :
  ∃ evs,
    emitted s (updates_cycle hide game env s).2 evs ∧
    ∀ id, EvFetchChangelogs id ∈ evs ∨ (∃ text, EvNotifyUpdate id text ∈ evs) →
          ∃ updated_mods,
            updated env = Ok updated_mods ∧
            confirmed env
              (dict_comp um_mod_id um_latest_file_update updated_mods) s id.
Proof.
  assert (∀ ev, ¬ (∃ id, concerns id ev) ↔
                (∀ id, ev ≠ EvFetchMod id) ∧ (∀ id, ev ≠ EvFetchChangelogs id) ∧
                ∀ id text, ev ≠ EvNotifyUpdate id text) as Hbulk.
  { intros ev. unfold concerns. split.
    - intros Hno. split_and!; intros; intros ->; apply Hno; eauto.
    - intros (H1 & H2 & H3) (id & [->|[->|[text ->]]]);
        [by apply (H1 id)|by apply (H2 id)|by apply (H3 id text)]. }
  assert (∀ (pre body post : list event) (P : Z → Prop),
            Forall (λ ev, ¬ ∃ id, concerns id ev) pre →
            Forall (λ ev, ¬ ∃ id, concerns id ev) post →
            (∀ id, EvFetchChangelogs id ∈ body ∨
                   (∃ text, EvNotifyUpdate id text ∈ body) → P id) →
            ∀ id, EvFetchChangelogs id ∈ pre ++ body ++ post ∨
                  (∃ text, EvNotifyUpdate id text ∈ pre ++ body ++ post) →
                  P id) as Hwrap.
  { intros pre body post P Hpre Hpost Hbody id Hin.
    rewrite Forall_forall in Hpre, Hpost.
    assert (∀ ev, concerns id ev → ev ∈ pre ++ body ++ post → ev ∈ body)
      as Hmid.
    { intros ev Hc [Hp|[?|Hp]%elem_of_app]%elem_of_app; [|done|].
      - destruct (Hpre _ Hp). by exists id.
      - destruct (Hpost _ Hp). by exists id. }
    apply Hbody. destruct Hin as [Hin|[text Hin]].
    - left. apply Hmid; [|done]. right. by left.
    - right. exists text. apply Hmid; [|done]. right. right. by exists text. }
  assert (∀ id, EvFetchChangelogs id ∈ [] ∨
                (∃ text, EvNotifyUpdate id text ∈ []) →
                ∃ updated_mods,
                  updated env = Ok updated_mods ∧
                  confirmed env
                    (dict_comp um_mod_id um_latest_file_update updated_mods)
                    s id) as Hnone.
  { intros id [Hin|[text Hin]]; by apply elem_of_nil in Hin. }
  assert (∀ (errs : list exn) (t : state),
            Forall (λ ev, ¬ ∃ id, concerns id ev)
              ((EvError <$> errs) ++ match mods_with_new_version t with
                                     | [] => []
                                     | rows => [EvTableUpdates rows]
                                     end)) as Hpost.
  { intros errs t. apply Forall_app. split.
    - apply Forall_fmap, Forall_true. intros e. by apply Hbulk.
    - destruct (mods_with_new_version t); [done|].
      apply Forall_singleton. by apply Hbulk. }
  rewrite updates_cycle_eq, cycle_body_eq. simpl.
  destruct (updated env) as [updated_mods|e] eqn:Hupd; simpl.
  2:{ exists ([EvFetchUpdated] ++ []
              ++ (EvError <$> [e])
              ++ match mods_with_new_version
                         (logged (EvError e) (logged EvFetchUpdated s)) with
                 | [] => []
                 | rows => [EvTableUpdates rows]
                 end).
      split; [unfold emitted; simpl; by rewrite <- !app_assoc|].
      apply Hwrap; [|apply Hpost|done].
      apply Forall_singleton. by apply Hbulk. }
  assert (Forall (λ ev, ¬ ∃ id, concerns id ev) [EvFetchUpdated; EvFetchTracked])
    as Hpre.
  { repeat (apply Forall_cons; split; [by apply Hbulk|]). done. }
  destruct (tracked_mods env) as [tracked|e]; simpl.
  2:{ exists ([EvFetchUpdated; EvFetchTracked] ++ []
              ++ (EvError <$> [e])
              ++ match mods_with_new_version
                         (logged (EvError e) (logged EvFetchUpdated s)) with
                 | [] => []
                 | rows => [EvTableUpdates rows]
                 end).
      split; [unfold emitted; simpl; by rewrite <- !app_assoc|].
      apply Hwrap; [done|apply Hpost|done]. }
  destruct (filtered_ids hide (for_game game tracked)) as [ids|e]; simpl.
  2:{ exists ([EvFetchUpdated; EvFetchTracked] ++ []
              ++ (EvError <$> [e])
              ++ match mods_with_new_version
                         (logged (EvError e) (logged EvFetchUpdated s)) with
                 | [] => []
                 | rows => [EvTableUpdates rows]
                 end).
      split; [unfold emitted; simpl; by rewrite <- !app_assoc|].
      apply Hwrap; [done|apply Hpost|done]. }
  destruct (for_each_due env
              (dict_comp um_mod_id um_latest_file_update updated_mods)
              (iter ids) (NoDup_iter ids)
              (logged EvFetchTracked (logged EvFetchUpdated s)))
    as (evs & Hevs & Hdue).
  assert (∀ id, EvFetchChangelogs id ∈ evs ∨
                (∃ text, EvNotifyUpdate id text ∈ evs) →
                ∃ ums, Ok updated_mods = Ok ums ∧
                       confirmed env
                         (dict_comp um_mod_id um_latest_file_update ums) s id)
    as Hdue'.
  { intros id [_ Hc]%Hdue. exists updated_mods. split; [done|].
    eapply confirmed_same_cache; [|exact Hc]. done. }
  unfold emitted in Hevs.
  destruct (for_each _ _ _) as [[[]|e] s'] eqn:Hloop; simpl in *.
  - exists ([EvFetchUpdated; EvFetchTracked] ++ evs
            ++ (EvError <$> [])
            ++ match mods_with_new_version s' with
               | [] => []
               | rows => [EvTableUpdates rows]
               end).
    split; [unfold emitted; simpl; rewrite Hevs; simpl;
            by rewrite <- !app_assoc|].
    apply Hwrap; [done|apply Hpost|done].
  - exists ([EvFetchUpdated; EvFetchTracked] ++ evs
            ++ (EvError <$> [e])
            ++ match mods_with_new_version s' with
               | [] => []
               | rows => [EvTableUpdates rows]
               end).
    split; [unfold emitted; simpl; rewrite Hevs; simpl;
            by rewrite <- !app_assoc|].
    apply Hwrap; [done|apply (Hpost [e] s')|done].
Qed.

(** X9 (no undue update message).  In a steady-state pass, however it
    ends, changelogs are requested and a message is sent for an identifier
    only when the pass began with a cache entry for it, the remote-updated
    map holds a non-zero timestamp for it that differs from the cached one,
    and the fetched version and the cached version are non-empty and
    differ. *)
Theorem update_message_is_due hide game env s r s1 :
  updates_cycle hide game env s = (r, s1) →
  ∃ evs,
    emitted s s1 evs ∧
    ∀ id, EvFetchChangelogs id ∈ evs ∨ (∃ text, EvNotifyUpdate id text ∈ evs) →
          ∃ updated_mods,
            updated env = Ok updated_mods ∧
            confirmed env
              (dict_comp um_mod_id um_latest_file_update updated_mods) s id.
Proof.
  intros Hrun. destruct (updates_cycle_due hide game env s) as (evs & Hevs & Hdue).
  rewrite Hrun in Hevs. by exists evs.
Qed.

(** X10 (first sight is silent).  An identifier without a cache entry when
    a steady-state pass begins gets no message and no changelog request in
    that pass. *)
Theorem first_sight_is_silent hide game env s id r s1 :
  local_cache s !! id = None →
  updates_cycle hide game env s = (r, s1) →
  ∃ evs,
    emitted s s1 evs ∧
    (EvFetchChangelogs id ∉ evs) ∧
    ∀ text, EvNotifyUpdate id text ∉ evs.
Proof.
  intros Hnew Hrun.
  destruct (updates_cycle_due hide game env s) as (evs & Hevs & Hdue).
  rewrite Hrun in Hevs. exists evs. split; [done|].
  assert (∀ ums, ¬ confirmed env
                     (dict_comp um_mod_id um_latest_file_update ums) s id)
    as Hnot.
  { intros ums (entry & ? & ? & Hentry & _). congruence. }
  split.
  - intros Hin. destruct (Hdue id) as (ums & _ & Hc); [by left|].
    by apply (Hnot ums).
  - intros text Hin. destruct (Hdue id) as (ums & _ & Hc); [right; by exists text|].
    by apply (Hnot ums).
Qed.

(** What a pass establishes when it ends normally, and later passes keep,
    holds at the end of a loop that was not left by an exception. *)
Lemma for_each_post_ok {S A} (body : A → M S unit) (Q : A → S → Prop)
    (l : list A) :
  (∀ x s s', x ∈ l → body x s = (Ok tt, s') → Q x s') →
  (∀ x y s, x ∈ l → y ∈ l → Q x s → Q x (body y s).2) →
  ∀ s s', for_each l body s = (Ok tt, s') → ∀ x, x ∈ l → Q x s'.
Proof.
  induction l as [|y l IH]; intros Hest Hkeep s s' Hrun x Hx.
  { by apply elem_of_nil in Hx. }
  rewrite for_each_cons in Hrun.
  destruct (body y s) as [[[]|e] s1] eqn:Hb; [|done].
  apply elem_of_cons in Hx as [->|Hx].
  - assert (Q y s1) as Hy by (eapply Hest; [left|exact Hb]).
    pose proof (for_each_inv body (Q y) l) as Hinv.
    specialize (Hinv ltac:(intros z t Hz Ht; apply Hkeep;
                             [left|by right|done]) s1 Hy).
    by rewrite Hrun in Hinv.
  - eapply IH; [| |exact Hrun|exact Hx].
    + intros z t t' Hz. apply Hest. by right.
    + intros z1 z2 t Hz1 Hz2. apply Hkeep; by right.
Qed.

Lemma idle_kept env (updated_mod_data : gmap Z Z) x y s :
  idle updated_mod_data x s →
  idle updated_mod_data x (updates_item env updated_mod_data y s).2.
Proof.
  intros Hidle. destruct (decide (y = x)) as [->|Hne].
  - by rewrite updates_item_idle.
  - destruct (updates_item_frame env updated_mod_data y s)
      as (_ & Hcache & _).
    destruct Hidle as (entry & Hentry & ?). exists entry.
    split; [|done]. rewrite Hcache; [done|]. by intros ->.
Qed.

(** The guarded body, when it ends normally, has saved the cache. *)
Lemma cycle_body_saved hide game env s sb :
  cycle_body hide game env s = (Ok tt, sb) →
  cache_file sb = Some (dump_cache (local_cache sb)).
Proof.
  rewrite cycle_body_eq.
  destruct (updated env); [|done]. simpl.
  destruct (tracked_mods env); [|done].
  destruct (filtered_ids _ _); [|done].
  destruct (for_each _ _ _) as [[[]|e] s']; [|done].
  by intros [= <-].
Qed.

(** X11 (idempotence).  After a steady-state pass whose body ended
    normally, a second pass with the same flags on the same remote answers
    only fetches the two lists: no details or changelogs are requested, no
    message is sent, and the cache and the state file stay as they were. *)
Theorem updates_second_pass_silent hide game env s sb :
  cycle_body hide game env s = (Ok tt, sb) →
  ∃ s2,
    updates_cycle hide game env (tabled sb) = (Ok tt, s2) ∧
    emitted (tabled sb) s2 [EvFetchUpdated; EvFetchTracked] ∧
    local_cache s2 = local_cache sb ∧
    cache_file s2 = cache_file sb.
Proof.
  intros Hfirst. pose proof (cycle_body_saved _ _ _ _ _ Hfirst) as Hsaved.
  rewrite cycle_body_eq in Hfirst.
  rewrite updates_cycle_eq, cycle_body_eq.
  destruct (updated env) as [updated_mods|e]; [|done]. simpl in *.
  destruct (tracked_mods env) as [tracked|e]; [|done].
  destruct (filtered_ids hide (for_game game tracked)) as [ids|e]; [|done].
  destruct (for_each _ _ (logged EvFetchTracked (logged EvFetchUpdated s)))
    as [[[]|e] s'] eqn:Hloop; [|done].
  injection Hfirst as <-.
  assert (∀ id, id ∈ iter ids →
                idle (dict_comp um_mod_id um_latest_file_update updated_mods)
                  id s') as Hidle.
  { eapply for_each_post_ok; [| |exact Hloop].
    - intros x t t' _ Hx.
      destruct (updates_item_acts env
                  (dict_comp um_mod_id um_latest_file_update updated_mods) x t)
        as (_ & _ & _ & _ & Hok).
      rewrite Hx in Hok. by apply Hok.
    - intros x y t _ _. apply idle_kept. }
  rewrite for_each_noop.
  - eexists. split; [reflexivity|]. simpl in *.
    split_and!; [|done|done].
    unfold emitted. simpl. by rewrite <- !app_assoc.
  - intros id Hid. apply updates_item_idle.
    destruct (Hidle id Hid) as (entry & ? & ?). by exists entry.
Qed.

(** X12 (the cache keeps its entries).  An identifier with a cache entry
    still has one after any number of steady-state passes, whatever the
    remote answers and however the passes end. *)
Theorem cache_never_shrinks hide game loop envs s k :
  is_Some (local_cache s !! k) →
  is_Some (local_cache
             (while_true loop (updates_cycle hide game) envs s).2 !! k).
Proof.
  intros Hk.
  apply (while_true_inv (λ t, is_Some (local_cache t !! k))); [|done].
  intros env t _.
  apply (updates_cycle_inv hide game env (λ t, is_Some (local_cache t !! k)));
    try done.
  intros updated_mods id u _ Hu.
  destruct (updates_item_acts env
              (dict_comp um_mod_id um_latest_file_update updated_mods) id u)
    as (_ & _ & _ & Hkeep & _).
  by apply Hkeep.
Qed.

(** X13 (a failed pass saves nothing).  When the guarded body of a pass is
    left by an exception, the state file is as it was before the pass,
    while the entries already refreshed stay in the cache in memory. *)
Theorem failed_body_saves_nothing hide game env s e sb :
  cycle_body hide game env s = (Raise e, sb) →
  cache_file (updates_cycle hide game env s).2 = cache_file s ∧
  ∀ k, is_Some (local_cache s !! k) →
       is_Some (local_cache (updates_cycle hide game env s).2 !! k).
Proof.
  intros Hbody. rewrite updates_cycle_eq, Hbody. simpl.
  rewrite cycle_body_eq in Hbody.
  destruct (updated env) as [updated_mods|e1]; simpl in *.
  2:{ by injection Hbody as _ <-. }
  destruct (tracked_mods env) as [tracked|e1].
  2:{ by injection Hbody as _ <-. }
  destruct (filtered_ids hide (for_game game tracked)) as [ids|e1].
  2:{ by injection Hbody as _ <-. }
  pose proof (for_each_inv
                (updates_item env
                   (dict_comp um_mod_id um_latest_file_update updated_mods))
                (λ t, cache_file t = cache_file s ∧
                      ∀ k, is_Some (local_cache s !! k) →
                           is_Some (local_cache t !! k))
                (iter ids)) as Hloop.
  destruct Hloop with (s := logged EvFetchTracked (logged EvFetchUpdated s))
    as [Hfile Hkeep].
  - intros id t _ [Hf Hk].
    destruct (updates_item_frame env
                (dict_comp um_mod_id um_latest_file_update updated_mods) id t)
      as (Hf' & _).
    destruct (updates_item_acts env
                (dict_comp um_mod_id um_latest_file_update updated_mods) id t)
      as (_ & _ & _ & Hk' & _).
    split; [by rewrite Hf'|]. intros k ?. apply Hk'. by apply Hk.
  - done.
  - destruct (for_each _ _ _) as [[[]|e1] s']; [done|].
    by injection Hbody as _ <-.
Qed.

Lemma load_cache_dump (c : gmap Z cache_entry) :
  load_cache (Some (dump_cache c)) = Ok c.
Proof.
  unfold load_cache, dump_cache. simpl.
  rewrite cache_of_items_dump. f_equal.
  rewrite foldl_insert_fresh.
  - by rewrite (right_id_L ∅ (∪)), list_to_map_to_list.
  - apply NoDup_fst_map_to_list.
  - intros k _. apply lookup_empty.
Qed.

(** X14 (a launch resumes where the last pass left off).  After a pass
    whose body ended normally with a non-empty cache, a new launch on the
    state file that pass wrote -- with any flags -- reads that cache back,
    skips the initial population and goes straight to the steady-state
    loop. *)
Theorem relaunch_resumes hide game env s sb
    hide' loop' game' boot envs t :
  cycle_body hide game env s = (Ok tt, sb) →
  local_cache sb ≠ ∅ →
  cache_file t = cache_file sb →
  updates hide' loop' game' boot envs t
  = while_true loop' (updates_cycle hide' game') envs
      (loaded (local_cache sb) t).
Proof.
  intros Hbody Hne Hfile.
  apply cycle_body_saved in Hbody.
  unfold updates, bind, get, lift, modify. simpl.
  rewrite Hfile, Hbody, load_cache_dump.
  rewrite bootstrap_eq. simpl.
  rewrite decide_False by done.
  unfold loaded. by rewrite Hfile, Hbody.
Qed.

(** The initial population, item by item. *)
Lemma for_each_bootstrap env (updated_mod_data : gmap Z Z) (l : list Z) t t' :
  for_each l (bootstrap_item env updated_mod_data) t = (Ok tt, t') →
  trace t' = trace t ++ (EvFetchMod <$> l) ∧
  cache_file t' = cache_file t ∧
  (∀ k, k ∉ l → local_cache t' !! k = local_cache t !! k) ∧
  (∀ k, k ∈ l →
        ∃ d, mod_details env k = Ok d ∧
             local_cache t' !! k
             = Some (entry_of d (updated_mod_data !! k))).
Proof.
  revert t. induction l as [|x l IH]; intros t Hrun.
  { injection Hrun as <-. rewrite app_nil_r. split_and!; try done.
    intros k Hk. by apply elem_of_nil in Hk. }
  rewrite for_each_cons in Hrun.
  unfold bootstrap_item, fetch_mod, bind, log, lift, modify, set_local_cache
    in Hrun. simpl in Hrun.
  destruct (mod_details env x) as [d|e] eqn:Hd; [|done]. simpl in Hrun.
  destruct (IH _ Hrun) as (Htr & Hfile & Hout & Hin). simpl in *.
  split_and!.
  - rewrite Htr. by rewrite <- app_assoc.
  - done.
  - intros k [Hkx Hkl]%not_elem_of_cons.
    rewrite (Hout k Hkl). by rewrite lookup_insert_ne.
  - intros k [->|Hk]%elem_of_cons; [|by apply Hin].
    destruct (decide (x ∈ l)) as [Hxl|Hxl]; [by apply Hin|].
    exists d. split; [done|]. rewrite (Hout x Hxl). by rewrite lookup_insert_eq.
Qed.

(** X15 (what the initial population leaves).  A population that ends
    normally has requested the two lists and then the details of each
    tracked mod of the game once; the cache holds exactly those
    identifiers, each with the fetched version and adult flag and the
    timestamp of the remote-updated map (none when the map has none); and
    the state file holds that cache. *)
Theorem bootstrap_seeds_tracked game env s s' :
  local_cache s = ∅ →
  bootstrap game env s = (Ok tt, s') →
  ∃ updated_mods tracked,
    updated env = Ok updated_mods ∧
    tracked_mods env = Ok tracked ∧
    dom (local_cache s')
    = list_to_set (tm_mod_id <$> for_game game tracked) ∧
    (∀ id, id ∈ dom (local_cache s') →
           ∃ d, mod_details env id = Ok d ∧
                local_cache s' !! id
                = Some {| ce_version := version d;
                          ce_is_adult := contains_adult_content d;
                          ce_latest_file_update :=
                            dict_comp um_mod_id um_latest_file_update
                              updated_mods !! id |}) ∧
    emitted s s'
      (EvFetchUpdated :: EvFetchTracked
         :: (EvFetchMod
               <$> iter (list_to_set (tm_mod_id <$> for_game game tracked)))) ∧
    cache_file s' = Some (dump_cache (local_cache s')).
Proof.
  intros Hempty Hrun. rewrite bootstrap_eq in Hrun.
  rewrite decide_True in Hrun by done.
  destruct (updated env) as [updated_mods|e]; [|done]. simpl in Hrun.
  destruct (tracked_mods env) as [tracked|e]; [|done].
  destruct (for_each _ _ _) as [[[]|e] s1] eqn:Hloop; [|done].
  injection Hrun as <-.
  destruct (for_each_bootstrap _ _ _ _ _ Hloop) as (Htr & Hfile & Hout & Hin).
  simpl in *.
  assert (dom (local_cache s1)
          = list_to_set (tm_mod_id <$> for_game game tracked)) as Hdom.
  { apply set_eq. intros k. rewrite elem_of_dom.
    destruct (decide (k ∈ iter (list_to_set
                                  (tm_mod_id <$> for_game game tracked))))
      as [Hk|Hk].
    - destruct (Hin k Hk) as (d & _ & ->). apply elem_of_iter in Hk.
      split; [done|]. by eexists.
    - rewrite (Hout k Hk), Hempty, lookup_empty.
      rewrite elem_of_iter in Hk. split; [by intros [? ?]|done]. }
  exists updated_mods, tracked. split_and!; try done.
  - intros id Hid. apply Hin. apply elem_of_iter. by rewrite <- Hdom.
  - unfold emitted. simpl. rewrite Htr. simpl. by rewrite <- !app_assoc.
Qed.
End passes.

Lemma cache_of_items_first_bad (pre post : list (string * cache_entry))
    (acc : gmap Z cache_entry) k v :
  Forall (λ kv, is_Some (int_of_str kv.1)) pre →
  int_of_str k = None →
  cache_of_items (pre ++ (k, v) :: post) acc = Raise (ValueError k).
Proof.
  intros Hpre Hbad. revert acc.
  induction Hpre as [|[k0 v0] pre [n Hk0] _ IH]; intros acc; simpl.
  - by rewrite Hbad.
  - simpl in Hk0. rewrite Hk0. apply IH.
Qed.

(** X16 (a state file with a bad key).  When the first key of the state
    file that [int] does not read holds a letter, [updates] ends with
    [ValueError] on that key before anything is requested, sent or written:
    the state is as it was. *)
Theorem corrupt_state_file_aborts_launch `{SetOrder}
    hide loop game boot envs s pre k v post :
  cache_file s = Some (pre ++ (k, v) :: post) →
  Forall (λ kv, is_Some (int_of_str kv.1)) pre →
  has_letter k = true →
  updates hide loop game boot envs s = (Raise (ValueError k), s).
Proof.
  intros Hfile Hpre Hbad. apply PyFacts.int_of_str_letter in Hbad.
  unfold updates, bind, get, lift. simpl.
  unfold load_cache. rewrite Hfile. simpl.
  by rewrite (cache_of_items_first_bad pre post ∅ k v Hpre Hbad).
Qed.

(** X17 (the game filter).  [fetch_tracked_mods] keeps, in their order,
    the entries whose game is the given one, and all of them when no game
    is given. *)
Theorem tracked_mods_of_game game env s tracked :
  tracked_mods env = Ok tracked →
  ∃ l,
    fetch_tracked_mods game env s = (Ok l, logged EvFetchTracked s) ∧
    l `sublist_of` tracked ∧
    ∀ tm, tm ∈ l ↔ tm ∈ tracked ∧ (game = "" ∨ tm_domain_name tm = game).
Proof.
  intros Henv. exists (for_game game tracked). split_and!.
  - unfold fetch_tracked_mods, bind, log, lift, modify, ret. simpl.
    by rewrite Henv.
  - unfold for_game. destruct (truthy_str game); [apply sublist_filter|done].
  - intros tm. unfold for_game. destruct game as [|a game]; simpl.
    + split; [intros ?; split; [done|by left]|by intros [? _]].
    + rewrite list_elem_of_filter. split.
      * intros [? ?]. split; [done|by right].
      * intros [? [?|?]]; [done|by split].
Qed.

(** X18 (the adult-content filter of the update tracker).  With the policy
    off no flag is read and every tracked identifier is kept.  With the
    policy on and a flag on every entry, the identifiers kept are those of
    the entries whose flag is false. *)
Theorem filtered_ids_keeps (l : list tracked_mod) :
  filtered_ids false l = Ok (list_to_set (tm_mod_id <$> l)) ∧
  (Forall (λ m, is_Some (tm_is_adult m)) l →
   filtered_ids true l
   = Ok (list_to_set
           (tm_mod_id <$> filter (λ m, tm_is_adult m = Some false) l))).
Proof.
  split.
  - induction l as [|m l IH]; csimpl; [done|]. by rewrite IH.
  - induction l as [|m l IH]; csimpl; [done|].
    intros [[adult Hm] Hl]%Forall_cons. rewrite Hm, (IH Hl).
    rewrite filter_cons. destruct adult; simpl.
    + by rewrite decide_False by (by rewrite Hm).
    + by rewrite decide_True by (by rewrite Hm).
Qed.

Lemma filtered_ids_missing (l : list tracked_mod) m :
  m ∈ l → tm_is_adult m = None →
  filtered_ids true l = Raise (KeyError "is_adult").
Proof.
  induction l as [|x l IH]; intros Hin Hm.
  { by apply elem_of_nil in Hin. }
  simpl. destruct (tm_is_adult x) as [adult|] eqn:Hx; [|done].
  apply elem_of_cons in Hin as [->|Hin]; [congruence|].
  by rewrite (IH Hin Hm).
Qed.

(** X19 (policy on, flag missing).  With the policy on, when an entry of
    the tracked list of the game has no ["is_adult"] key, the pass ends
    right after the two list requests: [KeyError] is caught and logged, no
    identifier is processed, and the cache and the state file are as they
    were. *)
Theorem policy_on_missing_flag_fails_pass `{SetOrder}
    game env s updated_mods tracked m :
  updated env = Ok updated_mods →
  tracked_mods env = Ok tracked →
  m ∈ for_game game tracked →
  tm_is_adult m = None →
  updates_cycle true game env s
  = (Ok tt, tabled (logged (EvError (KeyError "is_adult"))
                      (logged EvFetchTracked (logged EvFetchUpdated s)))).
Proof.
  intros Hupd Htr Hm Hflag.
  rewrite updates_cycle_eq, cycle_body_eq, Hupd. simpl.
  by rewrite Htr, (filtered_ids_missing _ m Hm Hflag).
Qed.

(** X20 (the reported entries are a tail).  Whatever the changelog and the
    cached version, the entries reported are a tail of the changelog, and
    the entry of the cached version itself is never among them. *)
Theorem new_versions_tail (raw : list (string * list string)) old_version :
  (∃ pre, dict_of raw = pre ++ new_versions (dict_of raw) old_version) ∧
  old_version ∉ keys (new_versions (dict_of raw) old_version).
Proof.
  pose proof (dict_of_NoDup raw) as Hnd.
  destruct (decide (old_version ∈ keys (dict_of raw))) as [Hin|Hout].
  - unfold keys in Hin.
    apply list_elem_of_fmap in Hin as ([k notes] & -> & Hin).
    apply list_elem_of_split in Hin as (pre & post & Hsplit). simpl.
    rewrite (new_versions_found _ pre post k notes Hnd Hsplit).
    split; [exists (pre ++ [(k, notes)]); by rewrite <- app_assoc|].
    rewrite Hsplit in Hnd. unfold keys in *. rewrite fmap_app in Hnd.
    apply NoDup_app in Hnd as (_ & _ & [? _]%NoDup_cons). done.
  - destruct (dict_of raw) as [|e cl] eqn:Hcl using rev_ind.
    + split; [by exists []|]. by vm_compute; intros ?%elem_of_nil.
    + rewrite (new_versions_missing _ cl old_version e Hout eq_refl).
      split; [by exists cl|].
      intros Hin. apply Hout. unfold keys in *. rewrite fmap_app.
      apply elem_of_app. by right.
Qed.

(** X21 (a mod without changelog).  On a confirmed version change of a mod
    whose changelog is empty, the message is still sent, with nothing under
    its changelog heading, no row is added to the report, and the cache
    entry is refreshed. *)
Theorem empty_changelog_still_notifies env (updated_mod_data : gmap Z Z) id s
    entry latest d nm :
  local_cache s !! id = Some entry →
  updated_mod_data !! id = Some latest →
  latest ≠ 0 →
  ce_latest_file_update entry ≠ Some latest →
  mod_details env id = Ok d →
  ce_version entry ≠ "" → version d ≠ "" → ce_version entry ≠ version d →
  changelogs env id = Ok [] →
  name d = Some nm →
  telegram env
    (message_text nm (author d) (domain_name d) id (ce_version entry)
       (version d) []) = None →
  updates_item env updated_mod_data id s
  = (Ok tt, reported id d nm entry (Some latest) [] s) ∧
  mods_with_new_version (reported id d nm entry (Some latest) [] s)
  = mods_with_new_version s ∧
  changelog_text [] = "".
Proof.
  intros Hentry Hnew Hnz Hmoved Hd Hold Hver Hdiff Hraw Hnm Hsend.
  split_and!.
  - by apply (updates_item_confirmed env updated_mod_data id s entry latest
                d nm []).
  - simpl. apply app_nil_r.
  - done.
Qed.

End UpdatesMore.

(* ===================================================================== *)
(** ** The expiring memo table: properties *)
(* ===================================================================== *)

Module MemoFacts.
Import Memo.

Section cache_with_expiry.
Context {K R T : Type} `{Countable K}.
Variable fresh : T → T → bool.
Implicit Types (s : @state K R T _ _) (func : K → outcome R).

(** The two ways through [wrapper]. *)
Lemma wrapper_eq func k now_check now_store s :
  wrapper fresh func k now_check now_store s =
  match served fresh s k now_check with
  | Some r => (Ok r, s)
  | None =>
      match func k with
      | Ok r => (Ok r, {| cache := <[k := (now_store, r)]> (cache s);
                          calls := calls s ++ [k] |})
      | Raise e => (Raise e, {| cache := cache s; calls := calls s ++ [k] |})
      end
  end.
Proof.
  unfold wrapper, served, bind, get. simpl.
  destruct (cache s !! k) as [[t r]|]; simpl.
  - destruct (fresh now_check t); [done|].
    unfold call, bind, modify, lift, ret. simpl. by destruct (func k).
  - unfold call, bind, modify, lift, ret. simpl. by destruct (func k).
Qed.

(** X22 (a result is served again).  After a call that returned [r], the
    table holds [r] for the key, stored at the time of that call unless it
    was itself served from the table; and any later call for the key made
    while that entry is fresh returns [r] without calling the function,
    whatever the function would answer by then. *)
Theorem memo_serves_again func k now_check now_store s r s1 :
  wrapper fresh func k now_check now_store s = (Ok r, s1) →
  ∃ t,
    cache s1 !! k = Some (t, r) ∧
    (t = now_store ∨ s1 = s) ∧
    ∀ func' now_check' now_store',
      fresh now_check' t = true →
      wrapper fresh func' k now_check' now_store' s1 = (Ok r, s1).
Proof.
  intros Hcall. rewrite wrapper_eq in Hcall.
  assert (∀ u t, cache u !! k = Some (t, r) →
                 ∀ func' now_check' now_store',
                   fresh now_check' t = true →
                   wrapper fresh func' k now_check' now_store' u = (Ok r, u))
    as Hhit.
  { intros u t Hu func' c' st' Hfresh. rewrite wrapper_eq. unfold served.
    by rewrite Hu, Hfresh. }
  unfold served in Hcall.
  destruct (cache s !! k) as [[t r0]|] eqn:Hentry.
  - destruct (fresh now_check t).
    + injection Hcall as -> <-. exists t. split_and!; [done|by right|].
      by apply Hhit.
    + destruct (func k) as [r1|e]; [|done]. injection Hcall as -> <-.
      exists now_store. simpl. rewrite lookup_insert_eq.
      split_and!; [done|by left|]. apply Hhit. simpl.
      by rewrite lookup_insert_eq.
  - destruct (func k) as [r1|e]; [|done]. injection Hcall as -> <-.
    exists now_store. simpl. rewrite lookup_insert_eq.
    split_and!; [done|by left|]. apply Hhit. simpl.
    by rewrite lookup_insert_eq.
Qed.

(** X23 (when the function is called).  A call of the wrapper calls the
    function at most once, with the key it was given, and exactly when the
    table has no entry for that key that is fresh at the time of the
    test. *)
Theorem memo_calls_when_stale func k now_check now_store s :
  calls (wrapper fresh func k now_check now_store s).2
  = calls s ++ match served fresh s k now_check with
               | Some _ => []
               | None => [k]
               end.
Proof.
  rewrite wrapper_eq. destruct (served fresh s k now_check); simpl.
  - by rewrite app_nil_r.
  - by destruct (func k).
Qed.

(** X24 (a failed call stores nothing).  The wrapper raises in two cases
    only: an argument is unhashable, and then it raises [TypeError] without
    calling the function; or the table had no fresh entry, the function was
    called once on the arguments and raised, and the wrapper raises that
    same exception.  Either way the table is as it was: an expired entry
    for the key stays. *)
Theorem memo_failure_keeps_table {A : Type} (key_of : A → option K)
    func (args : A) now_check now_store s e s1 :
  wrapper_of_args fresh key_of func args now_check now_store s
  = (Raise e, s1) →
  cache s1 = cache s ∧
  match key_of args with
  | None => e = TypeError "unhashable type" ∧ calls s1 = calls s
  | Some k =>
      func k = Raise e ∧
      served fresh s k now_check = None ∧
      calls s1 = calls s ++ [k]
  end.
Proof.
  unfold wrapper_of_args. destruct (key_of args) as [k|].
  - rewrite wrapper_eq. destruct (served fresh s k now_check); [done|].
    destruct (func k) as [r|e']; [done|]. by intros [= <- <-].
  - by intros [= <- <-].
Qed.

(** X25 (nothing is invented, nothing else is touched).  If every result
    in the table and every answer of the function satisfy a property of the
    key and the result, so does what the wrapper returns and what the table
    holds afterwards; and the entries of the other keys are unchanged. *)
Theorem memo_results_come_from_func (P : K → R → Prop)
    func k now_check now_store s :
  (∀ k' t r, cache s !! k' = Some (t, r) → P k' r) →
  (∀ r, func k = Ok r → P k r) →
  (∀ r, (wrapper fresh func k now_check now_store s).1 = Ok r → P k r) ∧
  (∀ k' t r,
     cache (wrapper fresh func k now_check now_store s).2 !! k' = Some (t, r) →
     P k' r) ∧
  ∀ k', k' ≠ k →
        cache (wrapper fresh func k now_check now_store s).2 !! k'
        = cache s !! k'.
Proof.
  intros Htable Hfunc. rewrite wrapper_eq. unfold served.
  destruct (cache s !! k) as [[t r0]|] eqn:Hentry.
  - destruct (fresh now_check t); simpl.
    + split_and!; [|done|done]. intros r [= <-]. by eapply Htable.
    + destruct (func k) as [r1|e] eqn:Hk; simpl; [|done].
      split_and!.
      * intros r [= <-]. by apply Hfunc.
      * intros k' t' r'. destruct (decide (k = k')) as [<-|Hne].
        -- rewrite lookup_insert_eq. intros [= <- <-]. by apply Hfunc.
        -- rewrite lookup_insert_ne by done. apply Htable.
      * intros k' Hne. by rewrite lookup_insert_ne.
  - destruct (func k) as [r1|e] eqn:Hk; simpl; [|done].
    split_and!.
    + intros r [= <-]. by apply Hfunc.
    + intros k' t' r'. destruct (decide (k = k')) as [<-|Hne].
      * rewrite lookup_insert_eq. intros [= <- <-]. by apply Hfunc.
      * rewrite lookup_insert_ne by done. apply Htable.
    + intros k' Hne. by rewrite lookup_insert_ne.
Qed.
End cache_with_expiry.

End MemoFacts.

Module MoreWitnesses.
Import Py Observed Examples MoreExamples.
#[local] Existing Instance ascending.

Lemma pass_reports_what_it_notified_witness :
  ∃ ns,
    ns `sublist_of` sorted mod_id [roads; boudoir; lanterns] ∧
    Additions.emitted fresh after_first_pass
      (EvFetchLatest :: (notification <$> ns) ++ table_of ns) ∧
    Additions.state_file after_first_pass
    = Some (iter (Additions.seen_mods after_first_pass)) ∧
    Additions.new_mods_data after_first_pass = [].
Proof.
  apply (AdditionsMore.pass_reports_what_it_notified true snapshot
           [roads; boudoir; lanterns] fresh after_first_pass).
  - reflexivity.
  - reflexivity.
  - vm_compute. reflexivity.
Defined.

Lemma notifications_ascending_witness :
  ∃ evs, Additions.emitted fresh after_first_pass evs ∧
         StronglySorted Z.lt (notified_ids evs).
Proof.
  apply (AdditionsMore.notifications_ascending true snapshot
           [roads; boudoir; lanterns] fresh (Ok tt) after_first_pass).
  - reflexivity.
  - vm_compute. reflexivity.
Defined.

Lemma notification_is_due_witness :
  ∃ evs, Additions.emitted fresh after_first_pass evs ∧
         ∀ m text, EvNotifyAddition m text ∈ evs →
                   m ∈ [roads; boudoir; lanterns] ∧
                   available m = true ∧
                   (true && contains_adult_content m) = false ∧
                   (mod_id m ∉ Additions.seen_mods fresh) ∧
                   text = Additions.message_text m.
Proof.
  apply (AdditionsMore.notification_is_due true snapshot
           [roads; boudoir; lanterns] fresh (Ok tt) after_first_pass).
  - reflexivity.
  - vm_compute. reflexivity.
Defined.

Lemma available_mod_is_notified_witness :
  11 ∈ Additions.seen_mods after_first_pass ∧
  ∃ evs, Additions.emitted fresh after_first_pass evs ∧
         notification lanterns ∈ evs.
Proof.
  apply (AdditionsMore.available_mod_is_notified true snapshot
           [roads; boudoir; lanterns] lanterns fresh after_first_pass).
  - reflexivity.
  - by_compute.
  - right. right. left.
  - reflexivity.
  - reflexivity.
  - apply not_elem_of_empty.
  - vm_compute. reflexivity.
Defined.

Lemma failed_pass_saves_nothing_witness :
  Additions.state_file (Additions.additions_cycle true snapshot_unsent fresh).2
  = Additions.state_file fresh ∧
  Additions.seen_mods fresh
  ⊆ Additions.seen_mods
      (Additions.additions_cycle true snapshot_unsent fresh).2 ∧
  ∃ evs,
    Additions.emitted fresh
      (Additions.additions_cycle true snapshot_unsent fresh).2 evs ∧
    ∀ rows, EvTableAdditions rows ∉ evs.
Proof.
  apply (AdditionsMore.failed_pass_saves_nothing true snapshot_unsent fresh
           (RequestError "connection refused")).
  vm_compute. reflexivity.
Defined.

Lemma filed_id_stays_filed_witness :
  11 ∈ default []
         (Additions.state_file
            (Additions.run_launches
               [ {| Additions.l_hide_adult_content := false;
                    Additions.l_loop := true;
                    Additions.l_envs := [snapshot_later; unreachable] |} ]
               after_first_pass)) ∧
  ∃ evs,
    Additions.emitted after_first_pass
      (Additions.run_launches
         [ {| Additions.l_hide_adult_content := false;
              Additions.l_loop := true;
              Additions.l_envs := [snapshot_later; unreachable] |} ]
         after_first_pass) evs ∧
    11 ∉ notified_ids evs.
Proof.
  apply (AdditionsMore.filed_id_stays_filed
           [ {| Additions.l_hide_adult_content := false;
                Additions.l_loop := true;
                Additions.l_envs := [snapshot_later; unreachable] |} ]
           after_first_pass 11).
  vm_compute. left.
Defined.

Lemma seen_set_round_trip_witness :
  (∃ ids, Additions.state_file after_first_pass = Some ids ∧
          ids ≡ₚ elements (Additions.seen_mods after_first_pass)) ∧
  (∀ t, Additions.state_file t = Additions.state_file after_first_pass →
        Additions.additions false true [snapshot_later] t
        = while_true true (Additions.additions_cycle false) [snapshot_later]
            {| Additions.seen_mods := Additions.seen_mods after_first_pass;
               Additions.new_mods_data := [];
               Additions.state_file := Additions.state_file after_first_pass;
               Additions.trace := Additions.trace t |}) ∧
  (∀ t, Additions.state_file t = None →
        Additions.additions false true [snapshot_later] t
        = while_true true (Additions.additions_cycle false) [snapshot_later]
            {| Additions.seen_mods := ∅;
               Additions.new_mods_data := [];
               Additions.state_file := None;
               Additions.trace := Additions.trace t |}).
Proof.
  apply (AdditionsMore.seen_set_round_trip true snapshot fresh
           after_first_pass false true [snapshot_later]).
  vm_compute. reflexivity.
Defined.

(** The file [after_first_pass] wrote, and the seen-set a launch reads
    from it. *)
Example seen_file_of_first_pass :
  Additions.state_file after_first_pass = Some [11; 12] ∧
  Additions.seen_mods (Additions.reload after_first_pass) = {[11; 12]}.
Proof. split; by_compute. Qed.

Lemma update_message_is_due_witness :
  ∃ evs,
    Updates.emitted (tracking "1.0" false)
      (Updates.updates_cycle false "starfield" (remote_7 200 None)
         (tracking "1.0" false)).2 evs ∧
    ∀ id, EvFetchChangelogs id ∈ evs ∨ (∃ text, EvNotifyUpdate id text ∈ evs) →
          ∃ updated_mods,
            updated (remote_7 200 None) = Ok updated_mods ∧
            confirmed (remote_7 200 None)
              (dict_comp um_mod_id um_latest_file_update updated_mods)
              (tracking "1.0" false) id.
Proof.
  apply (UpdatesMore.update_message_is_due false "starfield"
           (remote_7 200 None) (tracking "1.0" false) (Ok tt)).
  vm_compute. reflexivity.
Defined.

Lemma first_sight_is_silent_witness :
  ∃ evs,
    Updates.emitted blank
      (Updates.updates_cycle false "starfield" (remote_7 200 None) blank).2
      evs ∧
    (EvFetchChangelogs 7 ∉ evs) ∧
    ∀ text, EvNotifyUpdate 7 text ∉ evs.
Proof.
  apply (UpdatesMore.first_sight_is_silent false "starfield"
           (remote_7 200 None) blank 7 (Ok tt)).
  - reflexivity.
  - vm_compute. reflexivity.
Defined.

Lemma updates_second_pass_silent_witness :
  ∃ s2,
    Updates.updates_cycle false "starfield" (remote_7 200 None)
      (Updates.tabled after_update_pass) = (Ok tt, s2) ∧
    Updates.emitted (Updates.tabled after_update_pass) s2
      [EvFetchUpdated; EvFetchTracked] ∧
    Updates.local_cache s2 = Updates.local_cache after_update_pass ∧
    Updates.cache_file s2 = Updates.cache_file after_update_pass.
Proof.
  apply (UpdatesMore.updates_second_pass_silent false "starfield"
           (remote_7 200 None) (tracking "1.0" false)).
  vm_compute. reflexivity.
Defined.

Lemma cache_never_shrinks_witness :
  is_Some
    (Updates.local_cache
       (while_true true (Updates.updates_cycle false "starfield")
          [unreachable; remote_7 200 None] (tracking "1.0" false)).2 !! 7).
Proof.
  apply (UpdatesMore.cache_never_shrinks false "starfield" true
           [unreachable; remote_7 200 None] (tracking "1.0" false) 7).
  vm_compute. by eexists.
Defined.

Lemma failed_body_saves_nothing_witness :
  Updates.cache_file
    (Updates.updates_cycle false "starfield" unreachable
       (tracking "1.0" false)).2
  = Updates.cache_file (tracking "1.0" false) ∧
  ∀ k, is_Some (Updates.local_cache (tracking "1.0" false) !! k) →
       is_Some
         (Updates.local_cache
            (Updates.updates_cycle false "starfield" unreachable
               (tracking "1.0" false)).2 !! k).
Proof.
  apply (UpdatesMore.failed_body_saves_nothing false "starfield" unreachable
           (tracking "1.0" false) (RequestError "connection refused")
           (Updates.logged EvFetchUpdated (tracking "1.0" false))).
  reflexivity.
Defined.

Lemma relaunch_resumes_witness :
  Updates.updates true true "" unreachable [remote_7 200 None]
    (Updates.tabled after_update_pass)
  = while_true true (Updates.updates_cycle true "") [remote_7 200 None]
      (Updates.loaded (Updates.local_cache after_update_pass)
         (Updates.tabled after_update_pass)).
Proof.
  apply (UpdatesMore.relaunch_resumes false "starfield" (remote_7 200 None)
           (tracking "1.0" false) after_update_pass).
  - vm_compute. reflexivity.
  - intros Hempty. apply (f_equal (λ c, c !! 7)) in Hempty.
    vm_compute in Hempty. discriminate.
  - reflexivity.
Defined.

Lemma bootstrap_seeds_tracked_witness :
  ∃ updated_mods tracked,
    updated reachable_3 = Ok updated_mods ∧
    tracked_mods reachable_3 = Ok tracked ∧
    dom (Updates.local_cache
           (Updates.bootstrap "starfield" reachable_3 blank).2)
    = list_to_set (tm_mod_id <$> Updates.for_game "starfield" tracked) ∧
    (∀ id, id ∈ dom (Updates.local_cache
                       (Updates.bootstrap "starfield" reachable_3 blank).2) →
           ∃ d, mod_details reachable_3 id = Ok d ∧
                Updates.local_cache
                  (Updates.bootstrap "starfield" reachable_3 blank).2 !! id
                = Some {| ce_version := version d;
                          ce_is_adult := contains_adult_content d;
                          ce_latest_file_update :=
                            dict_comp um_mod_id um_latest_file_update
                              updated_mods !! id |}) ∧
    Updates.emitted blank (Updates.bootstrap "starfield" reachable_3 blank).2
      (EvFetchUpdated :: EvFetchTracked
         :: (EvFetchMod
               <$> iter (list_to_set
                           (tm_mod_id
                              <$> Updates.for_game "starfield" tracked)))) ∧
    Updates.cache_file (Updates.bootstrap "starfield" reachable_3 blank).2
    = Some (Updates.dump_cache
              (Updates.local_cache
                 (Updates.bootstrap "starfield" reachable_3 blank).2)).
Proof.
  apply (UpdatesMore.bootstrap_seeds_tracked "starfield" reachable_3 blank).
  - reflexivity.
  - vm_compute. reflexivity.
Defined.

(** The population of [reachable_3], from a blank state. *)
Example bootstrap_of_reachable_3 :
  Updates.bootstrap "starfield" reachable_3 blank
  = (Ok tt,
     {| Updates.local_cache :=
          {[ 3 := {| ce_version := "1.0"; ce_is_adult := false;
                     ce_latest_file_update := Some 50 |} ]};
        Updates.mods_with_new_version := [];
        Updates.cache_file :=
          Some [ ("3", {| ce_version := "1.0"; ce_is_adult := false;
                          ce_latest_file_update := Some 50 |}) ];
        Updates.trace := [EvFetchUpdated; EvFetchTracked; EvFetchMod 3] |}).
Proof. vm_compute. reflexivity. Qed.

Lemma corrupt_state_file_aborts_launch_witness :
  Updates.updates false true "starfield" reachable_3
    [remote_7 200 None] misfiled
  = (Raise (ValueError "seven"), misfiled).
Proof.
  apply (UpdatesMore.corrupt_state_file_aborts_launch false true "starfield"
           reachable_3 [remote_7 200 None] misfiled
           [ (" +3", cached "0.9" false 50) ] "seven"
           (cached "1.0" false 100) []).
  - reflexivity.
  - by_compute.
  - reflexivity.
Defined.

Lemma tracked_mods_of_game_witness :
  ∃ l,
    Updates.fetch_tracked_mods "skyrim" half_reachable blank
    = (Ok l, Updates.logged EvFetchTracked blank) ∧
    l `sublist_of` [tracked 3 None; tracked 5 None] ∧
    ∀ tm, tm ∈ l ↔ tm ∈ [tracked 3 None; tracked 5 None] ∧
                   ("skyrim" = "" ∨ tm_domain_name tm = "skyrim").
Proof.
  apply (UpdatesMore.tracked_mods_of_game "skyrim" half_reachable blank).
  reflexivity.
Defined.

Lemma filtered_ids_keeps_witness :
  Updates.filtered_ids true [tracked 3 (Some true); tracked 5 (Some false)]
  = Ok (list_to_set
          (tm_mod_id
             <$> filter (λ m, tm_is_adult m = Some false)
                   [tracked 3 (Some true); tracked 5 (Some false)])).
Proof.
  apply (UpdatesMore.filtered_ids_keeps
           [tracked 3 (Some true); tracked 5 (Some false)]).
  repeat (apply Forall_cons; split; [by eexists|]). apply Forall_nil_2.
Defined.

Lemma policy_on_missing_flag_fails_pass_witness :
  Updates.updates_cycle true "starfield" (remote_7 200 None)
    (tracking "1.0" false)
  = (Ok tt,
     Updates.tabled
       (Updates.logged (EvError (KeyError "is_adult"))
          (Updates.logged EvFetchTracked
             (Updates.logged EvFetchUpdated (tracking "1.0" false))))).
Proof.
  apply (UpdatesMore.policy_on_missing_flag_fails_pass "starfield"
           (remote_7 200 None) (tracking "1.0" false)
           [ {| um_mod_id := 7; um_latest_file_update := 200 |} ]
           [tracked 7 None] (tracked 7 None)).
  - reflexivity.
  - reflexivity.
  - vm_compute. left.
  - reflexivity.
Defined.

Lemma empty_changelog_still_notifies_witness :
  Updates.updates_item remote_7_bare moved 7 (tracking "1.0" false)
  = (Ok tt, Updates.reported 7 star_maps "Star Maps" (cached "1.0" false 100)
              (Some 200) [] (tracking "1.0" false)) ∧
  Updates.mods_with_new_version
    (Updates.reported 7 star_maps "Star Maps" (cached "1.0" false 100)
       (Some 200) [] (tracking "1.0" false))
  = Updates.mods_with_new_version (tracking "1.0" false) ∧
  Updates.changelog_text [] = "".
Proof.
  apply (UpdatesMore.empty_changelog_still_notifies remote_7_bare moved 7
           (tracking "1.0" false) (cached "1.0" false 100) 200 star_maps
           "Star Maps").
  - reflexivity.
  - reflexivity.
  - lia.
  - discriminate.
  - reflexivity.
  - discriminate.
  - discriminate.
  - discriminate.
  - reflexivity.
  - reflexivity.
  - reflexivity.
Defined.

(** The state of the table after a first call for key 1 at time 1000. *)
Lemma memo_serves_again_witness :
  ∃ t,
    Memo.cache (Memo.wrapper fresh_300 answers 1 1000 1000 empty_table).2 !! 1
    = Some (t, "one") ∧
    (t = 1000 ∨
     (Memo.wrapper fresh_300 answers 1 1000 1000 empty_table).2 = empty_table) ∧
    ∀ func' now_check' now_store',
      fresh_300 now_check' t = true →
      Memo.wrapper fresh_300 func' 1 now_check' now_store'
        (Memo.wrapper fresh_300 answers 1 1000 1000 empty_table).2
      = (Ok "one", (Memo.wrapper fresh_300 answers 1 1000 1000 empty_table).2).
Proof.
  apply (MemoFacts.memo_serves_again fresh_300 answers 1 1000 1000 empty_table).
  reflexivity.
Defined.

Lemma memo_failure_keeps_table_witness :
  Memo.cache (Memo.wrapper_of_args fresh_300 hashable answers (Some 2)
                1000 1000 empty_table).2
  = Memo.cache empty_table ∧
  answers 2 = Raise (RequestError "connection refused") ∧
  Memo.served fresh_300 empty_table 2 1000 = None ∧
  Memo.calls (Memo.wrapper_of_args fresh_300 hashable answers (Some 2)
                1000 1000 empty_table).2
  = Memo.calls empty_table ++ [2].
Proof.
  apply (MemoFacts.memo_failure_keeps_table fresh_300 hashable answers
           (Some 2) 1000 1000 empty_table
           (RequestError "connection refused")).
  reflexivity.
Defined.

(** An unhashable argument: [TypeError], and the function is not called. *)
Example memo_unhashable_argument :
  Memo.wrapper_of_args fresh_300 hashable answers None 1000 1000 empty_table
  = (Raise (TypeError "unhashable type"), empty_table).
Proof. reflexivity. Qed.

Lemma memo_results_come_from_func_witness :
  (∀ r, (Memo.wrapper fresh_300 answers 1 1000 1000 empty_table).1 = Ok r →
        r = "one") ∧
  (∀ k' t r,
     Memo.cache (Memo.wrapper fresh_300 answers 1 1000 1000 empty_table).2
       !! k' = Some (t, r) →
     r = "one") ∧
  ∀ k', k' ≠ 1 →
        Memo.cache (Memo.wrapper fresh_300 answers 1 1000 1000 empty_table).2
          !! k'
        = Memo.cache empty_table !! k'.
Proof.
  apply (MemoFacts.memo_results_come_from_func fresh_300 (λ _ r, r = "one")
           answers 1 1000 1000 empty_table).
  - intros k' t r Hin. unfold empty_table in Hin. simpl in Hin.
    by rewrite lookup_empty in Hin.
  - intros r [= <-]. reflexivity.
Defined.

End MoreWitnesses.
